(** * Exomizer raw decruncher for Arduino: a shallow embedding

    The development follows the last sketch of the repository (the one whose
    test data is [demo_crunched_data]): the bit reader [get_one_bit],
    [get_n_bits], the gamma decoder [get_gamma_coded_value], the command
    table built by [init_decrunch_table], the prefix tree of
    [get_coded_command_val] and the main loop of [exod_decrunch].

    Conventions.
    - The file-scope variables of the sketch are the fields of [state], with
      their names.  A function that reads or writes them passes the state.
    - [uint8_t] and [uint16_t] values are integers of [Z]; every assignment
      that can leave the range of its variable is written with [u8] or [u16].
      [int] is taken to be wider than 16 bits.  A result of [get_n_bits]
      that needs all 16 bits arises in the gamma decoder only (the table of
      the sketch asks for 10 bits at most), and there the caller casts it
      back to [uint16_t].
    - [size_t] indices and the bit counter never wrap (they are bounded by the
      array lengths and by 8), so they are natural numbers.
    - An array together with its length argument is a list: [in_data] with
      [in_len] is [crunched_data].  The output array keeps its own capacity
      [decompressed_buffer_size], as [out_max_len] may be smaller than the
      array behind [out_buffer].
    - An access outside an array is undefined in C; the model stops with
      [Fault] there.

    The first sketch of the same file, which parses the tables of the raw
    format and reads its bits least significant bit first, is embedded in
    the module [Raw] with the same conventions; its 32-bit values are
    written with [Raw.u32].  Its properties are in [RawProperties]. *)

From Stdlib Require Import ZArith Lia List Bool.
From stdpp Require Import base list strings.

Local Open Scope Z_scope.

(** * The sketch and the notions used to state its properties *)

(** ** Machine integers *)

Definition u8 (x : Z) : Z := x mod 256.
Definition u16 (x : Z) : Z := x mod 65536.

(** ** The file-scope variables *)

Record state := State {
  exod_zp_bitbuf : Z;                 (* static uint8_t exod_zp_bitbuf *)
  exod_zp_bit_count : nat;            (* static uint8_t exod_zp_bit_count *)
  crunched_data : list Z;             (* crunched_data_ptr, crunched_data_len *)
  crunched_data_index : nat;
  decompressed_data : list Z;         (* the array behind decompressed_data_ptr *)
  decompressed_buffer_size : nat;
  decompressed_data_index : nat;
  last_offset_val : Z;                (* static uint16_t last_offset_val *)
  exod_decrunch_table_data : list Z;  (* static uint8_t [145] *)
  serial : list string                (* lines printed on Serial, oldest first *)
}.

Definition set_bitbuf (b : Z) (c : nat) (s : state) : state :=
  State b c (crunched_data s) (crunched_data_index s) (decompressed_data s)
        (decompressed_buffer_size s) (decompressed_data_index s)
        (last_offset_val s) (exod_decrunch_table_data s) (serial s).

Definition set_crunched_data_index (i : nat) (s : state) : state :=
  State (exod_zp_bitbuf s) (exod_zp_bit_count s) (crunched_data s) i
        (decompressed_data s) (decompressed_buffer_size s)
        (decompressed_data_index s) (last_offset_val s)
        (exod_decrunch_table_data s) (serial s).

Definition set_output (d : list Z) (i : nat) (s : state) : state :=
  State (exod_zp_bitbuf s) (exod_zp_bit_count s) (crunched_data s)
        (crunched_data_index s) d (decompressed_buffer_size s) i
        (last_offset_val s) (exod_decrunch_table_data s) (serial s).

Definition set_last_offset_val (o : Z) (s : state) : state :=
  State (exod_zp_bitbuf s) (exod_zp_bit_count s) (crunched_data s)
        (crunched_data_index s) (decompressed_data s)
        (decompressed_buffer_size s) (decompressed_data_index s) o
        (exod_decrunch_table_data s) (serial s).

Definition set_table (t : list Z) (s : state) : state :=
  State (exod_zp_bitbuf s) (exod_zp_bit_count s) (crunched_data s)
        (crunched_data_index s) (decompressed_data s)
        (decompressed_buffer_size s) (decompressed_data_index s)
        (last_offset_val s) t (serial s).

Definition Serial_println (line : string) (s : state) : state :=
  State (exod_zp_bitbuf s) (exod_zp_bit_count s) (crunched_data s)
        (crunched_data_index s) (decompressed_data s)
        (decompressed_buffer_size s) (decompressed_data_index s)
        (last_offset_val s) (exod_decrunch_table_data s)
        (serial s ++ [line]).

Definition COMMAND_EOS_MARKER : Z := 255.

(** ** Bit reader *)

(** [exod_read_byte_from_stream]: [None] is the [false] result; the bound
    test [crunched_data_index < crunched_data_len] is the list lookup. *)
Definition exod_read_byte_from_stream (s : state) : option (Z * state) :=
  match crunched_data s !! crunched_data_index s with
  | Some x => Some (u8 x, set_crunched_data_index (S (crunched_data_index s)) s)
  | None => None
  end.

(** [get_one_bit]: the result is the bit, or [-1] at the end of the input. *)
Definition get_one_bit (s : state) : Z * state :=
  let refilled :=
    match exod_zp_bit_count s with
    | O =>
        match exod_read_byte_from_stream s with
        | Some (b, s1) => Some (set_bitbuf b 8 s1)
        | None => None
        end
    | S _ => Some s
    end in
  match refilled with
  | None => (-1, s)
  | Some s1 =>
      let bit := if Z.land (exod_zp_bitbuf s1) 128 =? 0 then 0 else 1 in
      (bit, set_bitbuf (u8 (Z.shiftl (exod_zp_bitbuf s1) 1))
                       (Nat.pred (exod_zp_bit_count s1)) s1)
  end.

(** The [for] loop of [get_n_bits]; [todo] iterations remain. *)
Fixpoint get_n_bits_loop (todo : nat) (value : Z) (s : state) : Z * state :=
  match todo with
  | O => (value, s)
  | S todo' =>
      let '(bit, s1) := get_one_bit s in
      if bit =? -1 then (-1, s1)
      else get_n_bits_loop todo' (u16 (Z.lor (Z.shiftl value 1) bit)) s1
  end.

Definition get_n_bits (n : Z) (s : state) : Z * state :=
  if n =? 0 then (0, s)
  else if 16 <? n then (-1, s)
  else get_n_bits_loop (Z.to_nat n) 0 s.

(** ** Gamma decoder *)

(** The three ways out of the [while (true)] loop of
    [get_gamma_coded_value]. *)
Inductive unary_exit :=
| UnaryEOS                       (* if (bit == -1) return 0; *)
| UnaryOverflow                  (* if (unary_count > 16) return 0; *)
| UnaryFound (unary_count : Z).  (* if (bit == 1) break; *)

Fixpoint unary_scan (fuel : nat) (unary_count : Z) (s : state)
  : option (unary_exit * state) :=
  match fuel with
  | O => None
  | S fuel' =>
      let '(bit, s1) := get_one_bit s in
      if bit =? -1 then Some (UnaryEOS, s1)
      else if bit =? 1 then Some (UnaryFound unary_count, s1)
      else
        let unary_count := u8 (unary_count + 1) in
        if 16 <? unary_count then Some (UnaryOverflow, s1)
        else unary_scan fuel' unary_count s1
  end.

(** Seventeen iterations are all the loop can make
    ([unary_scan_17_defined]), so the first case below is never taken. *)
Definition get_gamma_coded_value (s : state) : Z * state :=
  match unary_scan 17 0 s with
  | None => (0, s)
  | Some (UnaryEOS, s1) => (0, s1)
  | Some (UnaryOverflow, s1) => (0, s1)
  | Some (UnaryFound unary_count, s1) =>
      if unary_count =? 0 then (1, s1)
      else
        let '(r, s2) := get_n_bits unary_count s1 in
        let value_part := u16 r in
        if value_part =? u16 (-1) then (0, s2)
        else (u16 (Z.lor (Z.shiftl 1 unary_count) value_part), s2)
  end.

(** ** Command table *)

(** [exod_decrunch_table_data[k++] = v] on the array [t]. *)
Definition table_put (v : Z) (kt : nat * list Z) : nat * list Z :=
  let '(k, t) := kt in (S k, <[k := u8 v]> t).

Fixpoint init_literal_entries (todo : nat) (i : Z) (kt : nat * list Z)
  : nat * list Z :=
  match todo with
  | O => kt
  | S todo' =>
      init_literal_entries todo' (i + 1)
        (table_put (Z.lor (Z.shiftl i 2) 0) kt)
  end.

Fixpoint init_passes (todo : nat) (kt : nat * list Z) : nat * list Z :=
  match todo with
  | O => kt
  | S todo' =>
      let kt := init_literal_entries 32 0 kt in
      let kt := table_put (Z.lor (Z.shiftl 10 2) 1) kt in
      let kt := table_put (Z.lor (Z.shiftl 10 2) 1) kt in
      let kt := table_put (Z.lor (Z.shiftl 10 2) 2) kt in
      let kt := table_put (Z.lor (Z.shiftl 10 2) 2) kt in
      init_passes todo' kt
  end.

(** The assignments of [init_decrunch_table], on the array [t]. *)
Definition build_table (t : list Z) : list Z :=
  let kt := init_passes 4 (O, t) in
  let kt := table_put (Z.lor (Z.shiftl 0 2) 3) kt in
  snd kt.

Definition init_decrunch_table (s : state) : state :=
  set_table (build_table (exod_decrunch_table_data s)) s.

(** A read of the table; the indices the decoder forms are at most 144. *)
Definition table_at (i : Z) (s : state) : Z :=
  default 0 (exod_decrunch_table_data s !! Z.to_nat i).

(** ** Command decoder *)

Definition get_coded_command_val (s : state) : Z * state :=
  let '(bit_val, s) := get_one_bit s in
  if bit_val =? -1 then (COMMAND_EOS_MARKER, s)
  else if bit_val =? 0 then
    let '(sub_idx, s) := get_n_bits 5 s in
    if sub_idx =? -1 then (COMMAND_EOS_MARKER, s)
    else (table_at (108 + sub_idx) s, s)
  else
  let '(bit_val, s) := get_one_bit s in
  if bit_val =? -1 then (COMMAND_EOS_MARKER, s)
  else if bit_val =? 0 then
    let '(sub_idx, s) := get_n_bits 4 s in
    if sub_idx =? -1 then (COMMAND_EOS_MARKER, s)
    else (table_at (36 + sub_idx) s, s)
  else
  let '(bit_val, s) := get_one_bit s in
  if bit_val =? -1 then (COMMAND_EOS_MARKER, s)
  else if bit_val =? 0 then
    let '(sub_idx, s) := get_n_bits 3 s in
    if sub_idx =? -1 then (COMMAND_EOS_MARKER, s)
    else (table_at (72 + sub_idx) s, s)
  else
  let '(bit_val, s) := get_one_bit s in
  if bit_val =? -1 then (COMMAND_EOS_MARKER, s)
  else if bit_val =? 0 then
    let '(sub_idx, s) := get_n_bits 2 s in
    if sub_idx =? -1 then (COMMAND_EOS_MARKER, s)
    else (table_at (0 + sub_idx) s, s)
  else (table_at 144 s, s).

(** ** Main decrunch logic *)

(** The places where [exod_decrunch] stops. *)
Inductive exit :=
| ExitBufferFull     (* the while condition is false *)
| ExitEOS            (* command_byte == COMMAND_EOS_MARKER: break *)
| ExitLiteralEOS     (* literal_byte == -1: return *)
| ExitOffsetBitsEOS  (* raw == -1: return *)
| ExitGammaLength    (* length == 0: return *)
| ExitReuseBitEOS    (* bit == -1: return *)
| ExitGammaOffset    (* offset == 0: return *)
| ExitInvalidOffset. (* "Error: Invalid offset": return *)

(** What a part of the loop body does: go on, leave the function, or access
    an array outside its bounds. *)
Inductive outcome :=
| Next (s : state)
| Return (e : exit) (s : state)
| Fault.

(** [decompressed_data_ptr[decompressed_data_index++] = v]. *)
Definition store_output (v : Z) (s : state) : option state :=
  let i := decompressed_data_index s in
  if (i <? length (decompressed_data s))%nat
  then Some (set_output (<[i := v]> (decompressed_data s)) (S i) s)
  else None.

(** [decompressed_data_ptr[a]], for an index computed in the integers. *)
Definition load_output (a : Z) (s : state) : option Z :=
  if a <? 0 then None else decompressed_data s !! Z.to_nat a.

Fixpoint literal_run (todo : nat) (s : state) : outcome :=
  match todo with
  | O => Next s
  | S todo' =>
      if (decompressed_buffer_size s <=? decompressed_data_index s)%nat
      then Next s
      else
        let '(literal_byte, s1) := get_n_bits 8 s in
        if literal_byte =? -1 then Return ExitLiteralEOS s1
        else
          match store_output (u8 literal_byte) s1 with
          | Some s2 => literal_run todo' s2
          | None => Fault
          end
  end.

(** The sequence branch up to the end of the command: either a [return], or
    the length and the offset of the copy. *)
Definition read_sequence (type val_from_table : Z) (s : state)
  : (exit * state) + (Z * Z * state) :=
  if type =? 1 then
    let '(raw, s1) := get_n_bits val_from_table s in
    if raw =? -1 then inl (ExitOffsetBitsEOS, s1)
    else inr (2, u16 (raw + 1), s1)
  else if type =? 2 then
    let '(raw, s1) := get_n_bits val_from_table s in
    if raw =? -1 then inl (ExitOffsetBitsEOS, s1)
    else inr (3, u16 (raw + 1), s1)
  else
    let '(length, s1) := get_gamma_coded_value s in
    if length =? 0 then inl (ExitGammaLength, s1)
    else
      let length := u16 (length + 3) in
      let '(bit, s2) := get_one_bit s1 in
      if bit =? -1 then inl (ExitReuseBitEOS, s2)
      else if bit =? 1 then inr (length, last_offset_val s2, s2)
      else
        let '(offset, s3) := get_gamma_coded_value s2 in
        if offset =? 0 then inl (ExitGammaOffset, s3)
        else inr (length, offset, set_last_offset_val offset s3).

(** One round of the copy loop:
    [ptr[index] = ptr[index - offset]; index++]. *)
Definition copy_byte (offset : Z) (s : state) : option state :=
  match load_output (Z.of_nat (decompressed_data_index s) - offset) s with
  | Some v => store_output v s
  | None => None
  end.

Fixpoint copy_run (todo : nat) (offset : Z) (s : state) : outcome :=
  match todo with
  | O => Next s
  | S todo' =>
      if (decompressed_buffer_size s <=? decompressed_data_index s)%nat
      then Next s
      else
        match copy_byte offset s with
        | Some s1 => copy_run todo' offset s1
        | None => Fault
        end
  end.

(** The [if (is_sequence)] block. *)
Definition copy_sequence (length offset : Z) (s : state) : outcome :=
  if (offset =? 0) || (Z.of_nat (decompressed_data_index s) <? offset)
  then Return ExitInvalidOffset (Serial_println "Error: Invalid offset" s)
  else copy_run (Z.to_nat length) offset s.

(** The body of the [while] loop. *)
Definition decrunch_iteration (s : state) : outcome :=
  let '(command_byte, s1) := get_coded_command_val s in
  if command_byte =? COMMAND_EOS_MARKER then Return ExitEOS s1
  else
    let type := Z.land command_byte 3 in
    let val_from_table := Z.shiftr command_byte 2 in
    if type =? 0 then literal_run (Z.to_nat (u16 (val_from_table + 1))) s1
    else
      match read_sequence type val_from_table s1 with
      | inl (e, s2) => Return e s2
      | inr (length, offset, s2) => copy_sequence length offset s2
      end.

Inductive verdict :=
| Finished (e : exit) (s : state)
| Faulted
| OutOfFuel.

Fixpoint decrunch_loop (fuel : nat) (s : state) : verdict :=
  if (decompressed_buffer_size s <=? decompressed_data_index s)%nat
  then Finished ExitBufferFull s
  else
    match fuel with
    | O => OutOfFuel
    | S fuel' =>
        match decrunch_iteration s with
        | Next s' => decrunch_loop fuel' s'
        | Return e s' => Finished e s'
        | Fault => Faulted
        end
    end.

(** The assignments at the head of [exod_decrunch].  [g] holds the
    file-scope variables as the previous use of the sketch left them. *)
Definition exod_decrunch_reset (g : state) (in_data out_buffer : list Z)
    (out_max_len : nat) : state :=
  init_decrunch_table
    (State 0 0 in_data 0 out_buffer out_max_len 0 0
           (exod_decrunch_table_data g) (serial g)).

(** Every round of the loop that goes on takes a bit of the input
    ([decrunch_loop_enough_fuel]), so this fuel is never used up. *)
Definition exod_decrunch (g : state) (in_data out_buffer : list Z)
    (out_max_len : nat) : verdict :=
  decrunch_loop (8 * length in_data + 1)
                (exod_decrunch_reset g in_data out_buffer out_max_len).

(** The variables at program start: statics are zero. *)
Definition boot : state :=
  State 0 0 [] 0 [] 0 0 0 (replicate 145 0) [].

Definition demo_crunched_data : list Z := [17; 33; 149; 177; 177; 191; 192].

(** ** The input as a stream of bits *)

(** The first [n] bits of the byte [b], most significant first. *)
Definition msb_first (b : Z) (n : nat) : list bool :=
  map (fun i => Z.testbit b (7 - Z.of_nat i)) (seq 0 n).

(** The bits the reader has not delivered yet: what is left of the buffered
    byte, then the bytes not yet fetched. *)
Definition pending_bits (s : state) : list bool :=
  msb_first (exod_zp_bitbuf s) (exod_zp_bit_count s)
  ++ flat_map (fun x => msb_first x 8)
              (drop (crunched_data_index s) (crunched_data s)).

(** The number a run of bits spells, first bit most significant. *)
Definition bits_value (bs : list bool) : Z :=
  fold_left (fun v b => 2 * v + Z.b2z b) bs 0.

(** [s'] differs from [s] in the bit reader only. *)
Definition reader_moved (s s' : state) : Prop :=
  crunched_data s' = crunched_data s
  /\ decompressed_data s' = decompressed_data s
  /\ decompressed_buffer_size s' = decompressed_buffer_size s
  /\ decompressed_data_index s' = decompressed_data_index s
  /\ last_offset_val s' = last_offset_val s
  /\ exod_decrunch_table_data s' = exod_decrunch_table_data s
  /\ serial s' = serial s.

(** ** The prefix tree of the command decoder *)

(** The tree in the words of the specification (section 4.4), on a stream
    of bits: the index into the table and the rest of the stream, or [None]
    for StreamExhausted.  It is compared with [get_coded_command_val]
    below. *)
Definition spec_leaf (base : Z) (n : nat) (bs : list bool)
  : option (Z * list bool) :=
  if (n <=? length bs)%nat
  then Some (base + bits_value (take n bs), drop n bs)
  else None.

Definition spec_table_index (bs : list bool) : option (Z * list bool) :=
  match bs with
  | false :: r => spec_leaf 108 5 r
  | true :: false :: r => spec_leaf 36 4 r
  | true :: true :: false :: r => spec_leaf 72 3 r
  | true :: true :: true :: false :: r => spec_leaf 0 2 r
  | true :: true :: true :: true :: r => Some (144, r)
  | _ => None
  end.

(** ** Input is only ever consumed *)

Definition bits_left (s : state) : nat := length (pending_bits s).

(** [s'] is [s] after reading some bits, nothing else changed. *)
Definition advanced (s s' : state) : Prop :=
  reader_moved s s' /\ (bits_left s' <= bits_left s)%nat.

(** ** The output array *)

(** The capacity lies within the array, the write position within the
    capacity, and [last_offset_val] is unsigned. *)
Definition state_ok (s : state) : Prop :=
  (decompressed_buffer_size s <= length (decompressed_data s))%nat
  /\ (decompressed_data_index s <= decompressed_buffer_size s)%nat
  /\ 0 <= last_offset_val s.

(** [s'] comes after [s] in a run: the table, the capacity and the length
    of the array are the same, the write position did not go back, the
    array changed only between the two write positions, and no bit came
    back into the stream. *)
Definition evolves (s s' : state) : Prop :=
  exod_decrunch_table_data s' = exod_decrunch_table_data s
  /\ decompressed_buffer_size s' = decompressed_buffer_size s
  /\ length (decompressed_data s') = length (decompressed_data s)
  /\ (decompressed_data_index s <= decompressed_data_index s')%nat
  /\ (forall i : nat,
        (i < decompressed_data_index s)%nat
        \/ (decompressed_data_index s' <= i)%nat ->
        decompressed_data s' !! i = decompressed_data s !! i)
  /\ (bits_left s' <= bits_left s)%nat.

(** What a part of the loop body leaves behind when it starts from [s]. *)
Definition outcome_ok (s : state) (o : outcome) : Prop :=
  match o with
  | Next s' => evolves s s' /\ state_ok s'
  | Return e s' => evolves s s' /\ state_ok s' /\ e <> ExitBufferFull
  | Fault => False
  end.

(** What [read_sequence] leaves behind when it starts from [s]. *)
Definition sequence_ok (s : state)
    (r : (exit * state) + (Z * Z * state)) : Prop :=
  match r with
  | inl (e, s') => evolves s s' /\ state_ok s' /\ e <> ExitBufferFull
  | inr (_, offset, s') => evolves s s' /\ state_ok s' /\ 0 <= offset
  end.

(** What a run leaves behind when it starts from [s]: it has an end, and
    at the end the write position is within the capacity. *)
Definition verdict_ok (s : state) (v : verdict) : Prop :=
  match v with
  | Finished e s' =>
      evolves s s' /\ state_ok s'
      /\ (e = ExitBufferFull ->
          decompressed_data_index s' = decompressed_buffer_size s')
  | Faulted | OutOfFuel => False
  end.

(** ** The table and the start of a run *)

(** The table as [init_decrunch_table] leaves it. *)
Definition canonical_table : list Z :=
  Eval vm_compute in build_table (replicate 145 0).

(** ** Two runs on the same stream *)

(** [s1] and [s2] are at the same point of two runs on the same stream,
    the second with at least as much room: same pending bits, same table,
    same last offset, same lines printed, same write position, and the
    same bytes below the write position. *)
Definition sim (s1 s2 : state) : Prop :=
  pending_bits s1 = pending_bits s2
  /\ exod_decrunch_table_data s1 = exod_decrunch_table_data s2
  /\ last_offset_val s1 = last_offset_val s2
  /\ serial s1 = serial s2
  /\ decompressed_data_index s1 = decompressed_data_index s2
  /\ (forall j : nat, (j < decompressed_data_index s1)%nat ->
        decompressed_data s1 !! j = decompressed_data s2 !! j)
  /\ (decompressed_buffer_size s1 <= decompressed_buffer_size s2)%nat.

(** The second run does what the first does, as long as the first is not
    held back by its capacity. *)
Definition outcome_sim (o1 o2 : outcome) : Prop :=
  match o1 with
  | Return e t1 => exists t2, o2 = Return e t2 /\ sim t1 t2 /\ state_ok t2
  | Next t1 =>
      (decompressed_data_index t1 < decompressed_buffer_size t1)%nat ->
      exists t2, o2 = Next t2 /\ sim t1 t2 /\ state_ok t2
  | Fault => True
  end.

Definition sequence_sim (r1 r2 : (exit * state) + (Z * Z * state)) : Prop :=
  match r1, r2 with
  | inl (e1, t1), inl (e2, t2) => e1 = e2 /\ sim t1 t2
  | inr (l1, o1, t1), inr (l2, o2, t2) => l1 = l2 /\ o1 = o2 /\ sim t1 t2
  | _, _ => False
  end.

(** The bytes [s1] has written are the first of the bytes [s2] has
    written. *)
Definition prefix_of (s1 s2 : state) : Prop :=
  (decompressed_data_index s1 <= decompressed_data_index s2)%nat
  /\ forall j : nat, (j < decompressed_data_index s1)%nat ->
       decompressed_data s1 !! j = decompressed_data s2 !! j.

(** The second run writes what the first writes, and maybe more. *)
Definition outcome_prefix (o1 o2 : outcome) : Prop :=
  match o1, o2 with
  | (Next t1 | Return _ t1), (Next t2 | Return _ t2) => prefix_of t1 t2
  | Fault, _ => True
  | _, Fault => False
  end.

(** ** Lines printed earlier do not matter *)

(** [s] with the lines [p] printed before everything else. *)
Definition printed_before (p : list string) (s : state) : state :=
  State (exod_zp_bitbuf s) (exod_zp_bit_count s) (crunched_data s)
        (crunched_data_index s) (decompressed_data s)
        (decompressed_buffer_size s) (decompressed_data_index s)
        (last_offset_val s) (exod_decrunch_table_data s) (p ++ serial s).

Definition outcome_printed_before (p : list string) (o : outcome) : outcome :=
  match o with
  | Next s => Next (printed_before p s)
  | Return e s => Return e (printed_before p s)
  | Fault => Fault
  end.

Definition verdict_printed_before (p : list string) (v : verdict) : verdict :=
  match v with
  | Finished e s => Finished e (printed_before p s)
  | Faulted => Faulted
  | OutOfFuel => OutOfFuel
  end.

(** ** What the caller sees *)

(** What is there to see after a call: the exit taken, the number of bytes
    written, the output array, and the lines on Serial. *)
Definition decode_result (v : verdict)
  : option (exit * nat * list Z * list string) :=
  match v with
  | Finished e s =>
      Some (e, decompressed_data_index s, decompressed_data s, serial s)
  | Faulted | OutOfFuel => None
  end.

(** ** Two activations on the shared variables *)

(** The working variables of the sketch are at file scope: two activations
    of [exod_decrunch] that are under way at the same time (two tasks, or a
    task and an interrupt handler) read and write the same variables.  Each
    passes its own output array; [decompressed_data_ptr] points to one of
    them, whose contents are [decompressed_data (vars m)]; the contents of
    the other are [parked m].  An activation is cut at the points between
    the head of the function and its loop, which is as coarse as a cut can
    be: what one such schedule shows, a finer one shows too. *)
Inductive activation := FirstCall | SecondCall.

Definition activation_eqb (a b : activation) : bool :=
  match a, b with
  | FirstCall, FirstCall | SecondCall, SecondCall => true
  | _, _ => false
  end.

Record machine := Machine {
  vars : state;
  target : activation;
  parked : list Z
}.

Definition array_of (a : activation) (m : machine) : list Z :=
  if activation_eqb a (target m) then decompressed_data (vars m)
  else parked m.

Definition other (a : activation) : activation :=
  match a with FirstCall => SecondCall | SecondCall => FirstCall end.

(** The head of [exod_decrunch], run by activation [a] with its array. *)
Definition enter (a : activation) (in_data : list Z) (out_max_len : nat)
    (m : machine) : machine :=
  Machine (exod_decrunch_reset (vars m) in_data (array_of a m) out_max_len)
          a (array_of (other a) m).

(** The loop of [exod_decrunch], run to its end by whichever activation is
    scheduled: it works on the shared variables. *)
Definition run_loop (fuel : nat) (m : machine) : option (exit * machine) :=
  match decrunch_loop fuel (vars m) with
  | Finished e s => Some (e, Machine s (target m) (parked m))
  | Faulted | OutOfFuel => None
  end.

(** Two fresh arrays of sixteen bytes and the variables at program start. *)
Definition two_buffers : machine :=
  Machine (State 0 0 [] 0 (replicate 16 0) 0 0 0 (replicate 145 0) [])
          FirstCall (replicate 16 0).

(** The first activation runs the head of the function and is cut; the
    second runs from head to end; the first goes on. *)
Definition interleaved (in_data : list Z) (cap : nat)
  : option (exit * list Z * (exit * list Z)) :=
  let m := enter FirstCall in_data cap two_buffers in
  let m := enter SecondCall in_data cap m in
  match run_loop 100 m with
  | None => None
  | Some (e2, m) =>
      match run_loop 100 m with
      | None => None
      | Some (e1, m) =>
          Some (e1, array_of FirstCall m, (e2, array_of SecondCall m))
      end
  end.

(** One activation after the other. *)
Definition one_after_the_other (in_data : list Z) (cap : nat)
  : option (exit * list Z * (exit * list Z)) :=
  let m := enter FirstCall in_data cap two_buffers in
  match run_loop 100 m with
  | None => None
  | Some (e1, m) =>
      let m := enter SecondCall in_data cap m in
      match run_loop 100 m with
      | None => None
      | Some (e2, m) =>
          Some (e1, array_of FirstCall m, (e2, array_of SecondCall m))
      end
  end.

(** ** The test data of the sketch *)

Definition hello : list Z := [72; 101; 108; 108; 111].

(** ** States and inputs of the worked cases *)

(** The state in which the gamma decoder meets sixteen zero bits, a one,
    and the sixteen payload bits 0000000000000001. *)
Definition gamma_17_bits : state :=
  exod_decrunch_reset boot [0; 0; 128; 0; 128] [] 0.

(** The state after the command 1111 has been read from [input]. *)
Definition after_command (input : list Z) : state :=
  snd (get_coded_command_val
         (exod_decrunch_reset boot input (replicate 16 0) 16)).

(** The variables when the output holds the one byte "A", with room for
    five more. *)
Definition after_A : state :=
  State 0 0 [] 0 [65; 0; 0; 0; 0; 0] 6 1 0 canonical_table [].

(** The variables at the start of a call on the one input byte 0xFA: the
    command 1111, the length code 1, the reuse bit 0 and the offset code 1,
    a copy from one byte back when nothing has been written. *)
Definition before_bad_copy : state :=
  exod_decrunch_reset boot [250] (replicate 16 0) 16.

(** The input of a call that starts with a gamma sequence whose reuse bit
    is 1 (0xFC: command 1111, length code 1, reuse bit 1), and of a call
    that starts with a gamma sequence of offset 1 (0xFA: command 1111,
    length code 1, reuse bit 0, offset code 1). *)
Definition reuse_first : list Z := [252].
Definition copy_first : list Z := [250].

(** The literal "A", a gamma sequence of length 4 with the new offset 1,
    and a gamma sequence of length 4 with the reuse bit. *)
Definition reuse_demo : list Z := [1; 7; 239; 224].

(** The variables after the literal of [reuse_demo] has been written. *)
Definition before_first_copy : state :=
  State 192 2 reuse_demo 2 (65 :: replicate 15 0) 16 1 0 canonical_table [].

(** The variables at the start of a call on [reuse_first]. *)
Definition before_reuse_first : state :=
  exod_decrunch_reset boot reuse_first (replicate 16 0) 16.

(** ** Notions for the further properties *)

(** The [n] low bits of [v], most significant first. *)
Definition bits_of_value (n : nat) (v : Z) : list bool :=
  map (fun i => Z.testbit v (Z.of_nat n - 1 - Z.of_nat i)) (seq 0 n).

(** The [k]-th group of eight bits of a stream, as a number. *)
Definition octet (k : nat) (bs : list bool) : Z :=
  bits_value (take 8 (drop (8 * k) bs)).

(** The lines a call prints, by the exit it takes. *)
Definition lines_of_exit (e : exit) : list string :=
  match e with
  | ExitInvalidOffset => ["Error: Invalid offset"]
  | _ => []
  end.

(** The code of [v] that [get_gamma_coded_value] reads: as many zero bits
    as [v] has bits below its highest, a one bit, and those lower bits. *)
Definition gamma_code (v : Z) : list bool :=
  let k := Z.to_nat (Z.log2 v) in
  replicate k false ++ true :: bits_of_value k v.

(** * The raw-table sketch *)

(** The first sketch of the same file parses the tables of the raw format
    from the head of the input and reads its bits least significant bit
    first.  Its functions carry the names of the sketch above; they are
    kept apart in a module. *)
Module Raw.

(** ** Machine integers *)

Definition u32 (x : Z) : Z := x mod 4294967296.

Definition UINT32_MAX : Z := 4294967295.

(** [(int32_t)] of a [uint32_t]. *)
Definition s32 (x : Z) : Z := if x <? 2147483648 then x else x - 4294967296.

(** ** The file-scope variables *)

Record tables := Tables {
  tables_bits : list Z;      (* static uint8_t  tables_bits[52] *)
  tables_base : list Z;      (* static uint32_t tables_base[52] *)
  lengths_bits : list Z;     (* [16] *)
  lengths_base : list Z;
  offsets3_bits : list Z;    (* [16] *)
  offsets3_base : list Z;
  offsets2_bits : list Z;    (* [16] *)
  offsets2_base : list Z;
  offsets1_bits : list Z;    (* [4] *)
  offsets1_base : list Z
}.

Record state := State {
  crunched_data : list Z;             (* crunched_data_ptr, crunched_data_len *)
  crunched_data_index : nat;
  source_in_progmem : bool;
  exod_cur_byte : Z;                  (* static uint8_t exod_cur_byte *)
  exod_bit_pos : nat;                 (* static uint8_t exod_bit_pos, 0..8 *)
  decompressed_data : list Z;         (* the array behind decompressed_data_ptr *)
  decompressed_buffer_size : nat;
  decompressed_data_index : nat;
  last_offset_val : Z;                (* static uint32_t last_offset_val *)
  tabs : tables
}.

Definition set_crunched_data_index (i : nat) (s : state) : state :=
  State (crunched_data s) i (source_in_progmem s) (exod_cur_byte s)
        (exod_bit_pos s) (decompressed_data s) (decompressed_buffer_size s)
        (decompressed_data_index s) (last_offset_val s) (tabs s).

Definition set_cur_byte (b : Z) (s : state) : state :=
  State (crunched_data s) (crunched_data_index s) (source_in_progmem s) b
        (exod_bit_pos s) (decompressed_data s) (decompressed_buffer_size s)
        (decompressed_data_index s) (last_offset_val s) (tabs s).

Definition set_bit_pos (p : nat) (s : state) : state :=
  State (crunched_data s) (crunched_data_index s) (source_in_progmem s)
        (exod_cur_byte s) p (decompressed_data s) (decompressed_buffer_size s)
        (decompressed_data_index s) (last_offset_val s) (tabs s).

Definition set_output (d : list Z) (i : nat) (s : state) : state :=
  State (crunched_data s) (crunched_data_index s) (source_in_progmem s)
        (exod_cur_byte s) (exod_bit_pos s) d (decompressed_buffer_size s) i
        (last_offset_val s) (tabs s).

Definition set_last_offset_val (o : Z) (s : state) : state :=
  State (crunched_data s) (crunched_data_index s) (source_in_progmem s)
        (exod_cur_byte s) (exod_bit_pos s) (decompressed_data s)
        (decompressed_buffer_size s) (decompressed_data_index s) o (tabs s).

Definition set_tabs (t : tables) (s : state) : state :=
  State (crunched_data s) (crunched_data_index s) (source_in_progmem s)
        (exod_cur_byte s) (exod_bit_pos s) (decompressed_data s)
        (decompressed_buffer_size s) (decompressed_data_index s)
        (last_offset_val s) t.

(** A read of one of the tables; the indices formed are within the
    arrays. *)
Definition at_index (l : list Z) (i : Z) : Z := default 0 (l !! Z.to_nat i).

(** ** Bit access, least significant bit first *)

(** [exod_read_byte]: [None] is the [false] result, and then the byte
    pointed to is left as it was.  [EXO_READ_BYTE] reads the same byte
    whether or not the source is in program memory. *)
Definition exod_read_byte (s : state) : option (Z * state) :=
  match crunched_data s !! crunched_data_index s with
  | Some x => Some (u8 x, set_crunched_data_index (S (crunched_data_index s)) s)
  | None => None
  end.

(** [get_one_bit]: the bit, or [-1] at the end of the input.  The position
    is below 8 when it is incremented, so it does not wrap. *)
Definition get_one_bit (s : state) : Z * state :=
  let refilled :=
    if (8 <=? exod_bit_pos s)%nat then
      match exod_read_byte s with
      | Some (b, s1) => Some (set_bit_pos 0 (set_cur_byte b s1))
      | None => None
      end
    else Some s in
  match refilled with
  | None => (-1, s)
  | Some s1 =>
      let bit :=
        Z.land (Z.shiftr (exod_cur_byte s1) (Z.of_nat (exod_bit_pos s1))) 1 in
      (bit, set_bit_pos (S (exod_bit_pos s1)) s1)
  end.

(** The [for] loop of [get_n_bits_u32]; [todo] iterations remain, [i] is
    the loop counter. *)
Fixpoint get_n_bits_u32_loop (todo : nat) (i : Z) (v : Z) (s : state)
  : option Z * state :=
  match todo with
  | O => (Some v, s)
  | S todo' =>
      let '(b, s1) := get_one_bit s in
      if b =? -1 then (None, s1)
      else get_n_bits_u32_loop todo' (i + 1)
             (Z.lor v (u32 (Z.shiftl b i))) s1
  end.

(** [get_n_bits_u32]: [Some v] is the result 0 with [*out = v]; [None] is
    the result -1, with [*out] left as it was. *)
Definition get_n_bits_u32 (n : Z) (s : state) : option Z * state :=
  if n =? 0 then (Some 0, s)
  else if 32 <? n then (None, s)
  else get_n_bits_u32_loop (Z.to_nat n) 0 0 s.

Definition get_n_bits_int (n : Z) (s : state) : Z * state :=
  match get_n_bits_u32 n s with
  | (None, s1) => (-1, s1)
  | (Some tmp, s1) => (s32 tmp, s1)
  end.

(** The [while (true)] loop of [get_gamma_coded_value_raw]: [Some None] is
    a return of the error sentinel, [Some (Some c)] the [break] with the
    count [c].  The loop makes 32 iterations at most, so the outer [None]
    does not arise from [gamma_raw_scan 32 0]. *)
Fixpoint gamma_raw_scan (fuel : nat) (unary_count : Z) (s : state)
  : option (option Z * state) :=
  match fuel with
  | O => None
  | S fuel' =>
      let '(b, s1) := get_one_bit s in
      if b =? -1 then Some (None, s1)
      else if b =? 1 then Some (Some unary_count, s1)
      else
        let unary_count := u32 (unary_count + 1) in
        if 31 <? unary_count then Some (None, s1)
        else gamma_raw_scan fuel' unary_count s1
  end.

(** [get_gamma_coded_value_raw], which the sketch defines and does not
    call. *)
Definition get_gamma_coded_value_raw (s : state) : Z * state :=
  match gamma_raw_scan 32 0 s with
  | None => (UINT32_MAX, s)
  | Some (None, s1) => (UINT32_MAX, s1)
  | Some (Some unary_count, s1) =>
      if unary_count =? 0 then (1, s1)
      else
        match get_n_bits_u32 (u8 unary_count) s1 with
        | (None, s2) => (UINT32_MAX, s2)
        | (Some payload, s2) =>
            (Z.lor (u32 (Z.shiftl 1 unary_count)) payload, s2)
        end
  end.

(** ** Table parsing *)

(** The loop of [generate_table_generic]; [todo] iterations remain. *)
Fixpoint generate_table_loop (todo : nat) (i : nat) (running_base : Z)
    (bits_out base_out : list Z) (s : state)
  : bool * list Z * list Z * state :=
  match todo with
  | O => (true, bits_out, base_out, s)
  | S todo' =>
      let '(v, s1) := get_n_bits_int 4 s in
      if v <? 0 then (false, bits_out, base_out, s1)
      else
        let b := u8 v in
        let bits_out := <[i := b]> bits_out in
        let base_out := <[i := running_base]> base_out in
        if 32 <=? b then (false, bits_out, base_out, s1)
        else
          let running_base :=
            if b =? 0 then u32 (running_base + 1)
            else u32 (running_base + Z.shiftl 1 b) in
          generate_table_loop todo' (S i) running_base bits_out base_out s1
  end.

(** [generate_table_generic], on the arrays [bits_out] and [base_out], which
    have [entries] elements at least at each call. *)
Definition generate_table_generic (bits_out base_out : list Z)
    (entries : nat) (s : state) : bool * list Z * list Z * state :=
  generate_table_loop entries 0 0 bits_out base_out s.

(** One of the loops that fill the combined tables:
    [dst[first + i] = src[index i]], [todo] times from [i] on; [index i] is
    [i] in three of the loops and [i % 16] in the loop for the lengths. *)
Fixpoint fill_entries (todo : nat) (i : nat) (first : nat) (index : Z -> Z)
    (src dst : list Z) : list Z :=
  match todo with
  | O => dst
  | S todo' =>
      fill_entries todo' (S i) first index src
        (<[(first + i)%nat := at_index src (index (Z.of_nat i))]> dst)
  end.

Definition parse_exomizer_raw_tables (s : state) : bool * state :=
  let t := tabs s in
  let '(ok, lb, lv, s) :=
    generate_table_generic (lengths_bits t) (lengths_base t) 16 s in
  let t := Tables (tables_bits t) (tables_base t) lb lv
                  (offsets3_bits t) (offsets3_base t)
                  (offsets2_bits t) (offsets2_base t)
                  (offsets1_bits t) (offsets1_base t) in
  if negb ok then (false, set_tabs t s) else
  let '(ok, b3, v3, s) :=
    generate_table_generic (offsets3_bits t) (offsets3_base t) 16 s in
  let t := Tables (tables_bits t) (tables_base t) lb lv b3 v3
                  (offsets2_bits t) (offsets2_base t)
                  (offsets1_bits t) (offsets1_base t) in
  if negb ok then (false, set_tabs t s) else
  let '(ok, b2, v2, s) :=
    generate_table_generic (offsets2_bits t) (offsets2_base t) 16 s in
  let t := Tables (tables_bits t) (tables_base t) lb lv b3 v3 b2 v2
                  (offsets1_bits t) (offsets1_base t) in
  if negb ok then (false, set_tabs t s) else
  let '(ok, b1, v1, s) :=
    generate_table_generic (offsets1_bits t) (offsets1_base t) 4 s in
  let t := Tables (tables_bits t) (tables_base t) lb lv b3 v3 b2 v2 b1 v1 in
  if negb ok then (false, set_tabs t s) else
  let tb := fill_entries 16 0 0 id b3 (tables_bits t) in
  let tv := fill_entries 16 0 0 id v3 (tables_base t) in
  let tb := fill_entries 16 0 16 id b2 tb in
  let tv := fill_entries 16 0 16 id v2 tv in
  let tb := fill_entries 16 0 32 (fun i => i mod 16) lb tb in
  let tv := fill_entries 16 0 32 (fun i => i mod 16) lv tv in
  let tb := fill_entries 4 0 48 id b1 tb in
  let tv := fill_entries 4 0 48 id v1 tv in
  (true, set_tabs (Tables tb tv lb lv b3 v3 b2 v2 b1 v1) s).

(** ** Main decompressor *)

(** The places where [exod_decrunch] stops. *)
Inductive exit :=
| ExitTableParse       (* !parse_exomizer_raw_tables(): return *)
| ExitBufferFull       (* the while condition is false *)
| BreakBitEOF          (* bit == -1: break *)
| BreakLiteralEOF      (* !exod_read_byte(&b): break *)
| BreakLiteralFull     (* the else of the literal store: break *)
| BreakUnary           (* unary_count == UINT32_MAX: break *)
| BreakEOS             (* unary_count == 16: break *)
| BreakRunLenEOF       (* hi < 0 || lo < 0: break *)
| BreakUnexpected      (* unary_count 18..31: break *)
| BreakLengthBitsEOF   (* the length bits cannot be read: break *)
| BreakOffsetBitsEOF   (* the offset bits cannot be read: break *)
| ReturnInvalidOffset. (* offset > decompressed_data_index: return *)

Inductive outcome :=
| Next (s : state)
| Stop (e : exit) (s : state)
| Fault.

(** [decompressed_data_ptr[decompressed_data_index++] = v]. *)
Definition store_output (v : Z) (s : state) : option state :=
  let i := decompressed_data_index s in
  if (i <? length (decompressed_data s))%nat
  then Some (set_output (<[i := v]> (decompressed_data s)) (S i) s)
  else None.

(** [decompressed_data_ptr[a]], for an index computed in the integers. *)
Definition load_output (a : Z) (s : state) : option Z :=
  if a <? 0 then None else decompressed_data s !! Z.to_nat a.

(** The loop that counts zero bits.  It makes 32 iterations at most, so
    [unary_scan 32] is never [None]. *)
Fixpoint unary_scan (fuel : nat) (unary_count : Z) (s : state)
  : option (Z * state) :=
  match fuel with
  | O => None
  | S fuel' =>
      let '(gb, s1) := get_one_bit s in
      if gb =? -1 then Some (UINT32_MAX, s1)
      else if gb =? 1 then Some (unary_count, s1)
      else
        let unary_count := u32 (unary_count + 1) in
        if 31 <? unary_count then Some (UINT32_MAX, s1)
        else unary_scan fuel' unary_count s1
  end.

(** The loop of the long literal block; it is followed by [continue]
    however it ends. *)
Fixpoint literal_block (todo : nat) (s : state) : outcome :=
  match todo with
  | O => Next s
  | S todo' =>
      match exod_read_byte s with
      | None => Next s
      | Some (b, s1) =>
          if (decompressed_data_index s1 <? decompressed_buffer_size s1)%nat
          then
            match store_output b s1 with
            | Some s2 => literal_block todo' s2
            | None => Fault
            end
          else Next s1
      end
  end.

(** The offset bits and the base of entry [tab_index] of a table. *)
Definition read_offset (bits base : list Z) (tab_index : Z) (s : state)
  : option Z * state :=
  let b := at_index bits tab_index in
  let '(r, s1) := if b =? 0 then (Some 0, s) else get_n_bits_u32 b s in
  match r with
  | None => (None, s1)
  | Some raw_offset => (Some (u32 (raw_offset + at_index base tab_index)), s1)
  end.

Definition copy_byte (offset : Z) (s : state) : option state :=
  match load_output (Z.of_nat (decompressed_data_index s) - offset) s with
  | Some v => store_output v s
  | None => None
  end.

Fixpoint copy_run (todo : nat) (offset : Z) (s : state) : outcome :=
  match todo with
  | O => Next s
  | S todo' =>
      if (decompressed_buffer_size s <=? decompressed_data_index s)%nat
      then Next s
      else
        match copy_byte offset s with
        | Some s1 => copy_run todo' offset s1
        | None => Fault
        end
  end.

(** The length of a sequence: the base of entry [len_idx] of the lengths
    table, plus its bits when it has any. *)
Definition read_length (len_idx : Z) (s : state) : option Z * state :=
  let t := tabs s in
  let seq_len := at_index (lengths_base t) len_idx in
  if at_index (lengths_bits t) len_idx =? 0 then (Some seq_len, s)
  else
    match get_n_bits_u32 (at_index (lengths_bits t) len_idx) s with
    | (None, s1) => (None, s1)
    | (Some v, s1) => (Some (u32 (seq_len + v)), s1)
    end.

(** The raw offset, from the table chosen by the length. *)
Definition select_offset (len_idx seq_len : Z) (s : state)
  : option Z * state :=
  let t := tabs s in
  if seq_len =? 1
  then read_offset (offsets1_bits t) (offsets1_base t) (len_idx mod 4) s
  else if seq_len =? 2
  then read_offset (offsets2_bits t) (offsets2_base t) (len_idx mod 16) s
  else read_offset (offsets3_bits t) (offsets3_base t) (len_idx mod 16) s.

(** The sequence path, from the length index on. *)
Definition copy_sequence (len_idx : Z) (s : state) : outcome :=
  match read_length len_idx s with
  | (None, s) => Stop BreakLengthBitsEOF s
  | (Some seq_len, s) =>
      match select_offset len_idx seq_len s with
      | (None, s) => Stop BreakOffsetBitsEOF s
      | (Some raw_offset, s) =>
          let '(offset, s) :=
            if raw_offset =? 0 then (last_offset_val s, s)
            else (raw_offset, set_last_offset_val raw_offset s) in
          if Z.of_nat (decompressed_data_index s) <? offset
          then Stop ReturnInvalidOffset s
          else copy_run (Z.to_nat seq_len) offset s
      end
  end.

(** The body of the [while] loop. *)
Definition decrunch_iteration (s : state) : outcome :=
  let '(bit, s) := get_one_bit s in
  if bit =? -1 then Stop BreakBitEOF s
  else if bit =? 1 then
    match exod_read_byte s with
    | None => Stop BreakLiteralEOF s
    | Some (b, s) =>
        if (decompressed_data_index s <? decompressed_buffer_size s)%nat
        then
          match store_output b s with
          | Some s => Next s
          | None => Fault
          end
        else Stop BreakLiteralFull s
    end
  else
    match unary_scan 32 0 s with
    | None => Stop BreakUnary s
    | Some (unary_count, s) =>
        if unary_count =? UINT32_MAX then Stop BreakUnary s
        else if 16 <=? unary_count then
          if unary_count =? 16 then Stop BreakEOS s
          else if unary_count =? 17 then
            let '(hi, s) := get_n_bits_int 8 s in
            let '(lo, s) := get_n_bits_int 8 s in
            if (hi <? 0) || (lo <? 0) then Stop BreakRunLenEOF s
            else
              let run_len := u16 (Z.lor (Z.shiftl hi 8) (Z.land lo 255)) in
              literal_block (Z.to_nat run_len) s
          else Stop BreakUnexpected s
        else copy_sequence (u8 unary_count) s
    end.

Inductive verdict :=
| Finished (e : exit) (s : state)
| Faulted
| OutOfFuel.

Fixpoint decrunch_loop (fuel : nat) (s : state) : verdict :=
  if (decompressed_data_index s <? decompressed_buffer_size s)%nat
  then
    match fuel with
    | O => OutOfFuel
    | S fuel' =>
        match decrunch_iteration s with
        | Next s' => decrunch_loop fuel' s'
        | Stop e s' => Finished e s'
        | Fault => Faulted
        end
    end
  else Finished ExitBufferFull s.

(** The assignments at the head of [exod_decrunch].  [g] holds the tables
    as the previous use of the sketch left them. *)
Definition exod_decrunch_reset (g : state) (in_data out_buffer : list Z)
    (out_max_len : nat) (is_progmem : bool) : state :=
  State in_data 0 is_progmem 0 8 out_buffer out_max_len 0 0 (tabs g).

(** Every round of the loop that goes on takes a bit of the input, so this
    fuel is never used up. *)
Definition exod_decrunch (g : state) (in_data out_buffer : list Z)
    (out_max_len : nat) (is_progmem : bool) : verdict :=
  match parse_exomizer_raw_tables
          (exod_decrunch_reset g in_data out_buffer out_max_len is_progmem)
  with
  | (false, s) => Finished ExitTableParse s
  | (true, s) => decrunch_loop (8 * length in_data + 1) s
  end.

(** The variables at program start. *)
Definition boot : state :=
  State [] 0 false 0 8 [] 0 0 0
        (Tables (replicate 52 0) (replicate 52 0)
                (replicate 16 0) (replicate 16 0)
                (replicate 16 0) (replicate 16 0)
                (replicate 16 0) (replicate 16 0)
                (replicate 4 0) (replicate 4 0)).

Definition demo_data : list Z :=
  [10; 72; 101; 108; 108; 111; 32; 87; 111; 114; 108; 100; 162].

(** An input whose header gives the first length entry one bit and every
    other entry none, and whose data is one sequence of length 1. *)
Definition stale_copy_demo : list Z := 1 :: replicate 25 0 ++ [6].

(** The variables when the sequence of [stale_copy_demo] has been
    recognised, in a call with an array of four bytes "A": the header is
    parsed, and the bit 0 and the length index 0 are read. *)
Definition before_stale_copy : state :=
  let s := snd (parse_exomizer_raw_tables
                  (exod_decrunch_reset boot stale_copy_demo
                                       (replicate 4 65) 4 false)) in
  let s := snd (get_one_bit s) in
  match unary_scan 32 0 s with
  | Some (_, s) => s
  | None => s
  end.

(** The variables when the header of an input with a zero header and the
    data byte 0x03 is parsed, in a call with an array of four zero
    bytes. *)
Definition before_literal : state :=
  snd (parse_exomizer_raw_tables
         (exod_decrunch_reset boot (replicate 26 0 ++ [3; 72])
                              (replicate 4 0) 4 false)).

(** ** The input as bits and bytes *)

(** The bits of the byte [b] from position [pos] up, lowest first. *)
Definition lsb_from (b : Z) (pos : nat) : list bool :=
  map (fun i => Z.testbit b (Z.of_nat i)) (seq pos (8 - pos)).

(** The bits [get_one_bit] has not delivered yet: what is left of the
    current byte, then the bytes not yet fetched. *)
Definition pending_bits (s : state) : list bool :=
  lsb_from (exod_cur_byte s) (exod_bit_pos s)
  ++ flat_map (fun x => lsb_from x 0)
              (drop (crunched_data_index s) (crunched_data s)).

(** The number a run of bits spells, first bit least significant. *)
Definition lsb_value (bs : list bool) : Z :=
  fold_right (fun b v => Z.b2z b + 2 * v) 0 bs.

Definition bits_left (s : state) : nat := length (pending_bits s).

(** [s'] differs from [s] in the reader only. *)
Definition reader_moved (s s' : state) : Prop :=
  crunched_data s' = crunched_data s
  /\ source_in_progmem s' = source_in_progmem s
  /\ decompressed_data s' = decompressed_data s
  /\ decompressed_buffer_size s' = decompressed_buffer_size s
  /\ decompressed_data_index s' = decompressed_data_index s
  /\ last_offset_val s' = last_offset_val s
  /\ tabs s' = tabs s.

(** [s'] is [s] after reading some of the input, nothing else changed. *)
Definition advanced (s s' : state) : Prop :=
  reader_moved s s' /\ (bits_left s' <= bits_left s)%nat.

(** The first [n] groups of four bits of a stream, as numbers. *)
Fixpoint nibbles (n : nat) (bs : list bool) : list Z :=
  match n with
  | O => []
  | S n' => lsb_value (take 4 bs) :: nibbles n' (drop 4 bs)
  end.

(** The bases of a table with the given bits: each is the sum of [1 << b]
    over the entries before it, from [start]. *)
Fixpoint running_bases (start : Z) (bits : list Z) : list Z :=
  match bits with
  | [] => []
  | b :: r => start :: running_bases (start + 2 ^ b) r
  end.

(** The tables a header spells: the bit counts of the lengths, of the
    offsets for longer sequences, of the offsets for sequences of 2 and of
    the offsets for sequences of 1, each with its bases, and the combined
    arrays. *)
Definition parsed_tables (bs : list bool) : tables :=
  let lb := nibbles 16 bs in
  let b3 := nibbles 16 (drop 64 bs) in
  let b2 := nibbles 16 (drop 128 bs) in
  let b1 := nibbles 4 (drop 192 bs) in
  let lv := running_bases 0 lb in
  let v3 := running_bases 0 b3 in
  let v2 := running_bases 0 b2 in
  let v1 := running_bases 0 b1 in
  Tables (b3 ++ b2 ++ lb ++ b1) (v3 ++ v2 ++ lv ++ v1)
         lb lv b3 v3 b2 v2 b1 v1.

(** [s'] differs from [s] in the reader and the tables only. *)
Definition tables_parsed (s s' : state) : Prop :=
  crunched_data s' = crunched_data s
  /\ source_in_progmem s' = source_in_progmem s
  /\ decompressed_data s' = decompressed_data s
  /\ decompressed_buffer_size s' = decompressed_buffer_size s
  /\ decompressed_data_index s' = decompressed_data_index s
  /\ last_offset_val s' = last_offset_val s.

(** The arrays of the tables have the sizes they are declared with. *)
Definition tables_ok (t : tables) : Prop :=
  length (tables_bits t) = 52%nat /\ length (tables_base t) = 52%nat
  /\ length (lengths_bits t) = 16%nat /\ length (lengths_base t) = 16%nat
  /\ length (offsets3_bits t) = 16%nat /\ length (offsets3_base t) = 16%nat
  /\ length (offsets2_bits t) = 16%nat /\ length (offsets2_base t) = 16%nat
  /\ length (offsets1_bits t) = 4%nat /\ length (offsets1_base t) = 4%nat.

(** The reader as every call leaves it: the bit position is from 1 to 8,
    and the read position is within the input. *)
Definition reader_ok (s : state) : Prop :=
  (1 <= exod_bit_pos s <= 8)%nat
  /\ (crunched_data_index s <= length (crunched_data s))%nat.

(** ** The output array *)

Definition state_ok (s : state) : Prop :=
  (decompressed_buffer_size s <= length (decompressed_data s))%nat
  /\ (decompressed_data_index s <= decompressed_buffer_size s)%nat
  /\ 0 <= last_offset_val s.

(** [s'] comes after [s] in a run: the tables, the capacity and the length
    of the array are the same, the write position did not go back, the
    array changed only between the two write positions, and no input came
    back. *)
Definition evolves (s s' : state) : Prop :=
  tabs s' = tabs s
  /\ decompressed_buffer_size s' = decompressed_buffer_size s
  /\ length (decompressed_data s') = length (decompressed_data s)
  /\ (decompressed_data_index s <= decompressed_data_index s')%nat
  /\ (forall i : nat,
        (i < decompressed_data_index s)%nat
        \/ (decompressed_data_index s' <= i)%nat ->
        decompressed_data s' !! i = decompressed_data s !! i)
  /\ (bits_left s' <= bits_left s)%nat.

Definition outcome_ok (s : state) (o : outcome) : Prop :=
  match o with
  | Next s' => evolves s s' /\ state_ok s'
  | Stop e s' =>
      evolves s s' /\ state_ok s'
      /\ e <> ExitBufferFull /\ e <> ExitTableParse /\ e <> BreakLiteralFull
  | Fault => False
  end.

End Raw.

(** * Properties of the parts *)

(** ** The bit reader on the stream *)

Lemma reader_moved_refl s : reader_moved s s.
Proof. repeat split. Qed.

Lemma reader_moved_trans s1 s2 s3 :
  reader_moved s1 s2 -> reader_moved s2 s3 -> reader_moved s1 s3.
Proof. unfold reader_moved. intuition congruence. Qed.

Lemma msb_bit (b : Z) :
  (if Z.land b 128 =? 0 then 0 else 1) = Z.b2z (Z.testbit b 7).
Proof.
  assert (H7 : Z.testbit (Z.land b 128) 7 = Z.testbit b 7).
  { rewrite Z.land_spec. change 128 with (2 ^ 7).
    rewrite Z.pow2_bits_true by lia. apply andb_true_r. }
  destruct (Z.eqb_spec (Z.land b 128) 0) as [E|E].
  - rewrite E, Z.bits_0 in H7. now rewrite <- H7.
  - destruct (Z.testbit b 7) eqn:T; [reflexivity|].
    exfalso. apply E. apply Z.bits_inj'. intros n Hn.
    rewrite Z.land_spec, Z.bits_0. change 128 with (2 ^ 7).
    destruct (Z.eq_dec n 7) as [->|Hne].
    + now rewrite T.
    + rewrite Z.pow2_bits_false by lia. apply andb_false_r.
Qed.

Lemma testbit_shifted (b j : Z) :
  j <= 7 -> Z.testbit (u8 (Z.shiftl b 1)) j = Z.testbit b (j - 1).
Proof.
  intros Hj. destruct (Z.ltb_spec j 0) as [Hneg|Hpos].
  - now rewrite !Z.testbit_neg_r by lia.
  - unfold u8. change 256 with (2 ^ 8).
    rewrite Z.mod_pow2_bits_low by lia.
    now rewrite Z.shiftl_spec by lia.
Qed.

Lemma msb_first_S (b : Z) (n : nat) :
  msb_first b (S n) = Z.testbit b 7 :: msb_first (u8 (Z.shiftl b 1)) n.
Proof.
  unfold msb_first. rewrite <- cons_seq, <- seq_shift. cbn [map].
  f_equal. rewrite map_map. apply map_ext. intros i.
  rewrite testbit_shifted by lia. f_equal. lia.
Qed.

Lemma msb_first_u8 (x : Z) (n : nat) : msb_first (u8 x) n = msb_first x n.
Proof.
  unfold msb_first. apply map_ext. intros i.
  destruct (Z.ltb_spec (7 - Z.of_nat i) 0).
  - now rewrite !Z.testbit_neg_r by lia.
  - unfold u8. change 256 with (2 ^ 8). apply Z.mod_pow2_bits_low. lia.
Qed.

(** What [get_one_bit] does, read on the stream of pending bits. *)
Lemma get_one_bit_stream (s : state) :
  fst (get_one_bit s)
  = match pending_bits s with [] => -1 | b :: _ => Z.b2z b end
  /\ pending_bits (snd (get_one_bit s)) = tail (pending_bits s)
  /\ reader_moved s (snd (get_one_bit s)).
Proof.
  unfold get_one_bit, pending_bits, exod_read_byte_from_stream.
  destruct s as [b c d i o sz oi lo t sl]. cbn [exod_zp_bit_count
    exod_zp_bitbuf crunched_data crunched_data_index].
  destruct c as [|c].
  - destruct (d !! i) as [x|] eqn:L.
    + rewrite (drop_S _ _ _ L). cbn [flat_map set_bitbuf
        set_crunched_data_index exod_zp_bitbuf exod_zp_bit_count
        crunched_data crunched_data_index fst snd Nat.pred].
      change (msb_first b 0) with (@nil bool). cbn [app].
      rewrite <- (msb_first_u8 x 8), (msb_first_S (u8 x) 7).
      cbn [app tail]. rewrite msb_bit. repeat split.
    + apply lookup_ge_None_1 in L.
      cbn [fst snd exod_zp_bitbuf exod_zp_bit_count crunched_data
           crunched_data_index].
      rewrite (drop_ge _ _ L). repeat split.
  - rewrite msb_first_S. cbn [app tail fst snd set_bitbuf exod_zp_bitbuf
      exod_zp_bit_count crunched_data crunched_data_index Nat.pred].
    rewrite msb_bit. repeat split.
Qed.

Lemma get_one_bit_nil (s : state) :
  pending_bits s = [] -> get_one_bit s = (-1, snd (get_one_bit s))
  /\ pending_bits (snd (get_one_bit s)) = [].
Proof.
  intros E. destruct (get_one_bit_stream s) as (H1 & H2 & _).
  rewrite E in H1, H2. split; [|exact H2].
  rewrite <- H1. apply surjective_pairing.
Qed.

Lemma get_one_bit_cons (s : state) (b : bool) (r : list bool) :
  pending_bits s = b :: r ->
  get_one_bit s = (Z.b2z b, snd (get_one_bit s))
  /\ pending_bits (snd (get_one_bit s)) = r.
Proof.
  intros E. destruct (get_one_bit_stream s) as (H1 & H2 & _).
  rewrite E in H1, H2. split; [|exact H2].
  rewrite <- H1. apply surjective_pairing.
Qed.

Lemma b2z_not_eos (b : bool) : (Z.b2z b =? -1) = false.
Proof. now destruct b. Qed.

Lemma lor_shift_bit (v : Z) (b : bool) :
  0 <= v -> Z.lor (Z.shiftl v 1) (Z.b2z b) = 2 * v + Z.b2z b.
Proof.
  intros Hv. destruct v as [|p|p]; [now destruct b| |lia].
  destruct b; reflexivity.
Qed.

Lemma fold_bits_acc (bs : list bool) (v : Z) :
  fold_left (fun v b => 2 * v + Z.b2z b) bs v
  = v * 2 ^ Z.of_nat (length bs) + bits_value bs.
Proof.
  unfold bits_value. revert v.
  induction bs as [|b bs IH]; intros v; cbn [fold_left length].
  - change (2 ^ Z.of_nat 0) with 1. lia.
  - rewrite IH, (IH (2 * 0 + Z.b2z b)).
    rewrite Nat2Z.inj_succ, Z.pow_succ_r by lia. ring.
Qed.

Lemma bits_value_range (bs : list bool) :
  0 <= bits_value bs < 2 ^ Z.of_nat (length bs).
Proof.
  induction bs as [|b bs IH] using rev_ind.
  - cbn. lia.
  - unfold bits_value in *. rewrite fold_left_app. cbn [fold_left].
    rewrite length_app. cbn [length].
    replace (Z.of_nat (length bs + 1)) with (Z.succ (Z.of_nat (length bs)))
      by lia.
    rewrite Z.pow_succ_r by lia. destruct b; cbn [Z.b2z]; lia.
Qed.

Lemma bits_value_snoc (bs : list bool) (b : bool) :
  bits_value (bs ++ [b]) = 2 * bits_value bs + Z.b2z b.
Proof. unfold bits_value. now rewrite fold_left_app. Qed.

(** The loop of [get_n_bits] when the stream holds enough bits. *)
Lemma get_n_bits_loop_stream (todo : nat) (value : Z) (s : state) :
  (todo <= length (pending_bits s))%nat ->
  0 <= value -> (value + 1) * 2 ^ Z.of_nat todo <= 65536 ->
  fst (get_n_bits_loop todo value s)
  = value * 2 ^ Z.of_nat todo + bits_value (take todo (pending_bits s))
  /\ pending_bits (snd (get_n_bits_loop todo value s))
     = drop todo (pending_bits s)
  /\ reader_moved s (snd (get_n_bits_loop todo value s)).
Proof.
  revert value s. induction todo as [|todo IH]; intros value s Hlen Hv Hb.
  - cbn [get_n_bits_loop fst snd]. rewrite drop_0, take_0.
    split; [|split]; [|reflexivity|apply reader_moved_refl].
    unfold bits_value. cbn [fold_left]. change (2 ^ Z.of_nat 0) with 1. lia.
  - destruct (pending_bits s) as [|b r] eqn:E; [cbn in Hlen; lia|].
    destruct (get_one_bit_cons s b r E) as [G1 G2].
    destruct (get_one_bit_stream s) as (_ & _ & G3).
    cbn [get_n_bits_loop]. rewrite G1, b2z_not_eos.
    rewrite Nat2Z.inj_succ, Z.pow_succ_r in Hb by lia.
    assert (Hp : 0 < 2 ^ Z.of_nat todo) by (apply Z.pow_pos_nonneg; lia).
    assert (Hw : u16 (Z.lor (Z.shiftl value 1) (Z.b2z b))
                 = 2 * value + Z.b2z b).
    { rewrite lor_shift_bit by lia. unfold u16. apply Z.mod_small.
      destruct b; cbn [Z.b2z]; nia. }
    rewrite Hw. cbn [length] in Hlen.
    destruct (IH (2 * value + Z.b2z b) (snd (get_one_bit s)))
      as (I1 & I2 & I3).
    + rewrite G2. lia.
    + destruct b; cbn [Z.b2z]; lia.
    + destruct b; cbn [Z.b2z]; nia.
    + rewrite I1, I2, G2. cbn [firstn skipn]. split; [|split].
      * unfold bits_value at 2. cbn [fold_left].
        rewrite fold_bits_acc, length_take.
        rewrite Nat2Z.inj_succ, Z.pow_succ_r by lia.
        replace (length r) with (todo + (length r - todo))%nat at 1 by lia.
        rewrite Nat.min_l by lia. ring.
      * reflexivity.
      * eapply reader_moved_trans; eassumption.
Qed.

(** The loop of [get_n_bits] when the stream ends first: every pending bit
    is taken and the result is [-1]. *)
Lemma get_n_bits_loop_short (todo : nat) (value : Z) (s : state) :
  (length (pending_bits s) < todo)%nat ->
  fst (get_n_bits_loop todo value s) = -1
  /\ pending_bits (snd (get_n_bits_loop todo value s)) = []
  /\ reader_moved s (snd (get_n_bits_loop todo value s)).
Proof.
  revert value s. induction todo as [|todo IH]; intros value s Hlen; [lia|].
  destruct (get_one_bit_stream s) as (_ & _ & G3).
  cbn [get_n_bits_loop]. destruct (pending_bits s) as [|b r] eqn:E.
  - destruct (get_one_bit_nil s E) as [G1 G2]. rewrite G1. cbn.
    repeat split; assumption || apply G3.
  - destruct (get_one_bit_cons s b r E) as [G1 G2].
    rewrite G1, b2z_not_eos. cbn [length] in Hlen.
    destruct (IH (u16 (Z.lor (Z.shiftl value 1) (Z.b2z b)))
                 (snd (get_one_bit s))) as (I1 & I2 & I3).
    + rewrite G2. lia.
    + split; [exact I1|split; [exact I2|]].
      eapply reader_moved_trans; eassumption.
Qed.

Lemma get_n_bits_loop_moved (todo : nat) (value : Z) (s : state) :
  reader_moved s (snd (get_n_bits_loop todo value s)).
Proof.
  destruct (Nat.le_gt_cases todo (length (pending_bits s))) as [H|H].
  - revert value s H. induction todo as [|todo IH]; intros value s H.
    + apply reader_moved_refl.
    + destruct (pending_bits s) as [|b r] eqn:E; [cbn in H; lia|].
      destruct (get_one_bit_cons s b r E) as [G1 G2].
      destruct (get_one_bit_stream s) as (_ & _ & G3).
      cbn [get_n_bits_loop]. rewrite G1, b2z_not_eos.
      eapply reader_moved_trans; [exact G3|]. apply IH.
      rewrite G2. cbn [length] in H. lia.
  - now apply get_n_bits_loop_short.
Qed.

Lemma get_n_bits_moved (n : Z) (s : state) :
  reader_moved s (snd (get_n_bits n s)).
Proof.
  unfold get_n_bits. destruct (n =? 0); [apply reader_moved_refl|].
  destruct (16 <? n); [apply reader_moved_refl|].
  apply get_n_bits_loop_moved.
Qed.

(** [get_n_bits n] for [1 <= n <= 16] on a stream that holds [n] bits. *)
Lemma get_n_bits_stream (n : nat) (s : state) :
  (1 <= n <= 16)%nat -> (n <= length (pending_bits s))%nat ->
  fst (get_n_bits (Z.of_nat n) s) = bits_value (take n (pending_bits s))
  /\ pending_bits (snd (get_n_bits (Z.of_nat n) s))
     = drop n (pending_bits s).
Proof.
  intros Hn Hlen. unfold get_n_bits.
  destruct (Z.eqb_spec (Z.of_nat n) 0); [lia|].
  destruct (Z.ltb_spec 16 (Z.of_nat n)); [lia|].
  rewrite Nat2Z.id.
  destruct (get_n_bits_loop_stream n 0 s Hlen) as (H1 & H2 & _); [lia| |].
  - assert (2 ^ Z.of_nat n <= 2 ^ 16) by (apply Z.pow_le_mono_r; lia). lia.
  - split; [rewrite H1; lia|exact H2].
Qed.

(** [get_n_bits n] for [1 <= n <= 16] on a stream that ends too early. *)
Lemma get_n_bits_short (n : nat) (s : state) :
  (1 <= n <= 16)%nat -> (length (pending_bits s) < n)%nat ->
  fst (get_n_bits (Z.of_nat n) s) = -1
  /\ pending_bits (snd (get_n_bits (Z.of_nat n) s)) = [].
Proof.
  intros Hn Hlen. unfold get_n_bits.
  destruct (Z.eqb_spec (Z.of_nat n) 0); [lia|].
  destruct (Z.ltb_spec 16 (Z.of_nat n)); [lia|].
  rewrite Nat2Z.id.
  destruct (get_n_bits_loop_short n 0 s Hlen) as (H1 & H2 & _). now split.
Qed.

(** ** The unary scan of the gamma decoder *)

Lemma unary_scan_found (k fuel : nat) (c : Z) (s : state) (r : list bool) :
  pending_bits s = replicate k false ++ true :: r ->
  0 <= c -> c + Z.of_nat k <= 16 -> (k < fuel)%nat ->
  exists s', unary_scan fuel c s = Some (UnaryFound (c + Z.of_nat k), s')
             /\ pending_bits s' = r /\ reader_moved s s'.
Proof.
  revert fuel c s.
  induction k as [|k IH]; intros fuel c s E Hc Hk Hf;
    (destruct fuel as [|fuel]; [lia|]);
    cbn [replicate app] in E;
    destruct (get_one_bit_cons s _ _ E) as [G1 G2];
    destruct (get_one_bit_stream s) as (_ & _ & G3);
    cbn [unary_scan]; rewrite G1; cbn [Z.b2z Z.eqb Pos.eqb Z.of_nat].
  - exists (snd (get_one_bit s)). rewrite Z.add_0_r. split; [reflexivity|split; assumption].
  - assert (Hu : u8 (c + 1) = c + 1) by (unfold u8; apply Z.mod_small; lia).
    rewrite Hu. destruct (Z.ltb_spec 16 (c + 1)); [lia|].
    destruct (IH fuel (c + 1) (snd (get_one_bit s)) G2) as (s' & U & P & M);
      [lia|lia|lia|].
    exists s'. rewrite U.
    replace (c + 1 + Z.of_nat k) with (c + Z.of_nat (S k)) by lia.
    split; [reflexivity|split; [exact P|]]. eapply reader_moved_trans; eassumption.
Qed.

Lemma unary_scan_eos (k fuel : nat) (c : Z) (s : state) :
  pending_bits s = replicate k false ->
  0 <= c -> c + Z.of_nat k <= 16 -> (k < fuel)%nat ->
  exists s', unary_scan fuel c s = Some (UnaryEOS, s')
             /\ pending_bits s' = [] /\ reader_moved s s'.
Proof.
  revert fuel c s.
  induction k as [|k IH]; intros fuel c s E Hc Hk Hf;
    (destruct fuel as [|fuel]; [lia|]);
    cbn [replicate app] in E;
    destruct (get_one_bit_stream s) as (_ & _ & G3);
    cbn [unary_scan].
  - destruct (get_one_bit_nil s E) as [G1 G2]. rewrite G1. cbn [Z.eqb].
    exists (snd (get_one_bit s)). split; [reflexivity|split; assumption].
  - destruct (get_one_bit_cons s _ _ E) as [G1 G2].
    rewrite G1; cbn [Z.b2z Z.eqb Pos.eqb Z.of_nat].
    assert (Hu : u8 (c + 1) = c + 1) by (unfold u8; apply Z.mod_small; lia).
    rewrite Hu. destruct (Z.ltb_spec 16 (c + 1)); [lia|].
    destruct (IH fuel (c + 1) (snd (get_one_bit s)) G2) as (s' & U & P & M);
      [lia|lia|lia|].
    exists s'. rewrite U.
    split; [reflexivity|split; [exact P|]]. eapply reader_moved_trans; eassumption.
Qed.

Lemma unary_scan_overflow (k fuel : nat) (c : Z) (s : state) (r : list bool) :
  pending_bits s = replicate (S k) false ++ r ->
  0 <= c -> c + Z.of_nat (S k) = 17 -> (k < fuel)%nat ->
  exists s', unary_scan fuel c s = Some (UnaryOverflow, s')
             /\ pending_bits s' = r /\ reader_moved s s'.
Proof.
  revert fuel c s.
  induction k as [|k IH]; intros fuel c s E Hc Hk Hf;
    (destruct fuel as [|fuel]; [lia|]);
    cbn [replicate app] in E;
    destruct (get_one_bit_cons s _ _ E) as [G1 G2];
    destruct (get_one_bit_stream s) as (_ & _ & G3);
    cbn [unary_scan]; rewrite G1; cbn [Z.b2z Z.eqb Pos.eqb Z.of_nat];
    assert (Hu : u8 (c + 1) = c + 1) by (unfold u8; apply Z.mod_small; lia);
    rewrite Hu; destruct (Z.ltb_spec 16 (c + 1)); try lia.
  - exists (snd (get_one_bit s)). split; [reflexivity|split; assumption].
  - destruct (IH fuel (c + 1) (snd (get_one_bit s)) G2) as (s' & U & P & M);
      [lia|lia|lia|].
    exists s'. rewrite U.
    split; [reflexivity|split; [exact P|]]. eapply reader_moved_trans; eassumption.
Qed.

(** The scan never needs more than seventeen rounds. *)
Lemma unary_scan_total (fuel : nat) (c : Z) (s : state) :
  0 <= c <= 16 -> (Z.to_nat (17 - c) <= fuel)%nat ->
  unary_scan fuel c s <> None.
Proof.
  revert c s. induction fuel as [|fuel IH]; intros c s Hc Hf; [lia|].
  cbn [unary_scan]. destruct (get_one_bit s) as [bit s1].
  destruct (bit =? -1); [discriminate|].
  destruct (bit =? 1); [discriminate|].
  assert (Hu : u8 (c + 1) = c + 1) by (unfold u8; apply Z.mod_small; lia).
  rewrite Hu. destruct (Z.ltb_spec 16 (c + 1)); [discriminate|].
  apply IH; lia.
Qed.

(** The call in [get_gamma_coded_value] always has a result. *)
Lemma unary_scan_17_defined (s : state) : unary_scan 17 0 s <> None.
Proof. apply unary_scan_total; [lia|]. now rewrite Z2Nat.inj_sub. Qed.

(** ** The gamma decoder on the stream *)

Lemma lor_pow2_small (k v : Z) :
  0 <= k -> 0 <= v < 2 ^ k -> Z.lor (Z.shiftl 1 k) v = 2 ^ k + v.
Proof.
  intros Hk Hv. rewrite Z.shiftl_1_l.
  assert (L : Z.land (2 ^ k) v = 0).
  { apply Z.bits_inj'. intros n Hn. rewrite Z.land_spec, Z.bits_0.
    destruct (Z.eq_dec k n) as [<-|Hne].
    - rewrite <- (Z.mod_small v (2 ^ k)) by lia.
      rewrite Z.mod_pow2_bits_high by lia. apply andb_false_r.
    - now rewrite Z.pow2_bits_false by lia. }
  rewrite <- Z.lxor_lor by exact L. symmetry. now apply Z.add_nocarry_lxor.
Qed.

Lemma take_app_exact {A} (l r : list A) (n : nat) :
  length l = n -> take n (l ++ r) = l /\ drop n (l ++ r) = r.
Proof.
  intros <-. split; [apply take_app_length|apply drop_app_length].
Qed.

(** The code the decoder is written for, as long as the value fits its
    16-bit result: [k] zero bits, a one, then [k] payload bits. *)
Lemma get_gamma_coded_value_stream
    (k : nat) (payload r : list bool) (s : state) :
  pending_bits s = replicate k false ++ true :: payload ++ r ->
  length payload = k -> (k <= 15)%nat ->
  exists s',
    get_gamma_coded_value s
    = (Z.lor (Z.shiftl 1 (Z.of_nat k)) (bits_value payload), s')
    /\ pending_bits s' = r /\ reader_moved s s'.
Proof.
  intros E Hl Hk. unfold get_gamma_coded_value.
  destruct (unary_scan_found k 17 0 s _ E) as (s1 & U & P & M); [lia..|].
  rewrite Z.add_0_l in U. rewrite U.
  destruct k as [|k].
  - destruct payload; [|discriminate]. exists s1. cbn. auto.
  - destruct (Z.eqb_spec (Z.of_nat (S k)) 0); [lia|].
    destruct (get_n_bits_stream (S k) s1) as [V R]; [lia|..].
    { rewrite P, length_app. lia. }
    rewrite P in V, R.
    destruct (take_app_exact payload r (S k) Hl) as [T D].
    rewrite T in V. rewrite D in R.
    rewrite (surjective_pairing (get_n_bits (Z.of_nat (S k)) s1)), V.
    pose proof (bits_value_range payload) as B. rewrite Hl in B.
    assert (P15 : 2 ^ Z.of_nat (S k) <= 2 ^ 15)
      by (apply Z.pow_le_mono_r; lia).
    assert (Hu : u16 (bits_value payload) = bits_value payload)
      by (unfold u16; apply Z.mod_small; lia).
    rewrite Hu. change (u16 (-1)) with 65535.
    destruct (Z.eqb_spec (bits_value payload) 65535); [lia|].
    rewrite lor_pow2_small by lia.
    exists (snd (get_n_bits (Z.of_nat (S k)) s1)).
    split; [|split; [exact R|]].
    + f_equal. unfold u16. apply Z.mod_small. lia.
    + eapply reader_moved_trans; [exact M|apply get_n_bits_moved].
Qed.

(** With sixteen zero bits the value no longer fits: the leading one is lost
    in the 16-bit result, and a payload of sixteen ones is taken for the
    failure of [get_n_bits]. *)
Lemma get_gamma_coded_value_16 (payload r : list bool) (s : state) :
  pending_bits s = replicate 16 false ++ true :: payload ++ r ->
  length payload = 16%nat ->
  exists s',
    get_gamma_coded_value s
    = (if bits_value payload =? 65535 then 0 else bits_value payload, s')
    /\ pending_bits s' = r /\ reader_moved s s'.
Proof.
  intros E Hl. unfold get_gamma_coded_value.
  destruct (unary_scan_found 16 17 0 s _ E) as (s1 & U & P & M); [lia..|].
  rewrite Z.add_0_l in U. rewrite U.
  change (Z.of_nat 16 =? 0) with false. cbn iota.
  destruct (get_n_bits_stream 16 s1) as [V R]; [lia|..].
  { rewrite P, length_app. lia. }
  rewrite P in V, R.
  destruct (take_app_exact payload r 16 Hl) as [T D].
  rewrite T in V. rewrite D in R.
  rewrite (surjective_pairing (get_n_bits (Z.of_nat 16) s1)), V.
  pose proof (bits_value_range payload) as B. rewrite Hl in B.
  change (2 ^ Z.of_nat 16) with 65536 in B.
  assert (Hu : u16 (bits_value payload) = bits_value payload)
    by (unfold u16; apply Z.mod_small; lia).
  rewrite Hu. change (u16 (-1)) with 65535.
  exists (snd (get_n_bits (Z.of_nat 16) s1)).
  split; [|split; [exact R|]].
  - destruct (bits_value payload =? 65535); [reflexivity|].
    f_equal. rewrite lor_pow2_small by (change (2 ^ 16) with 65536; lia).
    change (2 ^ 16) with 65536. unfold u16.
    rewrite <- (Z.mod_small (bits_value payload) 65536) at 2 by lia.
    rewrite <- Z.add_mod_idemp_l by lia. reflexivity.
  - eapply reader_moved_trans; [exact M|apply get_n_bits_moved].
Qed.

(** Seventeen zero bits: the safety test fires and the result is 0. *)
Lemma get_gamma_coded_value_overflow (r : list bool) (s : state) :
  pending_bits s = replicate 17 false ++ r ->
  exists s', get_gamma_coded_value s = (0, s')
             /\ pending_bits s' = r /\ reader_moved s s'.
Proof.
  intros E. unfold get_gamma_coded_value.
  destruct (unary_scan_overflow 16 17 0 s r E) as (s1 & U & P & M); [lia..|].
  rewrite U. exists s1. auto.
Qed.

(** The input ends inside the unary part: the result is 0 as well. *)
Lemma get_gamma_coded_value_eos_unary (k : nat) (s : state) :
  pending_bits s = replicate k false -> (k <= 16)%nat ->
  exists s', get_gamma_coded_value s = (0, s')
             /\ pending_bits s' = [] /\ reader_moved s s'.
Proof.
  intros E Hk. unfold get_gamma_coded_value.
  destruct (unary_scan_eos k 17 0 s E) as (s1 & U & P & M); [lia..|].
  rewrite U. exists s1. auto.
Qed.

(** The input ends inside the payload: the result is 0 as well. *)
Lemma get_gamma_coded_value_eos_payload
    (k : nat) (payload : list bool) (s : state) :
  pending_bits s = replicate k false ++ true :: payload ->
  (length payload < k <= 16)%nat ->
  exists s', get_gamma_coded_value s = (0, s')
             /\ pending_bits s' = [] /\ reader_moved s s'.
Proof.
  intros E Hk. unfold get_gamma_coded_value.
  destruct (unary_scan_found k 17 0 s _ E) as (s1 & U & P & M); [lia..|].
  rewrite Z.add_0_l in U. rewrite U.
  destruct (Z.eqb_spec (Z.of_nat k) 0); [lia|].
  destruct (get_n_bits_short k s1) as [V R]; [lia|rewrite P; lia|].
  rewrite (surjective_pairing (get_n_bits (Z.of_nat k) s1)), V.
  change (u16 (-1)) with 65535. cbn [Z.eqb Pos.eqb].
  exists (snd (get_n_bits (Z.of_nat k) s1)).
  split; [reflexivity|split; [exact R|]].
  eapply reader_moved_trans; [exact M|apply get_n_bits_moved].
Qed.

(** ** The command decoder on the stream *)

Lemma get_one_bit_ex (s : state) :
  match pending_bits s with
  | [] => exists s', get_one_bit s = (-1, s') /\ pending_bits s' = []
                     /\ reader_moved s s'
  | b :: r => exists s', get_one_bit s = (Z.b2z b, s') /\ pending_bits s' = r
                         /\ reader_moved s s'
  end.
Proof.
  destruct (get_one_bit_stream s) as (_ & _ & M).
  destruct (pending_bits s) as [|b r] eqn:E.
  - destruct (get_one_bit_nil s E). eauto.
  - destruct (get_one_bit_cons s b r E). eauto.
Qed.

Lemma get_n_bits_ex (n : nat) (s : state) :
  (1 <= n <= 16)%nat ->
  exists s', reader_moved s s' /\
    if (n <=? length (pending_bits s))%nat
    then get_n_bits (Z.of_nat n) s
         = (bits_value (take n (pending_bits s)), s')
         /\ pending_bits s' = drop n (pending_bits s)
    else get_n_bits (Z.of_nat n) s = (-1, s') /\ pending_bits s' = [].
Proof.
  intros Hn. exists (snd (get_n_bits (Z.of_nat n) s)).
  split; [apply get_n_bits_moved|].
  destruct (Nat.leb_spec n (length (pending_bits s))) as [H|H].
  - destruct (get_n_bits_stream n s Hn H) as [V R].
    split; [|exact R]. rewrite <- V. apply surjective_pairing.
  - destruct (get_n_bits_short n s Hn H) as [V R].
    split; [|exact R]. rewrite <- V. apply surjective_pairing.
Qed.

Lemma bits_value_not_eos (bs : list bool) : (bits_value bs =? -1) = false.
Proof. pose proof (bits_value_range bs). apply Z.eqb_neq. lia. Qed.

Lemma table_at_moved (i : Z) (s s' : state) :
  reader_moved s s' -> table_at i s' = table_at i s.
Proof. intros (_ & _ & _ & _ & _ & T & _). unfold table_at. now rewrite T. Qed.

(** A leaf of the tree: [get_n_bits n] and the table read at [base + i]. *)
Lemma command_leaf (base : Z) (n : nat) (s0 s : state) :
  (1 <= n <= 16)%nat -> reader_moved s0 s ->
  let res :=
    (let '(sub_idx, s1) := get_n_bits (Z.of_nat n) s in
     if sub_idx =? -1 then (COMMAND_EOS_MARKER, s1)
     else (table_at (base + sub_idx) s1, s1)) in
  reader_moved s0 (snd res) /\
  match spec_leaf base n (pending_bits s) with
  | Some (i, r) => fst res = table_at i s0 /\ pending_bits (snd res) = r
  | None => fst res = COMMAND_EOS_MARKER
  end.
Proof.
  intros Hn M0. destruct (get_n_bits_ex n s Hn) as (s1 & M & H).
  unfold spec_leaf. destruct (n <=? length (pending_bits s))%nat;
    destruct H as [-> R]; cbn zeta iota beta.
  - rewrite bits_value_not_eos. cbn [fst snd].
    pose proof (reader_moved_trans _ _ _ M0 M) as M1.
    split; [exact M1|]. split; [now apply table_at_moved|exact R].
  - cbn [Z.eqb Pos.eqb fst snd].
    split; [eapply reader_moved_trans; eassumption|reflexivity].
Qed.

Ltac next_bit s :=
  let H := fresh "H" in
  let s' := fresh "s" in
  let P := fresh "P" in
  let M := fresh "M" in
  pose proof (get_one_bit_ex s) as H;
  destruct (pending_bits s) as [|[|] ?];
  destruct H as (s' & -> & P & M);
  cbn [Z.b2z Z.eqb Pos.eqb]; cbn beta iota zeta; try subst.


(** ** Consumption of the input *)

Lemma advanced_refl s : advanced s s.
Proof. split; [apply reader_moved_refl|lia]. Qed.

Lemma advanced_trans s1 s2 s3 :
  advanced s1 s2 -> advanced s2 s3 -> advanced s1 s3.
Proof.
  intros [M1 L1] [M2 L2]. split; [eapply reader_moved_trans; eassumption|lia].
Qed.

Lemma get_one_bit_advanced (s : state) : advanced s (snd (get_one_bit s)).
Proof.
  destruct (get_one_bit_stream s) as (_ & T & M). split; [exact M|].
  unfold bits_left. rewrite T. destruct (pending_bits s); cbn; lia.
Qed.

(** A bit that was delivered was taken from the stream. *)
Lemma get_one_bit_strict (s : state) :
  fst (get_one_bit s) <> -1 ->
  (bits_left (snd (get_one_bit s)) < bits_left s)%nat.
Proof.
  destruct (get_one_bit_stream s) as (V & T & _). intros H.
  unfold bits_left. rewrite T. destruct (pending_bits s); [congruence|].
  cbn. lia.
Qed.

Lemma get_n_bits_loop_advanced (todo : nat) (value : Z) (s : state) :
  advanced s (snd (get_n_bits_loop todo value s)).
Proof.
  revert value s. induction todo as [|todo IH]; intros value s.
  - apply advanced_refl.
  - cbn [get_n_bits_loop]. pose proof (get_one_bit_advanced s) as A.
    destruct (get_one_bit s) as [bit s1]. cbn [snd] in A.
    destruct (bit =? -1); [exact A|].
    eapply advanced_trans; [exact A|apply IH].
Qed.

Lemma get_n_bits_advanced (n : Z) (s : state) :
  advanced s (snd (get_n_bits n s)).
Proof.
  unfold get_n_bits. destruct (n =? 0); [apply advanced_refl|].
  destruct (16 <? n); [apply advanced_refl|].
  apply get_n_bits_loop_advanced.
Qed.

Lemma unary_scan_advanced (fuel : nat) (c : Z) (s : state) e s' :
  unary_scan fuel c s = Some (e, s') -> advanced s s'.
Proof.
  revert c s. induction fuel as [|fuel IH]; intros c s; [discriminate|].
  cbn [unary_scan]. pose proof (get_one_bit_advanced s) as A.
  destruct (get_one_bit s) as [bit s1]. cbn [snd] in A.
  destruct (bit =? -1); [intros [= <- <-]; exact A|].
  destruct (bit =? 1); [intros [= <- <-]; exact A|].
  destruct (16 <? u8 (c + 1)); [intros [= <- <-]; exact A|].
  intros H. eapply advanced_trans; [exact A|eapply IH; exact H].
Qed.

Lemma get_gamma_coded_value_advanced (s : state) :
  advanced s (snd (get_gamma_coded_value s)).
Proof.
  unfold get_gamma_coded_value.
  destruct (unary_scan 17 0 s) as [[e s1]|] eqn:U; [|apply advanced_refl].
  apply unary_scan_advanced in U.
  destruct e as [| |c]; try exact U.
  destruct (c =? 0); [exact U|].
  pose proof (get_n_bits_advanced c s1) as A.
  destruct (get_n_bits c s1) as [r s2]. cbn [snd] in A.
  destruct (u16 r =? u16 (-1)); cbn [snd];
    eapply advanced_trans; eassumption.
Qed.

Lemma get_coded_command_val_advanced (s : state) :
  advanced s (snd (get_coded_command_val s)).
Proof.
  unfold get_coded_command_val.
  repeat match goal with
  | |- context [get_one_bit ?x] =>
      let A := fresh "A" in
      pose proof (get_one_bit_advanced x) as A;
      destruct (get_one_bit x) as [? ?]; cbn [snd] in A
  | |- context [get_n_bits ?n ?x] =>
      let A := fresh "A" in
      pose proof (get_n_bits_advanced n x) as A;
      destruct (get_n_bits n x) as [? ?]; cbn [snd] in A
  | |- context [if ?c then _ else _] => destruct c
  end; cbn [snd];
  repeat first [ assumption
               | apply advanced_refl
               | eapply advanced_trans; [|eassumption] ].
Qed.

(** A command that is not the end marker was read from the stream. *)
Lemma get_coded_command_val_strict (s : state) :
  fst (get_coded_command_val s) <> COMMAND_EOS_MARKER ->
  (bits_left (snd (get_coded_command_val s)) < bits_left s)%nat.
Proof.
  unfold get_coded_command_val.
  pose proof (get_one_bit_strict s) as St.
  destruct (get_one_bit s) as [bit s1]. cbn [fst snd] in St.
  destruct (Z.eqb_spec bit (-1)) as [->|Hb]; [cbn; congruence|].
  specialize (St Hb). intros _.
  repeat match goal with
  | |- context [get_one_bit ?x] =>
      let A := fresh "A" in
      pose proof (get_one_bit_advanced x) as A;
      destruct (get_one_bit x) as [? ?]; cbn [snd] in A
  | |- context [get_n_bits ?n ?x] =>
      let A := fresh "A" in
      pose proof (get_n_bits_advanced n x) as A;
      destruct (get_n_bits n x) as [? ?]; cbn [snd] in A
  | |- context [if ?c then _ else _] => destruct c
  end; cbn [snd];
  repeat match goal with
  | A : advanced _ _ |- _ => destruct A as [_ A]
  end; lia.
Qed.

(** ** Writes to the output array *)

Lemma evolves_refl s : evolves s s.
Proof. unfold evolves. repeat split; auto. Qed.

Lemma evolves_trans s1 s2 s3 : evolves s1 s2 -> evolves s2 s3 -> evolves s1 s3.
Proof.
  intros (T1 & Z1 & L1 & I1 & F1 & B1) (T2 & Z2 & L2 & I2 & F2 & B2).
  unfold evolves. repeat split; try congruence; try lia.
  intros i Hi. rewrite F2 by lia. apply F1. lia.
Qed.

Lemma advanced_evolves s s' : advanced s s' -> evolves s s'.
Proof.
  intros [(_ & D & Z & I & _ & T & _) B]. unfold evolves.
  rewrite D, Z, I, T. repeat split; auto.
Qed.

Lemma advanced_state_ok s s' : advanced s s' -> state_ok s -> state_ok s'.
Proof.
  intros [(_ & D & Z & I & L & _) _]. unfold state_ok. now rewrite D, Z, I, L.
Qed.

Lemma store_output_spec (v : Z) (s s' : state) :
  store_output v s = Some s' ->
  evolves s s'
  /\ decompressed_data_index s' = S (decompressed_data_index s)
  /\ decompressed_data s' !! decompressed_data_index s = Some v
  /\ pending_bits s' = pending_bits s
  /\ last_offset_val s' = last_offset_val s
  /\ serial s' = serial s.
Proof.
  unfold store_output.
  destruct (Nat.ltb_spec (decompressed_data_index s)
                         (length (decompressed_data s))) as [H|H];
    [|discriminate].
  intros [= <-]. destruct s as [b c d i o sz oi lo t sl].
  cbn [decompressed_data_index decompressed_data] in H.
  unfold evolves, bits_left, pending_bits. cbn.
  rewrite length_insert, list_lookup_insert_eq by exact H.
  repeat split; try lia.
  intros j Hj. apply list_lookup_insert_ne. lia.
Qed.

Lemma store_output_ok (v : Z) (s : state) :
  state_ok s ->
  (decompressed_data_index s < decompressed_buffer_size s)%nat ->
  exists s', store_output v s = Some s' /\ state_ok s'.
Proof.
  intros (H1 & H2 & H4) H3. unfold store_output.
  destruct (Nat.ltb_spec (decompressed_data_index s)
                         (length (decompressed_data s))) as [H|H]; [|lia].
  eexists. split; [reflexivity|].
  destruct s. unfold state_ok in *. cbn in *. rewrite length_insert. lia.
Qed.

Lemma outcome_ok_trans s1 s2 o :
  evolves s1 s2 -> outcome_ok s2 o -> outcome_ok s1 o.
Proof.
  intros E. destruct o; cbn; [| |auto];
    intros [E2 B]; (split; [eapply evolves_trans; eassumption|exact B]).
Qed.

Lemma literal_run_ok (todo : nat) (s : state) :
  state_ok s -> outcome_ok s (literal_run todo s).
Proof.
  revert s. induction todo as [|todo IH]; intros s B; cbn [literal_run].
  - split; [apply evolves_refl|exact B].
  - destruct (Nat.leb_spec (decompressed_buffer_size s)
                           (decompressed_data_index s)) as [G|G].
    + split; [apply evolves_refl|exact B].
    + pose proof (get_n_bits_advanced 8 s) as A.
      destruct (get_n_bits 8 s) as [literal_byte s1]. cbn [snd] in A.
      pose proof (advanced_state_ok _ _ A B) as B1.
      pose proof (advanced_evolves _ _ A) as E1.
      destruct (literal_byte =? -1); [hnf; split; [assumption|split; [assumption|discriminate]]|].
      destruct (store_output_ok (u8 literal_byte) s1 B1) as (s2 & St & B2).
      { destruct A as [(_ & _ & Z & I & _) _]. rewrite Z, I. exact G. }
      rewrite St. destruct (store_output_spec _ _ _ St) as (E2 & _).
      eapply outcome_ok_trans; [eapply evolves_trans; eassumption|].
      apply IH, B2.
Qed.

Lemma copy_byte_ok (offset : Z) (s : state) :
  state_ok s ->
  (decompressed_data_index s < decompressed_buffer_size s)%nat ->
  1 <= offset <= Z.of_nat (decompressed_data_index s) ->
  exists s' v,
    copy_byte offset s = Some s'
    /\ decompressed_data s
       !! (decompressed_data_index s - Z.to_nat offset)%nat = Some v
    /\ store_output v s = Some s' /\ state_ok s'.
Proof.
  intros B G Ho. unfold copy_byte, load_output.
  destruct (Z.ltb_spec (Z.of_nat (decompressed_data_index s) - offset) 0);
    [lia|].
  replace (Z.to_nat (Z.of_nat (decompressed_data_index s) - offset))
    with (decompressed_data_index s - Z.to_nat offset)%nat by lia.
  destruct (decompressed_data s
            !! (decompressed_data_index s - Z.to_nat offset)%nat)
    as [v|] eqn:L.
  - destruct (store_output_ok v s B G) as (s' & St & B').
    exists s', v. auto.
  - apply lookup_ge_None_1 in L. destruct B as (? & ? & ?). lia.
Qed.

Lemma copy_run_ok (todo : nat) (offset : Z) (s : state) :
  state_ok s ->
  1 <= offset <= Z.of_nat (decompressed_data_index s) ->
  outcome_ok s (copy_run todo offset s).
Proof.
  revert s. induction todo as [|todo IH]; intros s B Ho; cbn [copy_run].
  - split; [apply evolves_refl|exact B].
  - destruct (Nat.leb_spec (decompressed_buffer_size s)
                           (decompressed_data_index s)) as [G|G].
    + split; [apply evolves_refl|exact B].
    + destruct (copy_byte_ok offset s B G Ho) as (s1 & v & C & _ & St & B1).
      rewrite C. destruct (store_output_spec _ _ _ St) as (E1 & I1 & _).
      eapply outcome_ok_trans; [exact E1|]. apply IH; [exact B1|lia].
Qed.

Lemma println_evolves (line : string) (s : state) :
  evolves s (Serial_println line s) /\
  (state_ok s -> state_ok (Serial_println line s)).
Proof.
  destruct s. unfold evolves, state_ok, bits_left, pending_bits. cbn.
  intuition lia.
Qed.

Lemma copy_sequence_ok (length offset : Z) (s : state) :
  state_ok s -> 0 <= offset -> outcome_ok s (copy_sequence length offset s).
Proof.
  intros B Hpos. unfold copy_sequence.
  destruct (Z.eqb_spec offset 0) as [->|H0]; cbn [orb].
  - destruct (println_evolves "Error: Invalid offset" s).
    cbn [outcome_ok]. split; [assumption|split; [auto|discriminate]].
  - destruct (Z.ltb_spec (Z.of_nat (decompressed_data_index s)) offset).
    + destruct (println_evolves "Error: Invalid offset" s).
      cbn [outcome_ok]. split; [assumption|split; [auto|discriminate]].
    + apply copy_run_ok; [exact B|lia].
Qed.

Lemma u16_nonneg (x : Z) : 0 <= u16 x < 65536.
Proof. unfold u16. apply Z.mod_pos_bound. lia. Qed.

Lemma get_gamma_coded_value_nonneg (s : state) :
  0 <= fst (get_gamma_coded_value s) < 65536.
Proof.
  unfold get_gamma_coded_value.
  destruct (unary_scan 17 0 s) as [[[| |c] s1]|]; cbn [fst]; try lia.
  destruct (c =? 0); cbn [fst]; [lia|].
  destruct (get_n_bits c s1) as [r s2].
  destruct (u16 r =? u16 (-1)); cbn [fst]; [lia|apply u16_nonneg].
Qed.

Lemma set_last_offset_val_spec (o : Z) (s : state) :
  evolves s (set_last_offset_val o s)
  /\ (state_ok s -> 0 <= o -> state_ok (set_last_offset_val o s)).
Proof.
  destruct s. unfold evolves, state_ok, bits_left, pending_bits. cbn.
  intuition lia.
Qed.

Lemma read_sequence_ok (type val_from_table : Z) (s : state) :
  state_ok s -> sequence_ok s (read_sequence type val_from_table s).
Proof.
  intros B. unfold read_sequence.
  assert (Short : sequence_ok s
            (let '(raw, s1) := get_n_bits val_from_table s in
             if raw =? -1 then inl (ExitOffsetBitsEOS, s1)
             else inr (2, u16 (raw + 1), s1))
          /\ sequence_ok s
            (let '(raw, s1) := get_n_bits val_from_table s in
             if raw =? -1 then inl (ExitOffsetBitsEOS, s1)
             else inr (3, u16 (raw + 1), s1))).
  { pose proof (get_n_bits_advanced val_from_table s) as A.
    destruct (get_n_bits val_from_table s) as [raw s1]. cbn [snd] in A.
    pose proof (advanced_evolves _ _ A). pose proof (advanced_state_ok _ _ A B).
    pose proof (u16_nonneg (raw + 1)).
    destruct (raw =? -1); cbn; intuition discriminate. }
  destruct (type =? 1); [apply Short|]. destruct (type =? 2); [apply Short|].
  clear Short.
  pose proof (get_gamma_coded_value_advanced s) as A1.
  destruct (get_gamma_coded_value s) as [len s1]. cbn [snd] in A1.
  pose proof (advanced_evolves _ _ A1) as E1.
  pose proof (advanced_state_ok _ _ A1 B) as B1.
  destruct (len =? 0); [hnf; split; [assumption|split; [assumption|discriminate]]|].
  pose proof (get_one_bit_advanced s1) as A2.
  destruct (get_one_bit s1) as [bit s2]. cbn [snd] in A2.
  pose proof (advanced_trans _ _ _ A1 A2) as A12.
  pose proof (advanced_evolves _ _ A12) as E2.
  pose proof (advanced_state_ok _ _ A12 B) as B2.
  destruct (bit =? -1); [hnf; split; [assumption|split; [assumption|discriminate]]|].
  destruct (bit =? 1).
  { cbn [sequence_ok]. split; [exact E2|split; [exact B2|apply B2]]. }
  pose proof (get_gamma_coded_value_advanced s2) as A3.
  pose proof (get_gamma_coded_value_nonneg s2) as N3.
  destruct (get_gamma_coded_value s2) as [offset s3]. cbn [fst snd] in A3, N3.
  pose proof (advanced_trans _ _ _ A12 A3) as A123.
  pose proof (advanced_evolves _ _ A123) as E3.
  pose proof (advanced_state_ok _ _ A123 B) as B3.
  destruct (offset =? 0); [hnf; split; [assumption|split; [assumption|discriminate]]|].
  destruct (set_last_offset_val_spec offset s3) as [E4 B4].
  cbn [sequence_ok]. split; [eapply evolves_trans; eassumption|].
  split; [apply B4; [exact B3|lia]|lia].
Qed.

(** One round of the loop: no array is left, and a round that goes on has
    taken at least one bit of the input. *)
Lemma decrunch_iteration_ok (s : state) :
  state_ok s ->
  outcome_ok s (decrunch_iteration s)
  /\ (forall s', decrunch_iteration s = Next s' ->
                 (bits_left s' < bits_left s)%nat).
Proof.
  intros B. unfold decrunch_iteration.
  pose proof (get_coded_command_val_advanced s) as A.
  pose proof (get_coded_command_val_strict s) as St.
  destruct (get_coded_command_val s) as [command_byte s1].
  cbn [fst snd] in A, St.
  pose proof (advanced_evolves _ _ A) as E1.
  pose proof (advanced_state_ok _ _ A B) as B1.
  destruct (Z.eqb_spec command_byte COMMAND_EOS_MARKER) as [->|Hc].
  { split; [|discriminate]. cbn. split; [assumption|split; [assumption|discriminate]]. }
  specialize (St Hc).
  assert (Main : forall o, outcome_ok s1 o ->
            outcome_ok s o /\
            (forall s', o = Next s' -> (bits_left s' < bits_left s)%nat)).
  { intros o Ho. split; [eapply outcome_ok_trans; eassumption|].
    intros s' ->. destruct Ho as [(_ & _ & _ & _ & _ & L) _]. lia. }
  destruct (Z.land command_byte 3 =? 0);
    [apply Main, literal_run_ok, B1|].
  pose proof (read_sequence_ok (Z.land command_byte 3)
                (Z.shiftr command_byte 2) s1 B1) as R.
  destruct (read_sequence (Z.land command_byte 3)
              (Z.shiftr command_byte 2) s1) as [[e s2]|[[len off] s2]];
    cbn in R.
  - apply Main. exact R.
  - destruct R as (E2 & B2 & Ho). apply Main.
    eapply outcome_ok_trans; [exact E2|]. now apply copy_sequence_ok.
Qed.

Lemma decrunch_loop_ok (fuel : nat) (s : state) :
  state_ok s -> (bits_left s < fuel)%nat ->
  verdict_ok s (decrunch_loop fuel s).
Proof.
  revert s. induction fuel as [|fuel IH]; intros s B Hf; [lia|].
  cbn [decrunch_loop].
  destruct (Nat.leb_spec (decompressed_buffer_size s)
                         (decompressed_data_index s)) as [G|G].
  { cbn. split; [apply evolves_refl|]. split; [exact B|].
    intros _. destruct B as (_ & ? & _). lia. }
  destruct (decrunch_iteration_ok s B) as [O St].
  destruct (decrunch_iteration s) as [s'|e s'|]; cbn in O.
  - destruct O as [E B']. specialize (St s' eq_refl).
    specialize (IH s' B' ltac:(lia)).
    destruct (decrunch_loop fuel s') as [e s''| |]; cbn in IH |- *; auto.
    destruct IH as (E2 & B2 & F2).
    split; [eapply evolves_trans; eassumption|]. now split.
  - destruct O as (E & B' & Ne). cbn. split; [exact E|]. split; [exact B'|].
    intros ->. now elim Ne.
  - exact O.
Qed.

(** ** The start of a run and its end *)

(** All 145 entries are assigned: what the array held before is gone. *)
Lemma init_decrunch_table_canonical (s : state) :
  length (exod_decrunch_table_data s) = 145%nat ->
  init_decrunch_table s = set_table canonical_table s.
Proof.
  unfold init_decrunch_table. intros H. f_equal.
  generalize dependent (exod_decrunch_table_data s). intros t H.
  do 145 (destruct t as [|? t]; [discriminate H|]).
  destruct t; [|discriminate H]. vm_compute. reflexivity.
Qed.

Lemma exod_decrunch_reset_canonical (g : state) in_data out_buffer cap :
  length (exod_decrunch_table_data g) = 145%nat ->
  exod_decrunch_reset g in_data out_buffer cap
  = State 0 0 in_data 0 out_buffer cap 0 0 canonical_table (serial g).
Proof.
  intros H. unfold exod_decrunch_reset.
  now rewrite init_decrunch_table_canonical by exact H.
Qed.

Lemma init_decrunch_table_spec (s : state) :
  let s' := init_decrunch_table s in
  exod_zp_bitbuf s' = exod_zp_bitbuf s
  /\ exod_zp_bit_count s' = exod_zp_bit_count s
  /\ crunched_data s' = crunched_data s
  /\ crunched_data_index s' = crunched_data_index s
  /\ decompressed_data s' = decompressed_data s
  /\ decompressed_buffer_size s' = decompressed_buffer_size s
  /\ decompressed_data_index s' = decompressed_data_index s
  /\ last_offset_val s' = last_offset_val s
  /\ serial s' = serial s.
Proof. destruct s. unfold init_decrunch_table. cbn [set_table exod_zp_bitbuf
  exod_zp_bit_count crunched_data crunched_data_index decompressed_data
  decompressed_buffer_size decompressed_data_index last_offset_val serial].
  repeat split.
Qed.

Lemma msb_first_length (b : Z) (n : nat) : length (msb_first b n) = n.
Proof. unfold msb_first. now rewrite length_map, length_seq. Qed.

Lemma stream_length (l : list Z) :
  length (flat_map (fun x => msb_first x 8) l) = (8 * length l)%nat.
Proof.
  induction l as [|x l IH]; [reflexivity|].
  cbn [flat_map]. rewrite length_app, msb_first_length, IH. cbn [length]. lia.
Qed.

(** A run starts with all [8 * in_len] bits pending and nothing written. *)
Lemma exod_decrunch_reset_spec (g : state) in_data out_buffer cap :
  let s := exod_decrunch_reset g in_data out_buffer cap in
  pending_bits s = flat_map (fun x => msb_first x 8) in_data
  /\ bits_left s = (8 * length in_data)%nat
  /\ decompressed_data s = out_buffer
  /\ decompressed_buffer_size s = cap
  /\ decompressed_data_index s = 0%nat
  /\ last_offset_val s = 0
  /\ serial s = serial g.
Proof.
  cbn zeta. unfold exod_decrunch_reset.
  set (s0 := State 0 0 in_data 0 out_buffer cap 0 0 _ _).
  destruct (init_decrunch_table_spec s0)
    as (H1 & H2 & H3 & H4 & H5 & H6 & H7 & H8 & H9).
  assert (P : pending_bits (init_decrunch_table s0)
              = flat_map (fun x => msb_first x 8) in_data).
  { unfold pending_bits. rewrite H1, H2, H3, H4. cbn. now rewrite drop_0. }
  split; [exact P|]. unfold bits_left. rewrite P, stream_length.
  rewrite H5, H6, H7, H8, H9. repeat split.
Qed.

Lemma exod_decrunch_reset_ok (g : state) in_data out_buffer cap :
  (cap <= length out_buffer)%nat ->
  state_ok (exod_decrunch_reset g in_data out_buffer cap).
Proof.
  intros H.
  destruct (exod_decrunch_reset_spec g in_data out_buffer cap)
    as (_ & _ & D & Z & I & L & _).
  unfold state_ok. rewrite D, Z, I, L. lia.
Qed.

(** More fuel than bits is as good as any amount. *)
Lemma decrunch_loop_enough_fuel (fuel1 fuel2 : nat) (s : state) :
  state_ok s -> (bits_left s < fuel1)%nat -> (bits_left s < fuel2)%nat ->
  decrunch_loop fuel1 s = decrunch_loop fuel2 s.
Proof.
  revert fuel2 s. induction fuel1 as [|fuel1 IH]; intros fuel2 s B H1 H2;
    [lia|].
  destruct fuel2 as [|fuel2]; [lia|]. cbn [decrunch_loop].
  destruct (decompressed_buffer_size s <=? decompressed_data_index s)%nat;
    [reflexivity|].
  destruct (decrunch_iteration_ok s B) as [O St].
  destruct (decrunch_iteration s) as [s'|e s'|]; try reflexivity.
  destruct O as [E B']. specialize (St s' eq_refl). apply IH; [exact B'|lia..].
Qed.

(** Every call of [exod_decrunch] comes to an end in one of the exits and
    within the bounds of the output array. *)
Lemma exod_decrunch_ok (g : state) in_data out_buffer cap :
  (cap <= length out_buffer)%nat ->
  verdict_ok (exod_decrunch_reset g in_data out_buffer cap)
             (exod_decrunch g in_data out_buffer cap).
Proof.
  intros H. unfold exod_decrunch. apply decrunch_loop_ok.
  - now apply exod_decrunch_reset_ok.
  - destruct (exod_decrunch_reset_spec g in_data out_buffer cap)
      as (_ & -> & _). lia.
Qed.

(** ** Simulation of a run by a run with more room *)

(** The readers deliver the same values from equal streams, whatever the
    buffered byte and the fetch position are. *)
Lemma get_one_bit_det (s1 s2 : state) :
  pending_bits s1 = pending_bits s2 ->
  fst (get_one_bit s1) = fst (get_one_bit s2)
  /\ pending_bits (snd (get_one_bit s1)) = pending_bits (snd (get_one_bit s2)).
Proof.
  intros E. destruct (get_one_bit_stream s1) as (V1 & T1 & _).
  destruct (get_one_bit_stream s2) as (V2 & T2 & _).
  rewrite V1, V2, T1, T2, E. auto.
Qed.

Lemma get_n_bits_loop_det (todo : nat) (value : Z) (s1 s2 : state) :
  pending_bits s1 = pending_bits s2 ->
  fst (get_n_bits_loop todo value s1) = fst (get_n_bits_loop todo value s2)
  /\ pending_bits (snd (get_n_bits_loop todo value s1))
     = pending_bits (snd (get_n_bits_loop todo value s2)).
Proof.
  revert value s1 s2. induction todo as [|todo IH]; intros value s1 s2 E.
  - auto.
  - cbn [get_n_bits_loop]. destruct (get_one_bit_det s1 s2 E) as [V P].
    destruct (get_one_bit s1) as [b1 t1], (get_one_bit s2) as [b2 t2].
    cbn [fst snd] in V, P. subst b2.
    destruct (b1 =? -1); [auto|]. now apply IH.
Qed.

Lemma get_n_bits_det (n : Z) (s1 s2 : state) :
  pending_bits s1 = pending_bits s2 ->
  fst (get_n_bits n s1) = fst (get_n_bits n s2)
  /\ pending_bits (snd (get_n_bits n s1))
     = pending_bits (snd (get_n_bits n s2)).
Proof.
  intros E. unfold get_n_bits. destruct (n =? 0); [auto|].
  destruct (16 <? n); [auto|]. now apply get_n_bits_loop_det.
Qed.

Lemma unary_scan_det (fuel : nat) (c : Z) (s1 s2 : state) :
  pending_bits s1 = pending_bits s2 ->
  match unary_scan fuel c s1, unary_scan fuel c s2 with
  | Some (e1, t1), Some (e2, t2) => e1 = e2 /\ pending_bits t1 = pending_bits t2
  | None, None => True
  | _, _ => False
  end.
Proof.
  revert c s1 s2. induction fuel as [|fuel IH]; intros c s1 s2 E; [exact I|].
  cbn [unary_scan]. destruct (get_one_bit_det s1 s2 E) as [V P].
  destruct (get_one_bit s1) as [b1 t1], (get_one_bit s2) as [b2 t2].
  cbn [fst snd] in V, P. subst b2.
  destruct (b1 =? -1); [auto|]. destruct (b1 =? 1); [auto|].
  destruct (16 <? u8 (c + 1)); [auto|]. now apply IH.
Qed.

Lemma get_gamma_coded_value_det (s1 s2 : state) :
  pending_bits s1 = pending_bits s2 ->
  fst (get_gamma_coded_value s1) = fst (get_gamma_coded_value s2)
  /\ pending_bits (snd (get_gamma_coded_value s1))
     = pending_bits (snd (get_gamma_coded_value s2)).
Proof.
  intros E. unfold get_gamma_coded_value.
  pose proof (unary_scan_det 17 0 s1 s2 E) as U.
  destruct (unary_scan 17 0 s1) as [[e1 t1]|],
           (unary_scan 17 0 s2) as [[e2 t2]|]; try contradiction; [|auto].
  destruct U as [<- P]. destruct e1 as [| |c]; [auto..|].
  destruct (c =? 0); [auto|].
  destruct (get_n_bits_det c t1 t2 P) as [V R].
  destruct (get_n_bits c t1) as [r1 u1], (get_n_bits c t2) as [r2 u2].
  cbn [fst snd] in V, R. subst r2.
  destruct (u16 r1 =? u16 (-1)); auto.
Qed.

Lemma get_coded_command_val_det (s1 s2 : state) :
  pending_bits s1 = pending_bits s2 ->
  exod_decrunch_table_data s1 = exod_decrunch_table_data s2 ->
  fst (get_coded_command_val s1) = fst (get_coded_command_val s2)
  /\ pending_bits (snd (get_coded_command_val s1))
     = pending_bits (snd (get_coded_command_val s2)).
Proof.
  intros E T.
  assert (Tab : forall i t1 t2, reader_moved s1 t1 -> reader_moved s2 t2 ->
                  table_at i t1 = table_at i t2).
  { intros i t1 t2 M1 M2. rewrite (table_at_moved i _ _ M1).
    rewrite (table_at_moved i _ _ M2). unfold table_at. now rewrite T. }
  assert (Leaf : forall base n t1 t2,
            reader_moved s1 t1 -> reader_moved s2 t2 ->
            pending_bits t1 = pending_bits t2 ->
            let r (t : state) :=
              (let '(sub_idx, u) := get_n_bits n t in
               if sub_idx =? -1 then (COMMAND_EOS_MARKER, u)
               else (table_at (base + sub_idx) u, u)) in
            fst (r t1) = fst (r t2)
            /\ pending_bits (snd (r t1)) = pending_bits (snd (r t2))).
  { intros base n t1 t2 M1 M2 P. cbn zeta.
    destruct (get_n_bits_det n t1 t2 P) as [V R].
    pose proof (get_n_bits_moved n t1) as N1.
    pose proof (get_n_bits_moved n t2) as N2.
    destruct (get_n_bits n t1) as [i1 u1], (get_n_bits n t2) as [i2 u2].
    cbn [fst snd] in *. subst i2. destruct (i1 =? -1); cbn [fst snd].
    - auto.
    - split; [|exact R].
      apply Tab; eapply reader_moved_trans; eassumption. }
  unfold get_coded_command_val.
  pose proof (reader_moved_refl s1) as M1.
  pose proof (reader_moved_refl s2) as M2.
  revert E M1 M2. generalize s1 at 1 3 4 5 as t1. generalize s2 at 1 3 4 5 as t2.
  intros t2 t1 E M1 M2.
  do 4 (
    let V := fresh "V" in let P := fresh "P" in
    let N1 := fresh "N" in let N2 := fresh "N" in
    match goal with
    | E : pending_bits ?a = pending_bits ?b |- context [get_one_bit ?a] =>
        destruct (get_one_bit_det a b E) as [V P];
        pose proof (get_one_bit_stream a) as (_ & _ & N1);
        pose proof (get_one_bit_stream b) as (_ & _ & N2);
        destruct (get_one_bit a) as [? ?], (get_one_bit b) as [? ?];
        cbn [fst snd] in V, P, N1, N2; subst;
        pose proof (reader_moved_trans _ _ _ M1 N1);
        pose proof (reader_moved_trans _ _ _ M2 N2);
        clear E M1 M2 N1 N2
    end;
    match goal with
    | |- context [if ?b =? -1 then _ else _] =>
        destruct (b =? -1); [cbn [fst snd]; now split|];
        destruct (b =? 0); [now apply Leaf|]
    end;
    match goal with
    | H1 : reader_moved s1 _, H2 : reader_moved s2 _ |- _ =>
        rename H1 into M1; rename H2 into M2
    end;
    match goal with
    | H : pending_bits _ = pending_bits _ |- _ => rename H into E
    end).
  cbn [fst snd]. split; [now apply Tab|exact E].
Qed.

Lemma sim_moved (s1 s2 t1 t2 : state) :
  sim s1 s2 -> reader_moved s1 t1 -> reader_moved s2 t2 ->
  pending_bits t1 = pending_bits t2 -> sim t1 t2.
Proof.
  intros (_ & T & L & S & I & D & Z)
         (_ & D1 & Z1 & I1 & L1 & T1 & S1) (_ & D2 & Z2 & I2 & L2 & T2 & S2) P.
  unfold sim. rewrite D1, Z1, I1, L1, T1, S1, D2, Z2, I2, L2, T2, S2.
  repeat split; assumption.
Qed.

Lemma sim_store (v : Z) (s1 s2 t1 t2 : state) :
  sim s1 s2 -> store_output v s1 = Some t1 -> store_output v s2 = Some t2 ->
  sim t1 t2.
Proof.
  intros (P & T & L & S & I & D & Z) H1 H2.
  assert (Z1 : decompressed_buffer_size t1 = decompressed_buffer_size s1
               /\ exod_decrunch_table_data t1 = exod_decrunch_table_data s1).
  { destruct (store_output_spec _ _ _ H1) as ((? & ? & _) & _). auto. }
  assert (Z2 : decompressed_buffer_size t2 = decompressed_buffer_size s2
               /\ exod_decrunch_table_data t2 = exod_decrunch_table_data s2).
  { destruct (store_output_spec _ _ _ H2) as ((? & ? & _) & _). auto. }
  destruct (store_output_spec _ _ _ H1)
    as ((_ & _ & _ & _ & F1 & _) & I1 & V1 & P1 & L1 & S1).
  destruct (store_output_spec _ _ _ H2)
    as ((_ & _ & _ & _ & F2 & _) & I2 & V2 & P2 & L2 & S2).
  destruct Z1 as [Z1 T1], Z2 as [Z2 T2].
  unfold sim. rewrite P1, P2, L1, L2, S1, S2, I1, I2, Z1, Z2, T1, T2.
  repeat split; try assumption; try congruence.
  intros j Hj. destruct (Nat.eq_dec j (decompressed_data_index s1)) as [->|Hne].
  - rewrite V1. rewrite I. now rewrite V2.
  - rewrite F1, F2 by lia. apply D. lia.
Qed.

Lemma literal_run_sim (todo : nat) (s1 s2 : state) :
  sim s1 s2 -> state_ok s2 ->
  outcome_sim (literal_run todo s1) (literal_run todo s2).
Proof.
  revert s1 s2. induction todo as [|todo IH]; intros s1 s2 S B;
    cbn [literal_run].
  - intros _. eauto.
  - destruct (Nat.leb_spec (decompressed_buffer_size s1)
                           (decompressed_data_index s1)) as [G1|G1].
    { intros G. lia. }
    pose proof S as (P & _ & _ & _ & I & _ & Z).
    destruct (Nat.leb_spec (decompressed_buffer_size s2)
                           (decompressed_data_index s2)) as [G2|G2]; [lia|].
    destruct (get_n_bits_det 8 s1 s2 P) as [V R].
    pose proof (get_n_bits_advanced 8 s1) as A1.
    pose proof (get_n_bits_advanced 8 s2) as A2.
    destruct (get_n_bits 8 s1) as [b t1], (get_n_bits 8 s2) as [b2 t2].
    cbn [fst snd] in V, R, A1, A2. subst b2.
    pose proof (sim_moved _ _ _ _ S (proj1 A1) (proj1 A2) R) as S'.
    pose proof (advanced_state_ok _ _ A2 B) as B'.
    destruct (b =? -1); [cbn; eauto|].
    destruct (store_output (u8 b) t1) as [u1|] eqn:St1; [|exact Logic.I].
    destruct (store_output_ok (u8 b) t2 B') as (u2 & St2 & B2).
    { destruct A2 as [(_ & _ & Z2 & I2 & _) _]. rewrite Z2, I2. exact G2. }
    rewrite St2. apply IH; [eapply sim_store; eassumption|exact B2].
Qed.

Lemma copy_run_sim (todo : nat) (offset : Z) (s1 s2 : state) :
  sim s1 s2 -> state_ok s2 ->
  1 <= offset <= Z.of_nat (decompressed_data_index s1) ->
  outcome_sim (copy_run todo offset s1) (copy_run todo offset s2).
Proof.
  revert s1 s2. induction todo as [|todo IH]; intros s1 s2 S B Ho;
    cbn [copy_run].
  - intros _. eauto.
  - destruct (Nat.leb_spec (decompressed_buffer_size s1)
                           (decompressed_data_index s1)) as [G1|G1].
    { intros G. lia. }
    pose proof S as (P & _ & _ & _ & I & D & Z).
    destruct (Nat.leb_spec (decompressed_buffer_size s2)
                           (decompressed_data_index s2)) as [G2|G2]; [lia|].
    destruct (copy_byte offset s1) as [u1|] eqn:C1; [|exact Logic.I].
    destruct (copy_byte_ok offset s2 B G2) as (u2 & v & C2 & L2 & St2 & B2);
      [lia|].
    rewrite C2.
    assert (St1 : store_output v s1 = Some u1).
    { unfold copy_byte, load_output in C1.
      destruct (Z.ltb_spec (Z.of_nat (decompressed_data_index s1) - offset) 0);
        [lia|].
      replace (Z.to_nat (Z.of_nat (decompressed_data_index s1) - offset))
        with (decompressed_data_index s1 - Z.to_nat offset)%nat in C1 by lia.
      rewrite D in C1 by lia. rewrite I in C1. rewrite L2 in C1. exact C1. }
    apply IH; [eapply sim_store; eassumption|exact B2|].
    destruct (store_output_spec _ _ _ St1) as (_ & I1 & _). lia.
Qed.

Lemma sim_set_last_offset_val (o : Z) (s1 s2 : state) :
  sim s1 s2 -> sim (set_last_offset_val o s1) (set_last_offset_val o s2).
Proof. destruct s1, s2. unfold sim, pending_bits. cbn. intuition. Qed.

Lemma sim_println (line : string) (s1 s2 : state) :
  sim s1 s2 -> sim (Serial_println line s1) (Serial_println line s2).
Proof.
  destruct s1, s2. unfold sim, pending_bits. cbn. intuition congruence.
Qed.

Lemma read_sequence_sim (type val_from_table : Z) (s1 s2 : state) :
  sim s1 s2 ->
  sequence_sim (read_sequence type val_from_table s1)
               (read_sequence type val_from_table s2).
Proof.
  intros S. unfold read_sequence.
  assert (Short : forall len,
            sequence_sim
              (let '(raw, t) := get_n_bits val_from_table s1 in
               if raw =? -1 then inl (ExitOffsetBitsEOS, t)
               else inr (len, u16 (raw + 1), t))
              (let '(raw, t) := get_n_bits val_from_table s2 in
               if raw =? -1 then inl (ExitOffsetBitsEOS, t)
               else inr (len, u16 (raw + 1), t))).
  { intros len. destruct (get_n_bits_det val_from_table s1 s2 (proj1 S))
      as [V R].
    pose proof (get_n_bits_moved val_from_table s1) as M1.
    pose proof (get_n_bits_moved val_from_table s2) as M2.
    destruct (get_n_bits val_from_table s1) as [r1 t1],
             (get_n_bits val_from_table s2) as [r2 t2].
    cbn [fst snd] in *. subst r2.
    pose proof (sim_moved _ _ _ _ S M1 M2 R).
    destruct (r1 =? -1); cbn; auto. }
  destruct (type =? 1); [apply Short|]. destruct (type =? 2); [apply Short|].
  clear Short.
  destruct (get_gamma_coded_value_det s1 s2 (proj1 S)) as [V1 R1].
  pose proof (get_gamma_coded_value_advanced s1) as [M1 _].
  pose proof (get_gamma_coded_value_advanced s2) as [M2 _].
  destruct (get_gamma_coded_value s1) as [len t1],
           (get_gamma_coded_value s2) as [len2 t2].
  cbn [fst snd] in *. subst len2.
  pose proof (sim_moved _ _ _ _ S M1 M2 R1) as S1.
  destruct (len =? 0); [cbn; auto|].
  destruct (get_one_bit_det t1 t2 R1) as [V2 R2].
  pose proof (get_one_bit_stream t1) as (_ & _ & N1).
  pose proof (get_one_bit_stream t2) as (_ & _ & N2).
  destruct (get_one_bit t1) as [bit u1], (get_one_bit t2) as [bit2 u2].
  cbn [fst snd] in *. subst bit2.
  pose proof (sim_moved _ _ _ _ S1 N1 N2 R2) as S2.
  destruct (bit =? -1); [cbn; auto|].
  destruct (bit =? 1).
  { cbn [sequence_sim]. split; [reflexivity|]. split; [apply S2|exact S2]. }
  destruct (get_gamma_coded_value_det u1 u2 R2) as [V3 R3].
  pose proof (get_gamma_coded_value_advanced u1) as [K1 _].
  pose proof (get_gamma_coded_value_advanced u2) as [K2 _].
  destruct (get_gamma_coded_value u1) as [off w1],
           (get_gamma_coded_value u2) as [off2 w2].
  cbn [fst snd] in *. subst off2.
  pose proof (sim_moved _ _ _ _ S2 K1 K2 R3) as S3.
  destruct (off =? 0); [cbn; auto|].
  cbn [sequence_sim]. split; [reflexivity|split; [reflexivity|]].
  now apply sim_set_last_offset_val.
Qed.

Lemma copy_sequence_sim (length offset : Z) (s1 s2 : state) :
  sim s1 s2 -> state_ok s2 -> 0 <= offset ->
  outcome_sim (copy_sequence length offset s1)
              (copy_sequence length offset s2).
Proof.
  intros S B Ho. unfold copy_sequence.
  pose proof S as (_ & _ & _ & _ & I & _).
  rewrite <- I.
  destruct ((offset =? 0) || (Z.of_nat (decompressed_data_index s1) <? offset))
    eqn:Bad.
  - cbn. eexists. split; [reflexivity|]. split; [now apply sim_println|].
    now apply println_evolves.
  - apply orb_false_iff in Bad. destruct Bad as [H0 H1].
    apply Z.eqb_neq in H0. apply Z.ltb_ge in H1.
    apply copy_run_sim; [exact S|exact B|lia].
Qed.

Lemma decrunch_iteration_sim (s1 s2 : state) :
  sim s1 s2 -> state_ok s2 ->
  outcome_sim (decrunch_iteration s1) (decrunch_iteration s2).
Proof.
  intros S B. unfold decrunch_iteration.
  destruct (get_coded_command_val_det s1 s2 (proj1 S)) as [V R];
    [apply S|].
  pose proof (get_coded_command_val_advanced s1) as [M1 _].
  pose proof (get_coded_command_val_advanced s2) as A2.
  destruct (get_coded_command_val s1) as [command_byte t1],
           (get_coded_command_val s2) as [command_byte2 t2].
  cbn [fst snd] in *. subst command_byte2.
  pose proof (sim_moved _ _ _ _ S M1 (proj1 A2) R) as S1.
  pose proof (advanced_state_ok _ _ A2 B) as B1.
  destruct (command_byte =? COMMAND_EOS_MARKER); [cbn; eauto|].
  destruct (Z.land command_byte 3 =? 0); [now apply literal_run_sim|].
  pose proof (read_sequence_sim (Z.land command_byte 3)
                (Z.shiftr command_byte 2) t1 t2 S1) as Q.
  pose proof (read_sequence_ok (Z.land command_byte 3)
                (Z.shiftr command_byte 2) t2 B1) as K.
  destruct (read_sequence (Z.land command_byte 3)
              (Z.shiftr command_byte 2) t1) as [[e1 u1]|[[l1 o1] u1]],
           (read_sequence (Z.land command_byte 3)
              (Z.shiftr command_byte 2) t2) as [[e2 u2]|[[l2 o2] u2]];
    cbn in Q, K; try contradiction.
  - destruct Q as [<- Q]. cbn. exists u2. intuition.
  - destruct Q as (<- & <- & Q). destruct K as (_ & K & Ho).
    now apply copy_sequence_sim.
Qed.

(** A run that ends elsewhere than at a full buffer ends the same way when
    it is given more room. *)
Lemma decrunch_loop_sim (fuel : nat) (s1 s2 : state) (e : exit) (t1 : state) :
  sim s1 s2 -> state_ok s2 ->
  decrunch_loop fuel s1 = Finished e t1 -> e <> ExitBufferFull ->
  exists t2, decrunch_loop fuel s2 = Finished e t2 /\ sim t1 t2.
Proof.
  revert s1 s2. induction fuel as [|fuel IH]; intros s1 s2 S B H Ne;
    cbn [decrunch_loop] in *.
  - destruct (decompressed_buffer_size s1 <=? decompressed_data_index s1)%nat;
      [congruence|discriminate].
  - pose proof S as (_ & _ & _ & _ & I & _ & Z).
    destruct (Nat.leb_spec (decompressed_buffer_size s1)
                           (decompressed_data_index s1)) as [G1|G1];
      [congruence|].
    destruct (Nat.leb_spec (decompressed_buffer_size s2)
                           (decompressed_data_index s2)) as [G2|G2]; [lia|].
    pose proof (decrunch_iteration_sim s1 s2 S B) as Q.
    destruct (decrunch_iteration s1) as [u1|e1 u1|]; [| |discriminate].
    + cbn in Q.
      assert (G : (decompressed_data_index u1 < decompressed_buffer_size u1)%nat).
      { destruct fuel; cbn [decrunch_loop] in H;
          destruct (Nat.leb_spec (decompressed_buffer_size u1)
                                 (decompressed_data_index u1));
          try congruence; try lia. }
      destruct (Q G) as (u2 & -> & S' & B'). now apply (IH u1 u2).
    + destruct Q as (u2 & -> & S' & B'). injection H as <- <-. eauto.
Qed.

(** ** A truncated run writes a prefix *)

Lemma sim_prefix (s1 s2 : state) : sim s1 s2 -> prefix_of s1 s2.
Proof. intros (_ & _ & _ & _ & I & D & _). split; [lia|exact D]. Qed.

Lemma prefix_evolves (s1 s2 t2 : state) :
  prefix_of s1 s2 -> evolves s2 t2 -> prefix_of s1 t2.
Proof.
  intros [I D] (_ & _ & _ & I2 & F & _). split; [lia|].
  intros j Hj. rewrite F by lia. now apply D.
Qed.

Lemma outcome_prefix_stopped (s1 s2 : state) (o2 : outcome) :
  sim s1 s2 -> outcome_ok s2 o2 -> outcome_prefix (Next s1) o2.
Proof.
  intros S O. destruct o2 as [t2|e t2|]; cbn in O |- *; [| |exact O];
    (eapply prefix_evolves; [apply sim_prefix, S|apply O]).
Qed.

Lemma literal_run_prefix (todo : nat) (s1 s2 : state) :
  sim s1 s2 -> state_ok s2 ->
  outcome_prefix (literal_run todo s1) (literal_run todo s2).
Proof.
  revert s1 s2. induction todo as [|todo IH]; intros s1 s2 Hs B.
  - cbn. now apply sim_prefix.
  - pose proof (literal_run_ok (Datatypes.S todo) s2 B) as O2. cbn [literal_run] in *.
    destruct (Nat.leb_spec (decompressed_buffer_size s1)
                           (decompressed_data_index s1)) as [G1|G1].
    { exact (outcome_prefix_stopped s1 s2 _ Hs O2). }
    pose proof Hs as (P & _ & _ & _ & I & _ & Z).
    destruct (Nat.leb_spec (decompressed_buffer_size s2)
                           (decompressed_data_index s2)) as [G2|G2]; [lia|].
    destruct (get_n_bits_det 8 s1 s2 P) as [V R].
    pose proof (get_n_bits_advanced 8 s1) as A1.
    pose proof (get_n_bits_advanced 8 s2) as A2.
    destruct (get_n_bits 8 s1) as [b t1], (get_n_bits 8 s2) as [b2 t2].
    cbn [fst snd] in V, R, A1, A2. subst b2.
    pose proof (sim_moved _ _ _ _ Hs (proj1 A1) (proj1 A2) R) as S'.
    pose proof (advanced_state_ok _ _ A2 B) as B'.
    destruct (b =? -1); [cbn; now apply sim_prefix|].
    destruct (store_output (u8 b) t1) as [u1|] eqn:St1; [|exact Logic.I].
    destruct (store_output_ok (u8 b) t2 B') as (u2 & St2 & B2).
    { destruct A2 as [(_ & _ & Z2 & I2 & _) _]. rewrite Z2, I2. exact G2. }
    rewrite St2. apply IH; [eapply sim_store; eassumption|exact B2].
Qed.

Lemma copy_run_prefix (todo : nat) (offset : Z) (s1 s2 : state) :
  sim s1 s2 -> state_ok s2 ->
  1 <= offset <= Z.of_nat (decompressed_data_index s1) ->
  outcome_prefix (copy_run todo offset s1) (copy_run todo offset s2).
Proof.
  revert s1 s2. induction todo as [|todo IH]; intros s1 s2 Hs B Ho.
  - cbn. now apply sim_prefix.
  - pose proof Hs as (P & _ & _ & _ & I & D & Z).
    pose proof (copy_run_ok (Datatypes.S todo) offset s2 B ltac:(lia)) as O2.
    cbn [copy_run] in *.
    destruct (Nat.leb_spec (decompressed_buffer_size s1)
                           (decompressed_data_index s1)) as [G1|G1].
    { exact (outcome_prefix_stopped s1 s2 _ Hs O2). }
    destruct (Nat.leb_spec (decompressed_buffer_size s2)
                           (decompressed_data_index s2)) as [G2|G2]; [lia|].
    destruct (copy_byte offset s1) as [u1|] eqn:C1; [|exact Logic.I].
    destruct (copy_byte_ok offset s2 B G2) as (u2 & v & C2 & L2 & St2 & B2);
      [lia|].
    rewrite C2.
    assert (St1 : store_output v s1 = Some u1).
    { unfold copy_byte, load_output in C1.
      destruct (Z.ltb_spec (Z.of_nat (decompressed_data_index s1) - offset) 0);
        [lia|].
      replace (Z.to_nat (Z.of_nat (decompressed_data_index s1) - offset))
        with (decompressed_data_index s1 - Z.to_nat offset)%nat in C1 by lia.
      rewrite D in C1 by lia. rewrite I in C1. rewrite L2 in C1. exact C1. }
    apply IH; [eapply sim_store; eassumption|exact B2|].
    destruct (store_output_spec _ _ _ St1) as (_ & I1 & _). lia.
Qed.

Lemma copy_sequence_prefix (length offset : Z) (s1 s2 : state) :
  sim s1 s2 -> state_ok s2 -> 0 <= offset ->
  outcome_prefix (copy_sequence length offset s1)
                 (copy_sequence length offset s2).
Proof.
  intros S B Ho. unfold copy_sequence.
  pose proof S as (_ & _ & _ & _ & I & _).
  rewrite <- I.
  destruct ((offset =? 0) || (Z.of_nat (decompressed_data_index s1) <? offset))
    eqn:Bad.
  - cbn. apply sim_prefix. now apply sim_println.
  - apply orb_false_iff in Bad. destruct Bad as [H0 H1].
    apply Z.eqb_neq in H0. apply Z.ltb_ge in H1.
    apply copy_run_prefix; [exact S|exact B|lia].
Qed.

Lemma decrunch_iteration_prefix (s1 s2 : state) :
  sim s1 s2 -> state_ok s2 ->
  outcome_prefix (decrunch_iteration s1) (decrunch_iteration s2).
Proof.
  intros S B. unfold decrunch_iteration.
  destruct (get_coded_command_val_det s1 s2 (proj1 S)) as [V R];
    [apply S|].
  pose proof (get_coded_command_val_advanced s1) as [M1 _].
  pose proof (get_coded_command_val_advanced s2) as A2.
  destruct (get_coded_command_val s1) as [command_byte t1],
           (get_coded_command_val s2) as [command_byte2 t2].
  cbn [fst snd] in *. subst command_byte2.
  pose proof (sim_moved _ _ _ _ S M1 (proj1 A2) R) as S1.
  pose proof (advanced_state_ok _ _ A2 B) as B1.
  destruct (command_byte =? COMMAND_EOS_MARKER);
    [cbn; now apply sim_prefix|].
  destruct (Z.land command_byte 3 =? 0); [now apply literal_run_prefix|].
  pose proof (read_sequence_sim (Z.land command_byte 3)
                (Z.shiftr command_byte 2) t1 t2 S1) as Q.
  pose proof (read_sequence_ok (Z.land command_byte 3)
                (Z.shiftr command_byte 2) t2 B1) as K.
  destruct (read_sequence (Z.land command_byte 3)
              (Z.shiftr command_byte 2) t1) as [[e1 u1]|[[l1 o1] u1]],
           (read_sequence (Z.land command_byte 3)
              (Z.shiftr command_byte 2) t2) as [[e2 u2]|[[l2 o2] u2]];
    cbn in Q, K; try contradiction.
  - destruct Q as [<- Q]. cbn. now apply sim_prefix.
  - destruct Q as (<- & <- & Q). destruct K as (_ & K & Ho).
    now apply copy_sequence_prefix.
Qed.

(** What a run with less room has written is the beginning of what the
    run with more room has written. *)
Lemma decrunch_loop_prefix (fuel : nat) (s1 s2 : state) e1 t1 e2 t2 :
  sim s1 s2 -> state_ok s2 -> (bits_left s2 < fuel)%nat ->
  decrunch_loop fuel s1 = Finished e1 t1 ->
  decrunch_loop fuel s2 = Finished e2 t2 ->
  prefix_of t1 t2.
Proof.
  revert s1 s2. induction fuel as [|fuel IH]; intros s1 s2 S B Hf R1 R2;
    [lia|].
  pose proof (decrunch_loop_ok (Datatypes.S fuel) s2 B Hf) as K2.
  rewrite R2 in K2. destruct K2 as (E2 & _).
  cbn [decrunch_loop] in R1, R2.
  pose proof S as (_ & _ & _ & _ & I & _ & Z).
  destruct (Nat.leb_spec (decompressed_buffer_size s1)
                         (decompressed_data_index s1)) as [G1|G1].
  { injection R1 as <- <-.
    eapply prefix_evolves; [apply sim_prefix, S|exact E2]. }
  destruct (Nat.leb_spec (decompressed_buffer_size s2)
                         (decompressed_data_index s2)) as [G2|G2]; [lia|].
  pose proof (decrunch_iteration_sim s1 s2 S B) as Q.
  pose proof (decrunch_iteration_prefix s1 s2 S B) as P.
  destruct (decrunch_iteration_ok s2 B) as [O2 St2].
  destruct (decrunch_iteration s1) as [u1|x1 u1|]; [| |discriminate].
  - destruct (Nat.leb_spec (decompressed_buffer_size u1)
                           (decompressed_data_index u1)) as [G|G].
    + (* the first run is full after this round *)
      assert (t1 = u1) as ->.
      { destruct fuel; cbn [decrunch_loop] in R1;
          destruct (Nat.leb_spec (decompressed_buffer_size u1)
                                 (decompressed_data_index u1));
          try lia; congruence. }
      destruct (decrunch_iteration s2) as [u2|x2 u2|]; cbn in P, O2;
        [| |contradiction].
      * specialize (St2 u2 eq_refl). destruct O2 as [_ B2'].
        pose proof (decrunch_loop_ok fuel u2 B2' ltac:(lia)) as K.
        rewrite R2 in K. destruct K as (E & _).
        eapply prefix_evolves; eassumption.
      * injection R2 as <- <-. exact P.
    + cbn in Q. destruct (Q G) as (u2 & Hu & S' & B').
      rewrite Hu in R2, St2. specialize (St2 u2 eq_refl).
      apply (IH u1 u2 S' B' ltac:(lia) R1 R2).
  - destruct Q as (u2 & Hu & S' & B'). rewrite Hu in R2.
    injection R1 as <- <-. injection R2 as <- <-. now apply sim_prefix.
Qed.

(** ** Independence of the lines printed earlier *)

Lemma get_one_bit_printed (p : list string) (s : state) :
  get_one_bit (printed_before p s)
  = (fst (get_one_bit s), printed_before p (snd (get_one_bit s))).
Proof.
  destruct s as [b c d i o sz oi lo t sl].
  unfold get_one_bit, exod_read_byte_from_stream, printed_before. cbn.
  destruct c; [destruct (d !! i)|]; reflexivity.
Qed.

Lemma get_n_bits_loop_printed (p : list string) todo value (s : state) :
  get_n_bits_loop todo value (printed_before p s)
  = (fst (get_n_bits_loop todo value s),
     printed_before p (snd (get_n_bits_loop todo value s))).
Proof.
  revert value s. induction todo as [|todo IH]; intros value s;
    cbn [get_n_bits_loop]; [reflexivity|].
  rewrite get_one_bit_printed. destruct (get_one_bit s) as [bit s1].
  cbn [fst snd]. destruct (bit =? -1); [reflexivity|apply IH].
Qed.

Lemma get_n_bits_printed (p : list string) n (s : state) :
  get_n_bits n (printed_before p s)
  = (fst (get_n_bits n s), printed_before p (snd (get_n_bits n s))).
Proof.
  unfold get_n_bits. destruct (n =? 0); [reflexivity|].
  destruct (16 <? n); [reflexivity|]. apply get_n_bits_loop_printed.
Qed.

Lemma unary_scan_printed (p : list string) fuel c (s : state) :
  unary_scan fuel c (printed_before p s)
  = match unary_scan fuel c s with
    | Some (e, s') => Some (e, printed_before p s')
    | None => None
    end.
Proof.
  revert c s. induction fuel as [|fuel IH]; intros c s; cbn [unary_scan];
    [reflexivity|].
  rewrite get_one_bit_printed. destruct (get_one_bit s) as [bit s1].
  cbn [fst snd]. destruct (bit =? -1); [reflexivity|].
  destruct (bit =? 1); [reflexivity|].
  destruct (16 <? u8 (c + 1)); [reflexivity|apply IH].
Qed.

Lemma get_gamma_coded_value_printed (p : list string) (s : state) :
  get_gamma_coded_value (printed_before p s)
  = (fst (get_gamma_coded_value s),
     printed_before p (snd (get_gamma_coded_value s))).
Proof.
  unfold get_gamma_coded_value. rewrite unary_scan_printed.
  destruct (unary_scan 17 0 s) as [[[| |c] s1]|]; try reflexivity.
  destruct (c =? 0); [reflexivity|]. rewrite get_n_bits_printed.
  destruct (get_n_bits c s1) as [r s2]. cbn [fst snd].
  destruct (u16 r =? u16 (-1)); reflexivity.
Qed.

Lemma table_at_printed (p : list string) i (s : state) :
  table_at i (printed_before p s) = table_at i s.
Proof. reflexivity. Qed.

Lemma get_coded_command_val_printed (p : list string) (s : state) :
  get_coded_command_val (printed_before p s)
  = (fst (get_coded_command_val s),
     printed_before p (snd (get_coded_command_val s))).
Proof.
  unfold get_coded_command_val.
  repeat (rewrite get_one_bit_printed;
          match goal with
          | |- context [get_one_bit ?x] => destruct (get_one_bit x) as [? ?]
          end; cbn [fst snd];
          match goal with
          | |- context [if ?b =? -1 then _ else _] =>
              destruct (b =? -1); [reflexivity|];
              destruct (b =? 0);
              [rewrite get_n_bits_printed;
               match goal with
               | |- context [get_n_bits ?n ?x] =>
                   destruct (get_n_bits n x) as [? ?]
               end; cbn [fst snd];
               match goal with
               | |- context [if ?i =? -1 then _ else _] =>
                   destruct (i =? -1); reflexivity
               end|]
          end).
  reflexivity.
Qed.

Lemma store_output_printed (p : list string) v (s : state) :
  store_output v (printed_before p s)
  = option_map (printed_before p) (store_output v s).
Proof.
  destruct s. unfold store_output, printed_before. cbn.
  match goal with |- context [if ?c then _ else _] => destruct c end;
    reflexivity.
Qed.

Lemma literal_run_printed (p : list string) todo (s : state) :
  literal_run todo (printed_before p s)
  = outcome_printed_before p (literal_run todo s).
Proof.
  revert s. induction todo as [|todo IH]; intros s; cbn [literal_run];
    [reflexivity|].
  change (decompressed_buffer_size (printed_before p s))
    with (decompressed_buffer_size s).
  change (decompressed_data_index (printed_before p s))
    with (decompressed_data_index s).
  destruct (decompressed_buffer_size s <=? decompressed_data_index s)%nat;
    [reflexivity|].
  rewrite get_n_bits_printed. destruct (get_n_bits 8 s) as [b s1].
  cbn [fst snd]. destruct (b =? -1); [reflexivity|].
  rewrite store_output_printed.
  destruct (store_output (u8 b) s1); cbn [option_map]; [apply IH|reflexivity].
Qed.

Lemma copy_byte_printed (p : list string) offset (s : state) :
  copy_byte offset (printed_before p s)
  = option_map (printed_before p) (copy_byte offset s).
Proof.
  unfold copy_byte.
  change (load_output ?a (printed_before p s)) with (load_output a s).
  change (decompressed_data_index (printed_before p s))
    with (decompressed_data_index s).
  destruct (load_output _ s); [apply store_output_printed|reflexivity].
Qed.

Lemma copy_run_printed (p : list string) todo offset (s : state) :
  copy_run todo offset (printed_before p s)
  = outcome_printed_before p (copy_run todo offset s).
Proof.
  revert s. induction todo as [|todo IH]; intros s; cbn [copy_run];
    [reflexivity|].
  change (decompressed_buffer_size (printed_before p s))
    with (decompressed_buffer_size s).
  change (decompressed_data_index (printed_before p s))
    with (decompressed_data_index s).
  destruct (decompressed_buffer_size s <=? decompressed_data_index s)%nat;
    [reflexivity|].
  rewrite copy_byte_printed.
  destruct (copy_byte offset s); cbn [option_map]; [apply IH|reflexivity].
Qed.

Lemma copy_sequence_printed (p : list string) length offset (s : state) :
  copy_sequence length offset (printed_before p s)
  = outcome_printed_before p (copy_sequence length offset s).
Proof.
  unfold copy_sequence.
  change (decompressed_data_index (printed_before p s))
    with (decompressed_data_index s).
  destruct ((offset =? 0) || (Z.of_nat (decompressed_data_index s) <? offset)).
  - destruct s. unfold Serial_println, printed_before, outcome_printed_before.
    cbn. now rewrite <- app_assoc.
  - apply copy_run_printed.
Qed.

Lemma read_sequence_printed (p : list string) type v (s : state) :
  read_sequence type v (printed_before p s)
  = match read_sequence type v s with
    | inl (e, s') => inl (e, printed_before p s')
    | inr (l, o, s') => inr (l, o, printed_before p s')
    end.
Proof.
  unfold read_sequence.
  destruct (type =? 1);
    [rewrite get_n_bits_printed; destruct (get_n_bits v s) as [raw s1];
     cbn [fst snd]; destruct (raw =? -1); reflexivity|].
  destruct (type =? 2);
    [rewrite get_n_bits_printed; destruct (get_n_bits v s) as [raw s1];
     cbn [fst snd]; destruct (raw =? -1); reflexivity|].
  rewrite get_gamma_coded_value_printed.
  destruct (get_gamma_coded_value s) as [len s1]. cbn [fst snd].
  destruct (len =? 0); [reflexivity|].
  rewrite get_one_bit_printed. destruct (get_one_bit s1) as [bit s2].
  cbn [fst snd]. destruct (bit =? -1); [reflexivity|].
  destruct (bit =? 1); [reflexivity|].
  rewrite get_gamma_coded_value_printed.
  destruct (get_gamma_coded_value s2) as [off s3]. cbn [fst snd].
  destruct (off =? 0); reflexivity.
Qed.

Lemma decrunch_iteration_printed (p : list string) (s : state) :
  decrunch_iteration (printed_before p s)
  = outcome_printed_before p (decrunch_iteration s).
Proof.
  unfold decrunch_iteration. rewrite get_coded_command_val_printed.
  destruct (get_coded_command_val s) as [command_byte s1]. cbn [fst snd].
  destruct (command_byte =? COMMAND_EOS_MARKER); [reflexivity|].
  destruct (Z.land command_byte 3 =? 0); [apply literal_run_printed|].
  rewrite read_sequence_printed.
  destruct (read_sequence _ _ s1) as [[e s2]|[[l o] s2]];
    [reflexivity|apply copy_sequence_printed].
Qed.

Lemma decrunch_loop_printed (p : list string) fuel (s : state) :
  decrunch_loop fuel (printed_before p s)
  = verdict_printed_before p (decrunch_loop fuel s).
Proof.
  revert s. induction fuel as [|fuel IH]; intros s; cbn [decrunch_loop];
  change (decompressed_buffer_size (printed_before p s))
    with (decompressed_buffer_size s);
  change (decompressed_data_index (printed_before p s))
    with (decompressed_data_index s);
  (destruct (decompressed_buffer_size s <=? decompressed_data_index s)%nat;
    [reflexivity|]); [reflexivity|].
  rewrite decrunch_iteration_printed.
  destruct (decrunch_iteration s); cbn [outcome_printed_before];
    [apply IH|reflexivity..].
Qed.

(** Whatever the variables held before the call, the run is the run of the
    freshly started sketch; only the lines printed earlier stay. *)
Lemma exod_decrunch_from_boot (g : state) in_data out_buffer cap :
  length (exod_decrunch_table_data g) = 145%nat ->
  exod_decrunch g in_data out_buffer cap
  = verdict_printed_before (serial g)
      (exod_decrunch boot in_data out_buffer cap).
Proof.
  intros H. unfold exod_decrunch.
  rewrite (exod_decrunch_reset_canonical g) by exact H.
  rewrite (exod_decrunch_reset_canonical boot) by reflexivity.
  rewrite <- decrunch_loop_printed. f_equal.
  unfold printed_before. cbn. now rewrite app_nil_r.
Qed.

(** ** Truncation *)

Lemma exod_decrunch_reset_table (g : state) in_data out_buffer cap :
  exod_decrunch_table_data (exod_decrunch_reset g in_data out_buffer cap)
  = build_table (exod_decrunch_table_data g).
Proof.
  unfold exod_decrunch_reset, init_decrunch_table.
  cbn [set_table exod_decrunch_table_data]. reflexivity.
Qed.

Lemma exod_decrunch_reset_sim (g : state) in_data out1 out2 cap1 cap2 :
  (cap1 <= cap2)%nat ->
  sim (exod_decrunch_reset g in_data out1 cap1)
      (exod_decrunch_reset g in_data out2 cap2).
Proof.
  intros H.
  destruct (exod_decrunch_reset_spec g in_data out1 cap1)
    as (P1 & _ & D1 & Z1 & I1 & L1 & S1).
  destruct (exod_decrunch_reset_spec g in_data out2 cap2)
    as (P2 & _ & D2 & Z2 & I2 & L2 & S2).
  unfold sim. rewrite !exod_decrunch_reset_table.
  rewrite P1, P2, Z1, Z2, I1, I2, L1, L2, S1, S2.
  split; [reflexivity|]. split; [reflexivity|]. split; [reflexivity|].
  split; [reflexivity|]. split; [reflexivity|]. split; [|exact H].
  intros j Hj. inversion Hj.
Qed.

(** If a run with capacity [cap2] writes more than [cap1] bytes, the run
    with capacity [cap1] stops at the loop condition with exactly [cap1]
    bytes written. *)
Lemma exod_decrunch_truncated
    (g : state) in_data out1 out2 (cap1 cap2 : nat) e2 t2 :
  (cap1 <= length out1)%nat -> (cap2 <= length out2)%nat ->
  (cap1 <= cap2)%nat ->
  exod_decrunch g in_data out2 cap2 = Finished e2 t2 ->
  (cap1 < decompressed_data_index t2)%nat ->
  exists t1, exod_decrunch g in_data out1 cap1 = Finished ExitBufferFull t1
             /\ decompressed_data_index t1 = cap1.
Proof.
  intros H1 H2 Hc R2 Hl.
  pose proof (exod_decrunch_ok g in_data out1 cap1 H1) as K1.
  destruct (exod_decrunch g in_data out1 cap1) as [e1 t1| |] eqn:R1;
    unfold verdict_ok in K1; try contradiction.
  destruct K1 as ((_ & Z & _) & B & F).
  destruct (exod_decrunch_reset_spec g in_data out1 cap1)
    as (_ & _ & _ & Z1 & _).
  destruct e1; try (exfalso;
    unfold exod_decrunch in R1, R2;
    destruct (decrunch_loop_sim _ _ _ _ _
                (exod_decrunch_reset_sim g in_data out1 out2 cap1 cap2 Hc)
                (exod_decrunch_reset_ok g in_data out2 cap2 H2) R1
                ltac:(discriminate)) as (t2' & R2' & S);
    rewrite R2 in R2'; injection R2' as _ <-;
    destruct S as (_ & _ & _ & _ & I & _);
    destruct B as (_ & ? & _); lia).
  exists t1. split; [reflexivity|]. rewrite F by reflexivity. congruence.
Qed.

(** The bytes a call writes are the first bytes a call with more room
    writes. *)
Lemma exod_decrunch_prefix
    (g : state) in_data out1 out2 (cap1 cap2 : nat) e1 t1 e2 t2 :
  (cap2 <= length out2)%nat -> (cap1 <= cap2)%nat ->
  exod_decrunch g in_data out1 cap1 = Finished e1 t1 ->
  exod_decrunch g in_data out2 cap2 = Finished e2 t2 ->
  take (decompressed_data_index t1) (decompressed_data t1)
  = take (decompressed_data_index t1) (decompressed_data t2).
Proof.
  intros H2 Hc R1 R2. unfold exod_decrunch in R1, R2.
  assert (P : prefix_of t1 t2).
  { eapply decrunch_loop_prefix; [| | |exact R1|exact R2].
    - now apply exod_decrunch_reset_sim.
    - now apply exod_decrunch_reset_ok.
    - destruct (exod_decrunch_reset_spec g in_data out2 cap2)
        as (_ & -> & _). lia. }
  destruct P as [_ D]. apply list_eq. intros j.
  rewrite !lookup_take. case_decide; [now apply D|reflexivity].
Qed.

(** ** The copy loop *)

(** The copy loop writes byte after byte, each the byte [offset] places
    before it as the array is then; it stops at the capacity. *)
Lemma copy_run_spec (todo : nat) (offset : Z) (s : state) :
  state_ok s ->
  1 <= offset <= Z.of_nat (decompressed_data_index s) ->
  exists s',
    copy_run todo offset s = Next s'
    /\ decompressed_data_index s'
       = Nat.min (decompressed_data_index s + todo)
                 (decompressed_buffer_size s)
    /\ evolves s s'
    /\ pending_bits s' = pending_bits s
    /\ last_offset_val s' = last_offset_val s
    /\ serial s' = serial s
    /\ (forall j : nat,
          (decompressed_data_index s <= j < decompressed_data_index s')%nat ->
          decompressed_data s' !! j
          = decompressed_data s' !! (j - Z.to_nat offset)%nat
          /\ is_Some (decompressed_data s' !! j)).
Proof.
  revert s. induction todo as [|todo IH]; intros s B Ho; cbn [copy_run].
  - exists s. pose proof B as (_ & ? & _).
    repeat split; try apply evolves_refl; try lia.
  - destruct (Nat.leb_spec (decompressed_buffer_size s)
                           (decompressed_data_index s)) as [G|G].
    + exists s. pose proof B as (_ & ? & _).
      repeat split; try apply evolves_refl; try lia.
    + destruct (copy_byte_ok offset s B G Ho) as (s1 & v & C & L & St & B1).
      rewrite C.
      destruct (store_output_spec _ _ _ St) as (E1 & I1 & V1 & P1 & L1 & S1).
      destruct (IH s1 B1 ltac:(lia)) as (s' & R & I' & E' & P' & L' & S' & W).
      pose proof E1 as (_ & Z1 & _ & _ & F1 & _).
      pose proof E' as (_ & _ & _ & Hge & F' & _).
      exists s'. split; [exact R|]. split; [lia|].
      split; [eapply evolves_trans; eassumption|].
      split; [congruence|]. split; [congruence|]. split; [congruence|].
      intros j Hj.
      destruct (Nat.eq_dec j (decompressed_data_index s)) as [->|Hne].
      * rewrite !F' by lia. rewrite V1.
        rewrite F1 by lia. rewrite L. split; [reflexivity|eauto].
      * apply W. lia.
Qed.

(** ** The run on the test data *)

Lemma hello_room_for_more (g : state) (out_buffer : list Z) (cap : nat) :
  length (exod_decrunch_table_data g) = 145%nat ->
  (6 <= cap <= length out_buffer)%nat ->
  exists s5 s6 s,
    decrunch_iteration (exod_decrunch_reset g demo_crunched_data out_buffer cap)
    = Next s5
    /\ pending_bits s5
       = [true; true; true; true; false; false; false; false; false; false]
    /\ get_coded_command_val s5 = (3, s6)
    /\ unary_scan 17 0 s6 = Some (UnaryEOS, s)
    /\ exod_decrunch g demo_crunched_data out_buffer cap
       = Finished ExitGammaLength s
    /\ pending_bits s = []
    /\ decompressed_data_index s = 5%nat
    /\ take 5 (decompressed_data s) = hello
    /\ drop 5 (decompressed_data s) = drop 5 out_buffer
    /\ serial s = serial g.
Proof.
  intros Ht [Hc Hl]. unfold exod_decrunch.
  rewrite exod_decrunch_reset_canonical by exact Ht.
  do 6 (destruct out_buffer as [|? out_buffer]; [cbn in Hl; lia|]).
  do 6 (destruct cap as [|cap]; [lia|]). clear Hc Hl Ht.
  set (written := 72 :: 101 :: 108 :: 108 :: 111 :: z4 :: out_buffer).
  set (room := S (S (S (S (S (S cap)))))).
  exists (State 192 2 demo_crunched_data 6 written room 5 0
                canonical_table (serial g)),
         (State 0 6 demo_crunched_data 7 written room 5 0
                canonical_table (serial g)),
         (State 0 0 demo_crunched_data 7 written room 5 0
                canonical_table (serial g)).
  subst written room.
  repeat match goal with |- _ /\ _ => split end;
    vm_compute; reflexivity.
Qed.

Lemma hello_exact_room (g : state) (out_buffer : list Z) :
  length (exod_decrunch_table_data g) = 145%nat ->
  (5 <= length out_buffer)%nat ->
  exists s,
    exod_decrunch g demo_crunched_data out_buffer 5
    = Finished ExitBufferFull s
    /\ pending_bits s
       = [true; true; true; true; false; false; false; false; false; false]
    /\ decompressed_data_index s = 5%nat
    /\ take 5 (decompressed_data s) = hello
    /\ drop 5 (decompressed_data s) = drop 5 out_buffer
    /\ serial s = serial g.
Proof.
  intros Ht Hl. unfold exod_decrunch.
  rewrite exod_decrunch_reset_canonical by exact Ht.
  do 5 (destruct out_buffer as [|? out_buffer]; [cbn in Hl; lia|]).
  clear Hl Ht.
  exists (State 192 2 demo_crunched_data 6
                (72 :: 101 :: 108 :: 108 :: 111 :: out_buffer) 5 5 0
                canonical_table (serial g)).
  repeat match goal with |- _ /\ _ => split end;
    vm_compute; reflexivity.
Qed.

(** ** Sequences *)

(** The variables a sequence command leaves alone while it is read. *)
Lemma read_sequence_output (type v : Z) (s : state) :
  match read_sequence type v s with
  | inl (_, s') | inr (_, _, s') =>
      decompressed_data s' = decompressed_data s
      /\ decompressed_data_index s' = decompressed_data_index s
      /\ decompressed_buffer_size s' = decompressed_buffer_size s
      /\ serial s' = serial s
  end.
Proof.
  assert (K : forall t, reader_moved s t ->
            decompressed_data t = decompressed_data s
            /\ decompressed_data_index t = decompressed_data_index s
            /\ decompressed_buffer_size t = decompressed_buffer_size s
            /\ serial t = serial s).
  { intros t (_ & D & Z & I & _ & _ & S). auto. }
  unfold read_sequence.
  pose proof (get_n_bits_moved v s) as N.
  destruct (type =? 1);
    [destruct (get_n_bits v s) as [raw s1]; destruct (raw =? -1);
     apply K, N|].
  destruct (type =? 2);
    [destruct (get_n_bits v s) as [raw s1]; destruct (raw =? -1);
     apply K, N|].
  pose proof (get_gamma_coded_value_advanced s) as [M1 _].
  destruct (get_gamma_coded_value s) as [len s1]. cbn [snd] in M1.
  destruct (len =? 0); [apply K, M1|].
  pose proof (get_one_bit_stream s1) as (_ & _ & M2).
  destruct (get_one_bit s1) as [bit s2]. cbn [snd] in M2.
  pose proof (reader_moved_trans _ _ _ M1 M2) as M12.
  destruct (bit =? -1); [apply K, M12|].
  destruct (bit =? 1); [apply K, M12|].
  pose proof (get_gamma_coded_value_advanced s2) as [M3 _].
  destruct (get_gamma_coded_value s2) as [off s3]. cbn [snd] in M3.
  pose proof (reader_moved_trans _ _ _ M12 M3) as M123.
  destruct (off =? 0); [apply K, M123|].
  destruct (K s3 M123) as (? & ? & ? & ?). destruct s3. cbn in *. auto.
Qed.

Lemma copy_run_keeps_last_offset (todo : nat) (offset : Z) (s s' : state) :
  copy_run todo offset s = Next s' -> last_offset_val s' = last_offset_val s.
Proof.
  revert s. induction todo as [|todo IH]; intros s; cbn [copy_run].
  - now intros [= <-].
  - destruct (decompressed_buffer_size s <=? decompressed_data_index s)%nat;
      [now intros [= <-]|].
    unfold copy_byte. destruct (load_output _ s) as [v|]; [|discriminate].
    destruct (store_output v s) as [s1|] eqn:St; [|discriminate].
    destruct (store_output_spec _ _ _ St) as (_ & _ & _ & _ & L & _).
    intros H. rewrite (IH _ H). exact L.
Qed.

Lemma copy_sequence_keeps_last_offset (length offset : Z) (s s' : state) :
  copy_sequence length offset s = Next s' ->
  last_offset_val s' = last_offset_val s.
Proof.
  unfold copy_sequence. destruct (_ || _); [discriminate|].
  apply copy_run_keeps_last_offset.
Qed.

(** A gamma sequence whose reuse bit is 0: the offset is read and stored. *)
Lemma read_sequence_new_offset (v g d : Z) (s sa sb sc : state) :
  get_gamma_coded_value s = (g, sa) -> g <> 0 ->
  get_one_bit sa = (0, sb) ->
  get_gamma_coded_value sb = (d, sc) -> d <> 0 ->
  read_sequence 3 v s = inr (u16 (g + 3), d, set_last_offset_val d sc).
Proof.
  intros H1 Hg H2 H3 Hd. unfold read_sequence. cbn [Z.eqb Pos.eqb].
  rewrite H1. destruct (Z.eqb_spec g 0); [contradiction|].
  rewrite H2. cbn [Z.eqb]. rewrite H3.
  destruct (Z.eqb_spec d 0); [contradiction|]. reflexivity.
Qed.

(** A gamma sequence whose reuse bit is 1: the offset is the stored one. *)
Lemma read_sequence_reuse (v g : Z) (s sa sb : state) :
  get_gamma_coded_value s = (g, sa) -> g <> 0 ->
  get_one_bit sa = (1, sb) ->
  read_sequence 3 v s = inr (u16 (g + 3), last_offset_val s, sb).
Proof.
  intros H1 Hg H2. unfold read_sequence. cbn [Z.eqb Pos.eqb].
  rewrite H1. destruct (Z.eqb_spec g 0); [contradiction|].
  rewrite H2. cbn [Z.eqb Pos.eqb].
  pose proof (get_gamma_coded_value_advanced s) as [(_ & _ & _ & _ & L1 & _) _].
  pose proof (get_one_bit_stream sa) as (_ & _ & (_ & _ & _ & _ & L2 & _)).
  rewrite H1 in L1. rewrite H2 in L2. cbn [snd] in L1, L2.
  now rewrite L2, L1.
Qed.

(** A round of the loop whose command is a gamma sequence. *)
Lemma decrunch_iteration_gamma (cmd : Z) (s s0 : state) :
  get_coded_command_val s = (cmd, s0) ->
  cmd <> COMMAND_EOS_MARKER -> Z.land cmd 3 = 3 ->
  decrunch_iteration s
  = match read_sequence 3 (Z.shiftr cmd 2) s0 with
    | inl (e, s2) => Return e s2
    | inr (length, offset, s2) => copy_sequence length offset s2
    end.
Proof.
  intros H1 Hc Hl. unfold decrunch_iteration. rewrite H1.
  destruct (Z.eqb_spec cmd COMMAND_EOS_MARKER); [contradiction|].
  rewrite Hl. reflexivity.
Qed.

Lemma copy_sequence_invalid (length offset : Z) (s : state) :
  offset = 0 \/ Z.of_nat (decompressed_data_index s) < offset ->
  copy_sequence length offset s
  = Return ExitInvalidOffset (Serial_println "Error: Invalid offset" s).
Proof.
  intros H. unfold copy_sequence.
  destruct (Z.eqb_spec offset 0); [reflexivity|].
  destruct (Z.ltb_spec (Z.of_nat (decompressed_data_index s)) offset);
    [reflexivity|lia].
Qed.

(** ** The worked cases are reached *)

Example before_first_copy_reached :
  decrunch_iteration (exod_decrunch_reset boot reuse_demo (replicate 16 0) 16)
  = Next before_first_copy.
Proof. vm_compute. reflexivity. Qed.

Example after_command_reads_1111 :
  get_coded_command_val
    (exod_decrunch_reset boot [240; 0; 0; 0] (replicate 16 0) 16)
  = (3, after_command [240; 0; 0; 0])
  /\ pending_bits (after_command [240; 0; 0; 0]) = replicate 28 false
  /\ pending_bits (after_command [240]) = replicate 4 false.
Proof.
  repeat match goal with |- _ /\ _ => split end; vm_compute; reflexivity.
Qed.

(** * The statements of the specification *)

(** C1, as stated, fails at capacity 5: the five bytes are written, the
    loop condition ends the call, and the command 1111 that follows is
    never read; nothing is exhausted. *)
Lemma hello_capacity_5_stops_at_loop_condition :
  exists s,
    exod_decrunch boot demo_crunched_data (replicate 5 0) 5
    = Finished ExitBufferFull s
    /\ decompressed_data s = hello
    /\ pending_bits s
       = [true; true; true; true; false; false; false; false; false; false].
Proof.
  exists (State 192 2 demo_crunched_data 6 hello 5 5 0 canonical_table []).
  repeat match goal with |- _ /\ _ => split end; vm_compute; reflexivity.
Qed.

(** C1, amended.  Decoding [demo_crunched_data] with a capacity of at least
    5 writes exactly the five bytes of "Hello" and leaves the rest of the
    array alone.  With a capacity of at least 6 the call then reads the
    command 1111, which selects [table[144]], the gamma sequence, and ends
    because the input runs out in the unary part of the length; there is no
    terminator in the stream.  With capacity 5 the call ends at the loop
    condition. *)
Theorem demo_crunched_data_decodes
    (g : state) (out_buffer : list Z) (cap : nat) :
  length (exod_decrunch_table_data g) = 145%nat ->
  (5 <= cap <= length out_buffer)%nat ->
  exists e s,
    exod_decrunch g demo_crunched_data out_buffer cap = Finished e s
    /\ decompressed_data_index s = 5%nat
    /\ take 5 (decompressed_data s) = hello
    /\ drop 5 (decompressed_data s) = drop 5 out_buffer
    /\ serial s = serial g
    /\ (cap = 5%nat -> e = ExitBufferFull)
    /\ ((6 <= cap)%nat ->
        e = ExitGammaLength /\ pending_bits s = []
        /\ exists s5 s6,
             decrunch_iteration
               (exod_decrunch_reset g demo_crunched_data out_buffer cap)
             = Next s5
             /\ pending_bits s5
                = [true; true; true; true;
                   false; false; false; false; false; false]
             /\ spec_table_index (pending_bits s5)
                = Some (144, replicate 6 false)
             /\ get_coded_command_val s5 = (3, s6)
             /\ unary_scan 17 0 s6 = Some (UnaryEOS, s)).
Proof.
  intros Ht [Hc Hl]. destruct (Nat.eq_dec cap 5%nat) as [->|Hne].
  - destruct (hello_exact_room g out_buffer Ht Hl)
      as (s & R & P & I & T & D & S).
    exists ExitBufferFull, s. repeat split; auto. all: lia.
  - destruct (hello_room_for_more g out_buffer cap Ht ltac:(lia))
      as (s5 & s6 & s & N & P5 & C & U & R & P & I & T & D & S).
    exists ExitGammaLength, s. repeat split; auto; try lia.
    exists s5, s6. rewrite P5. auto.
Qed.

Lemma demo_crunched_data_decodes_witness :
  exists e s,
    exod_decrunch boot demo_crunched_data (replicate 256 0) 256
    = Finished e s
    /\ decompressed_data_index s = 5%nat
    /\ take 5 (decompressed_data s) = hello
    /\ drop 5 (decompressed_data s) = drop 5 (replicate 256 0)
    /\ serial s = serial boot
    /\ (256%nat = 5%nat -> e = ExitBufferFull)
    /\ ((6 <= 256)%nat ->
        e = ExitGammaLength /\ pending_bits s = []
        /\ exists s5 s6,
             decrunch_iteration
               (exod_decrunch_reset boot demo_crunched_data
                  (replicate 256 0) 256)
             = Next s5
             /\ pending_bits s5
                = [true; true; true; true;
                   false; false; false; false; false; false]
             /\ spec_table_index (pending_bits s5)
                = Some (144, replicate 6 false)
             /\ get_coded_command_val s5 = (3, s6)
             /\ unary_scan 17 0 s6 = Some (UnaryEOS, s)).
Proof.
  apply (demo_crunched_data_decodes boot (replicate 256 0) 256).
  - reflexivity.
  - rewrite length_replicate. lia.
Defined.

(** C2, as stated, fails in its second part: a reuse bit before any offset
    was stored takes the stored value 0 as the offset and ends the call at
    the invalid-offset test, with the line "Error: Invalid offset"; the
    caller sees what it sees for a copy from before the start of the
    output, and no error kind of its own. *)
Lemma reuse_without_offset_is_invalid_offset :
  decode_result (exod_decrunch boot reuse_first (replicate 16 0) 16)
  = Some (ExitInvalidOffset, 0%nat, replicate 16 0,
          ["Error: Invalid offset"])
  /\ decode_result (exod_decrunch boot reuse_first (replicate 16 0) 16)
     = decode_result (exod_decrunch boot copy_first (replicate 16 0) 16).
Proof. split; vm_compute; reflexivity. Qed.

(** C2, amended.  When a gamma sequence with reuse bit 0 reads a new offset
    [d], it copies with [d] and stores it, and a gamma sequence with reuse
    bit 1 that follows at once copies with the same [d].  A gamma sequence
    with reuse bit 1 when no offset has been stored ([last_offset_val] is
    still 0) ends the call at the invalid-offset test, the one that rejects
    every bad back-reference, with the line "Error: Invalid offset" and
    with the output as it was. *)
Theorem gamma_copy_reuse
    (s s0 sa sb sc s2 s3 sa' sb' : state) (cmd g d cmd' g' : Z)
    (t t0 ta tb : state) (cmdt gt : Z) :
  get_coded_command_val s = (cmd, s0) ->
  cmd <> COMMAND_EOS_MARKER -> Z.land cmd 3 = 3 ->
  get_gamma_coded_value s0 = (g, sa) -> g <> 0 ->
  get_one_bit sa = (0, sb) ->
  get_gamma_coded_value sb = (d, sc) -> d <> 0 ->
  copy_sequence (u16 (g + 3)) d (set_last_offset_val d sc) = Next s2 ->
  get_coded_command_val s2 = (cmd', s3) ->
  cmd' <> COMMAND_EOS_MARKER -> Z.land cmd' 3 = 3 ->
  get_gamma_coded_value s3 = (g', sa') -> g' <> 0 ->
  get_one_bit sa' = (1, sb') ->
  last_offset_val t = 0 ->
  get_coded_command_val t = (cmdt, t0) ->
  cmdt <> COMMAND_EOS_MARKER -> Z.land cmdt 3 = 3 ->
  get_gamma_coded_value t0 = (gt, ta) -> gt <> 0 ->
  get_one_bit ta = (1, tb) ->
  decrunch_iteration s
  = copy_sequence (u16 (g + 3)) d (set_last_offset_val d sc)
  /\ last_offset_val s2 = d
  /\ decrunch_iteration s2 = copy_sequence (u16 (g' + 3)) d sb'
  /\ decrunch_iteration t
     = Return ExitInvalidOffset (Serial_println "Error: Invalid offset" tb)
  /\ decompressed_data tb = decompressed_data t
  /\ decompressed_data_index tb = decompressed_data_index t.
Proof.
  intros H1 Hc Hl H2 Hg H3 H4 Hd C H5 Hc' Hl' H6 Hg' H7
         Lt H8 Hct Hlt H9 Hgt H10.
  assert (L2 : last_offset_val s2 = d).
  { rewrite (copy_sequence_keeps_last_offset _ _ _ _ C).
    destruct sc. reflexivity. }
  split; [|split; [exact L2|split]].
  - rewrite (decrunch_iteration_gamma cmd s s0 H1 Hc Hl).
    now rewrite (read_sequence_new_offset _ g d s0 sa sb sc).
  - rewrite (decrunch_iteration_gamma cmd' s2 s3 H5 Hc' Hl').
    rewrite (read_sequence_reuse _ g' s3 sa' sb' H6 Hg' H7).
    pose proof (get_coded_command_val_advanced s2)
      as [(_ & _ & _ & _ & L & _) _].
    rewrite H5 in L. cbn [snd] in L. now rewrite L, L2.
  - rewrite (decrunch_iteration_gamma cmdt t t0 H8 Hct Hlt).
    rewrite (read_sequence_reuse _ gt t0 ta tb H9 Hgt H10).
    pose proof (get_coded_command_val_advanced t)
      as [(_ & D1 & _ & I1 & L & _) _].
    rewrite H8 in D1, I1, L. cbn [snd] in D1, I1, L. rewrite L, Lt.
    split; [now apply copy_sequence_invalid; left|].
    pose proof (get_gamma_coded_value_advanced t0)
      as [(_ & D2 & _ & I2 & _) _].
    rewrite H9 in D2, I2. cbn [snd] in D2, I2.
    pose proof (get_one_bit_stream ta) as (_ & _ & (_ & D3 & _ & I3 & _)).
    rewrite H10 in D3, I3. cbn [snd] in D3, I3.
    split; congruence.
Qed.

Lemma gamma_copy_reuse_witness :
  let s0 := snd (get_coded_command_val before_first_copy) in
  let sa := snd (get_gamma_coded_value s0) in
  let sb := snd (get_one_bit sa) in
  let sc := snd (get_gamma_coded_value sb) in
  let s2 := State 224 3 reuse_demo 3 ([65; 65; 65; 65; 65] ++ replicate 11 0)
                  16 5 1 canonical_table [] in
  let s3 := snd (get_coded_command_val s2) in
  let sa' := snd (get_gamma_coded_value s3) in
  let sb' := snd (get_one_bit sa') in
  let t0 := snd (get_coded_command_val before_reuse_first) in
  let ta := snd (get_gamma_coded_value t0) in
  let tb := snd (get_one_bit ta) in
  decrunch_iteration before_first_copy
  = copy_sequence (u16 (1 + 3)) 1 (set_last_offset_val 1 sc)
  /\ last_offset_val s2 = 1
  /\ decrunch_iteration s2 = copy_sequence (u16 (1 + 3)) 1 sb'
  /\ decrunch_iteration before_reuse_first
     = Return ExitInvalidOffset (Serial_println "Error: Invalid offset" tb)
  /\ decompressed_data tb = decompressed_data before_reuse_first
  /\ decompressed_data_index tb
     = decompressed_data_index before_reuse_first.
Proof.
  intros s0 sa sb sc s2 s3 sa' sb' t0 ta tb.
  apply (gamma_copy_reuse before_first_copy s0 sa sb sc s2 s3 sa' sb'
           3 1 1 3 1 before_reuse_first t0 ta tb 3 1).
  all: try discriminate.
  all: vm_compute; reflexivity.
Defined.

(** C3.  The gamma decoder at a unary prefix of sixteen zero bits: the
    stream holds [k = 16] zeros, a one and sixteen payload bits of value 1;
    the specified result is [(1 << 16) | 1 = 65537], the decoder returns
    [1], as its 16-bit result cannot hold the leading one. *)
Theorem get_gamma_coded_value_sixteen_zeros :
  pending_bits gamma_17_bits
  = replicate 16 false ++ true :: (replicate 15 false ++ [true])
    ++ replicate 7 false
  /\ fst (get_gamma_coded_value gamma_17_bits) = 1
  /\ Z.lor (Z.shiftl 1 16) (bits_value (replicate 15 false ++ [true]))
     = 65537.
Proof.
  repeat match goal with |- _ /\ _ => split end; vm_compute; reflexivity.
Qed.

(** C4, as stated, fails: a unary prefix of more than sixteen zeros and an
    input that runs out inside the prefix end the scan at two different
    places, but the decoder returns 0 for both and the caller is left with
    the same exit, the same output and nothing printed. *)
Lemma overflow_and_exhaustion_look_alike :
  option_map fst (unary_scan 17 0 (after_command [240; 0; 0; 0]))
  = Some UnaryOverflow
  /\ option_map fst (unary_scan 17 0 (after_command [240])) = Some UnaryEOS
  /\ decode_result (exod_decrunch boot [240; 0; 0; 0] (replicate 16 0) 16)
     = decode_result (exod_decrunch boot [240] (replicate 16 0) 16)
  /\ decode_result (exod_decrunch boot [240] (replicate 16 0) 16)
     = Some (ExitGammaLength, 0%nat, replicate 16 0, []).
Proof.
  repeat match goal with |- _ /\ _ => split end; vm_compute; reflexivity.
Qed.

(** C4, amended.  When the unary prefix is longer than sixteen zeros the
    gamma decoder returns 0, and it returns 0 as well when the input runs
    out inside the prefix; a gamma sequence whose length is decoded as 0
    ends the call at the same [return] in both cases. *)
Theorem gamma_failures_return_zero
    (s1 s2 : state) (k : nat) (r : list bool) (v : Z) :
  pending_bits s1 = replicate 17 false ++ r ->
  pending_bits s2 = replicate k false -> (k <= 16)%nat ->
  fst (get_gamma_coded_value s1) = 0
  /\ fst (get_gamma_coded_value s2) = 0
  /\ read_sequence 3 v s1
     = inl (ExitGammaLength, snd (get_gamma_coded_value s1))
  /\ read_sequence 3 v s2
     = inl (ExitGammaLength, snd (get_gamma_coded_value s2)).
Proof.
  intros H1 H2 Hk.
  destruct (get_gamma_coded_value_overflow r s1 H1) as (t1 & G1 & _).
  destruct (get_gamma_coded_value_eos_unary k s2 H2 Hk) as (t2 & G2 & _).
  unfold read_sequence. cbn [Z.eqb Pos.eqb]. rewrite G1, G2. cbn.
  repeat split.
Qed.

Lemma gamma_failures_return_zero_witness :
  fst (get_gamma_coded_value (after_command [240; 0; 0; 0])) = 0
  /\ fst (get_gamma_coded_value (after_command [240])) = 0
  /\ read_sequence 3 0 (after_command [240; 0; 0; 0])
     = inl (ExitGammaLength,
            snd (get_gamma_coded_value (after_command [240; 0; 0; 0])))
  /\ read_sequence 3 0 (after_command [240])
     = inl (ExitGammaLength, snd (get_gamma_coded_value (after_command [240]))).
Proof.
  apply (gamma_failures_return_zero
           (after_command [240; 0; 0; 0]) (after_command [240]) 4
           (replicate 11 false) 0).
  - vm_compute. reflexivity.
  - vm_compute. reflexivity.
  - lia.
Defined.

(** C5.  Command selection follows the fixed four-level prefix tree: after
    a first bit 0 a 5-bit index [i] selects [table[108 + i]]; after 10 a
    4-bit index selects [table[36 + i]]; after 110 a 3-bit index selects
    [table[72 + i]]; after 1110 a 2-bit index selects [table[0 + i]]; the
    path 1111 selects [table[144]]; and a read that fails anywhere on the
    path gives [COMMAND_EOS_MARKER], the signal of the exhausted stream.
    Nothing but the bit reader moves. *)
Theorem get_coded_command_val_prefix_tree (s : state) :
  reader_moved s (snd (get_coded_command_val s)) /\
  match spec_table_index (pending_bits s) with
  | Some (i, r) =>
      fst (get_coded_command_val s) = table_at i s
      /\ pending_bits (snd (get_coded_command_val s)) = r
  | None => fst (get_coded_command_val s) = COMMAND_EOS_MARKER
  end.
Proof.
  unfold get_coded_command_val, spec_table_index.
  next_bit s; [now split| |exact (command_leaf 108 5 s s0 ltac:(lia) M)].
  next_bit s0; [now split; [eapply reader_moved_trans; eassumption|]|
                |exact (command_leaf 36 4 s s1 ltac:(lia)
                          (reader_moved_trans _ _ _ M M0))].
  pose proof (reader_moved_trans _ _ _ M M0) as M01.
  next_bit s1; [now split; [eapply reader_moved_trans; eassumption|]|
                |exact (command_leaf 72 3 s s2 ltac:(lia)
                          (reader_moved_trans _ _ _ M01 M1))].
  pose proof (reader_moved_trans _ _ _ M01 M1) as M012.
  next_bit s2; [now split; [eapply reader_moved_trans; eassumption|]|
                |exact (command_leaf 0 2 s s3 ltac:(lia)
                          (reader_moved_trans _ _ _ M012 M2))].
  pose proof (reader_moved_trans _ _ _ M012 M2) as M0123.
  cbn [fst snd]. split; [exact M0123|].
  split; [now apply table_at_moved|reflexivity].
Qed.

(** C6.  A copy of [length] bytes at a valid [offset]
    ([1 <= offset <=] write position) goes byte by byte: the bytes below
    the old write position stay, and every new byte is equal to the byte
    [offset] places before it in the array as the copy leaves it, which for
    [offset < length] is a byte written by the same copy.  The copy stops at
    the capacity.  With "A" in the output, length 5 and offset 1 give
    "AAAAAA". *)
Theorem copy_sequence_overlap (length offset : Z) (s : state) :
  state_ok s ->
  1 <= offset <= Z.of_nat (decompressed_data_index s) ->
  (exists s',
      copy_sequence length offset s = Next s'
      /\ decompressed_data_index s'
         = Nat.min (decompressed_data_index s + Z.to_nat length)
                   (decompressed_buffer_size s)
      /\ (forall j : nat, (j < decompressed_data_index s)%nat ->
            decompressed_data s' !! j = decompressed_data s !! j)
      /\ (forall j : nat,
            (decompressed_data_index s <= j < decompressed_data_index s')%nat
            -> is_Some (decompressed_data s' !! j)
               /\ decompressed_data s' !! j
                  = decompressed_data s' !! (j - Z.to_nat offset)%nat))
  /\ copy_sequence 5 1 after_A
     = Next (State 0 0 [] 0 [65; 65; 65; 65; 65; 65] 6 6 0
                   canonical_table []).
Proof.
  intros B Ho. split; [|vm_compute; reflexivity].
  destruct (copy_run_spec (Z.to_nat length) offset s B Ho)
    as (s' & R & I & E & _ & _ & _ & W).
  exists s'. unfold copy_sequence.
  destruct (Z.eqb_spec offset 0); [lia|].
  destruct (Z.ltb_spec (Z.of_nat (decompressed_data_index s)) offset); [lia|].
  cbn [orb]. split; [exact R|]. split; [exact I|]. split.
  - intros j Hj. destruct E as (_ & _ & _ & _ & F & _). apply F. lia.
  - intros j Hj. destruct (W j Hj). auto.
Qed.

Lemma copy_sequence_overlap_witness :
  (exists s',
      copy_sequence 5 1 after_A = Next s'
      /\ decompressed_data_index s'
         = Nat.min (decompressed_data_index after_A + Z.to_nat 5)
                   (decompressed_buffer_size after_A)
      /\ (forall j : nat, (j < decompressed_data_index after_A)%nat ->
            decompressed_data s' !! j = decompressed_data after_A !! j)
      /\ (forall j : nat,
            (decompressed_data_index after_A <= j
             < decompressed_data_index s')%nat
            -> is_Some (decompressed_data s' !! j)
               /\ decompressed_data s' !! j
                  = decompressed_data s' !! (j - Z.to_nat 1)%nat))
  /\ copy_sequence 5 1 after_A
     = Next (State 0 0 [] 0 [65; 65; 65; 65; 65; 65] 6 6 0
                   canonical_table []).
Proof.
  apply (copy_sequence_overlap 5 1 after_A).
  - unfold state_ok. cbn. lia.
  - cbn. lia.
Defined.

(** C7.  A copy whose offset is 0 or greater than the number of bytes
    written makes the call return at the invalid-offset test: the round of
    the loop that read the sequence ends the call there, and the output
    array and the write position are as they were before that round. *)
Theorem copy_sequence_invalid_offset
    (s0 s1 s : state) (cmd length offset : Z) (fuel : nat) :
  (decompressed_data_index s0 < decompressed_buffer_size s0)%nat ->
  get_coded_command_val s0 = (cmd, s1) ->
  cmd <> COMMAND_EOS_MARKER -> Z.land cmd 3 <> 0 ->
  read_sequence (Z.land cmd 3) (Z.shiftr cmd 2) s1 = inr (length, offset, s) ->
  offset = 0 \/ Z.of_nat (decompressed_data_index s) < offset ->
  copy_sequence length offset s
  = Return ExitInvalidOffset (Serial_println "Error: Invalid offset" s)
  /\ decrunch_loop (S fuel) s0
     = Finished ExitInvalidOffset (Serial_println "Error: Invalid offset" s)
  /\ decompressed_data (Serial_println "Error: Invalid offset" s)
     = decompressed_data s0
  /\ decompressed_data_index (Serial_println "Error: Invalid offset" s)
     = decompressed_data_index s0.
Proof.
  intros G H1 Hc Ht H2 Hbad.
  pose proof (copy_sequence_invalid length offset s Hbad) as C.
  split; [exact C|]. split.
  - cbn [decrunch_loop].
    destruct (Nat.leb_spec (decompressed_buffer_size s0)
                           (decompressed_data_index s0)); [lia|].
    unfold decrunch_iteration. rewrite H1.
    destruct (Z.eqb_spec cmd COMMAND_EOS_MARKER); [contradiction|].
    destruct (Z.eqb_spec (Z.land cmd 3) 0); [contradiction|].
    rewrite H2, C. reflexivity.
  - pose proof (read_sequence_output (Z.land cmd 3) (Z.shiftr cmd 2) s1) as O.
    rewrite H2 in O. destruct O as (D & I & _).
    pose proof (get_coded_command_val_advanced s0)
      as [(_ & D0 & _ & I0 & _) _].
    rewrite H1 in D0, I0. cbn [snd] in D0, I0.
    destruct s. cbn in *. split; congruence.
Qed.

Lemma copy_sequence_invalid_offset_witness :
  exists s,
    copy_sequence 4 1 s
    = Return ExitInvalidOffset (Serial_println "Error: Invalid offset" s)
    /\ decrunch_loop 1 before_bad_copy
       = Finished ExitInvalidOffset (Serial_println "Error: Invalid offset" s)
    /\ decompressed_data (Serial_println "Error: Invalid offset" s)
       = decompressed_data before_bad_copy
    /\ decompressed_data_index (Serial_println "Error: Invalid offset" s)
       = decompressed_data_index before_bad_copy.
Proof.
  exists (State 0 1 [250] 1 (replicate 16 0) 16 0 1 canonical_table []).
  apply (copy_sequence_invalid_offset before_bad_copy
           (snd (get_coded_command_val before_bad_copy)) _ 3 4 1 0).
  - vm_compute. lia.
  - vm_compute. reflexivity.
  - discriminate.
  - discriminate.
  - vm_compute. reflexivity.
  - right. vm_compute. reflexivity.
Defined.

(** C8.  The write position never passes the capacity: every call ends in
    one of its exits without leaving the output array, with the write
    position at most the capacity, and the array beyond the capacity is as
    the caller passed it; the same holds after any number of rounds of the
    literal loop and of the copy loop, that is in the middle of a command
    as well.  And when the content is longer than the capacity (a run with
    more room writes more than [cap] bytes), the call stops at the loop
    condition with exactly [cap] bytes written, the first [cap] bytes of
    the content. *)
Theorem output_stays_within_capacity
    (g : state) (in_data out_buffer : list Z) (cap : nat)
    (out2 : list Z) (cap2 : nat) (e2 : exit) (t2 : state) :
  (cap <= length out_buffer)%nat ->
  (exists e s,
      exod_decrunch g in_data out_buffer cap = Finished e s
      /\ (decompressed_data_index s <= cap)%nat
      /\ length (decompressed_data s) = length out_buffer
      /\ (forall i : nat, (cap <= i)%nat ->
            decompressed_data s !! i = out_buffer !! i)
      /\ ((cap <= cap2 <= length out2)%nat ->
          exod_decrunch g in_data out2 cap2 = Finished e2 t2 ->
          (cap < decompressed_data_index t2)%nat ->
          e = ExitBufferFull /\ decompressed_data_index s = cap
          /\ take cap (decompressed_data s)
             = take cap (decompressed_data t2)))
  /\ (forall s todo, state_ok s -> outcome_ok s (literal_run todo s))
  /\ (forall s todo offset, state_ok s ->
        1 <= offset <= Z.of_nat (decompressed_data_index s) ->
        outcome_ok s (copy_run todo offset s)).
Proof.
  intros H. split; [|split; [intros; now apply literal_run_ok
                            |intros; now apply copy_run_ok]].
  pose proof (exod_decrunch_ok g in_data out_buffer cap H) as K.
  destruct (exod_decrunch g in_data out_buffer cap) as [e s| |] eqn:R;
    unfold verdict_ok in K; try contradiction.
  destruct K as ((_ & Z & L & _ & F & _) & (_ & I & _) & _).
  destruct (exod_decrunch_reset_spec g in_data out_buffer cap)
    as (_ & _ & D0 & Z0 & I0 & _).
  rewrite D0 in L, F. rewrite Z0 in Z. rewrite Z in I.
  exists e, s. split; [reflexivity|]. split; [exact I|]. split; [exact L|].
  split.
  - intros i Hi. apply F. lia.
  - intros [Hc Hl] R2 Hgt.
    destruct (exod_decrunch_truncated g in_data out_buffer out2 cap cap2
                e2 t2 H Hl Hc R2 Hgt) as (t1 & R1 & I1).
    rewrite R in R1. injection R1 as -> ->.
    split; [reflexivity|]. split; [exact I1|].
    rewrite <- I1 at 1 2.
    exact (exod_decrunch_prefix g in_data out_buffer out2 cap cap2 _ _ _ _
             Hl Hc R R2).
Qed.

Lemma output_stays_within_capacity_witness :
  (3 <= length (replicate 16 0))%nat
  /\ exod_decrunch boot demo_crunched_data (replicate 16 0) 16
     = Finished ExitGammaLength
         (State 0 0 demo_crunched_data 7
                (hello ++ replicate 11 0) 16 5 0 canonical_table [])
  /\ exists s,
       exod_decrunch boot demo_crunched_data (replicate 16 0) 3
       = Finished ExitBufferFull s
       /\ decompressed_data_index s = 3%nat
       /\ take 3 (decompressed_data s) = [72; 101; 108]
       /\ forall i : nat, (3 <= i)%nat ->
            decompressed_data s !! i = replicate 16 0 !! i.
Proof.
  assert (H : (3 <= length (replicate 16 0))%nat)
    by (rewrite length_replicate; lia).
  assert (R2 : exod_decrunch boot demo_crunched_data (replicate 16 0) 16
               = Finished ExitGammaLength
                   (State 0 0 demo_crunched_data 7
                      (hello ++ replicate 11 0) 16 5 0 canonical_table []))
    by (vm_compute; reflexivity).
  split; [exact H|]. split; [exact R2|].
  destruct (output_stays_within_capacity boot demo_crunched_data
              (replicate 16 0) 3 (replicate 16 0) 16 ExitGammaLength
              (State 0 0 demo_crunched_data 7
                 (hello ++ replicate 11 0) 16 5 0 canonical_table []) H)
    as ((e & s & R & _ & _ & F & T) & _).
  destruct T as (-> & I & P).
  - rewrite length_replicate. lia.
  - exact R2.
  - cbn. lia.
  - exists s. auto.
Defined.

(** C9, as stated, fails.  The working variables are at file scope, so two
    activations that are under way at the same time work on the same
    variables: when the second call runs between the head and the loop of
    the first, the first call ends at another exit and its output array
    is never written, while the second decodes "Hello".  One call after
    the other gives "Hello" twice. *)
Lemma interleaved_calls_differ :
  interleaved demo_crunched_data 16
  = Some (ExitEOS, replicate 16 0,
          (ExitGammaLength, hello ++ replicate 11 0))
  /\ one_after_the_other demo_crunched_data 16
     = Some (ExitGammaLength, hello ++ replicate 11 0,
             (ExitGammaLength, hello ++ replicate 11 0)).
Proof. split; vm_compute; reflexivity. Qed.

(** C9, amended.  Two calls one after the other on the same input and on
    output arrays of equal contents and capacity take the same exit and
    leave the same bytes and the same write position: the head of
    [exod_decrunch] assigns every working variable, so nothing of the first
    call reaches the second.  The second call prints the lines the first
    printed once more. *)
Theorem sequential_calls_agree
    (g : state) (in_data out_buffer : list Z) (cap : nat)
    (e1 : exit) (s1 : state) :
  length (exod_decrunch_table_data g) = 145%nat ->
  (cap <= length out_buffer)%nat ->
  exod_decrunch g in_data out_buffer cap = Finished e1 s1 ->
  exists s2 lines,
    exod_decrunch s1 in_data out_buffer cap = Finished e1 s2
    /\ decompressed_data s2 = decompressed_data s1
    /\ decompressed_data_index s2 = decompressed_data_index s1
    /\ serial s1 = serial g ++ lines
    /\ serial s2 = serial s1 ++ lines.
Proof.
  intros Ht Hc R1.
  rewrite (exod_decrunch_from_boot g) in R1 by exact Ht.
  pose proof (exod_decrunch_ok boot in_data out_buffer cap Hc) as K.
  destruct (exod_decrunch boot in_data out_buffer cap) as [e0 s0| |] eqn:R0;
    unfold verdict_ok in K; try contradiction.
  cbn [verdict_printed_before] in R1. injection R1 as <- <-.
  destruct K as ((T & _) & _).
  rewrite exod_decrunch_reset_table in T.
  assert (Ht1 : length (exod_decrunch_table_data
                          (printed_before (serial g) s0)) = 145%nat).
  { change (exod_decrunch_table_data (printed_before (serial g) s0))
      with (exod_decrunch_table_data s0). rewrite T. reflexivity. }
  rewrite (exod_decrunch_from_boot _ _ _ _ Ht1), R0.
  cbn [verdict_printed_before].
  exists (printed_before (serial (printed_before (serial g) s0)) s0),
         (serial s0).
  repeat split.
Qed.

Lemma sequential_calls_agree_witness :
  exists s2 lines,
    exod_decrunch
      (State 0 0 demo_crunched_data 7 (hello ++ replicate 11 0) 16 5 0
             canonical_table [])
      demo_crunched_data (replicate 16 0) 16
    = Finished ExitGammaLength s2
    /\ decompressed_data s2 = hello ++ replicate 11 0
    /\ decompressed_data_index s2 = 5%nat
    /\ [] = serial boot ++ lines
    /\ serial s2 = [] ++ lines.
Proof.
  apply (sequential_calls_agree boot demo_crunched_data (replicate 16 0) 16
           ExitGammaLength
           (State 0 0 demo_crunched_data 7 (hello ++ replicate 11 0) 16 5 0
                  canonical_table [])).
  - reflexivity.
  - rewrite length_replicate. lia.
  - vm_compute. reflexivity.
Defined.

(** C10.  The decode loop terminates for every input and every capacity:
    the call ends in one of its exits, with any amount of fuel above the
    number of input bits giving that same end; and every round of the loop
    that goes on has taken at least one bit of the input (so it has
    advanced the output or consumed input), while the write position never
    goes back. *)
Theorem exod_decrunch_terminates
    (g : state) (in_data out_buffer : list Z) (cap : nat) :
  (cap <= length out_buffer)%nat ->
  (exists e s,
      exod_decrunch g in_data out_buffer cap = Finished e s
      /\ forall fuel, (8 * length in_data < fuel)%nat ->
           decrunch_loop fuel
             (exod_decrunch_reset g in_data out_buffer cap)
           = Finished e s)
  /\ (forall s s', state_ok s -> decrunch_iteration s = Next s' ->
        ((decompressed_data_index s < decompressed_data_index s')%nat
         \/ (bits_left s' < bits_left s)%nat)
        /\ (bits_left s' < bits_left s)%nat
        /\ (decompressed_data_index s <= decompressed_data_index s')%nat).
Proof.
  intros H. split.
  - pose proof (exod_decrunch_ok g in_data out_buffer cap H) as K.
    destruct (exod_decrunch g in_data out_buffer cap) as [e s| |] eqn:R;
      unfold verdict_ok in K; try contradiction.
    exists e, s. split; [reflexivity|]. intros fuel Hf. rewrite <- R.
    unfold exod_decrunch. apply decrunch_loop_enough_fuel.
    + now apply exod_decrunch_reset_ok.
    + destruct (exod_decrunch_reset_spec g in_data out_buffer cap)
        as (_ & -> & _). exact Hf.
    + destruct (exod_decrunch_reset_spec g in_data out_buffer cap)
        as (_ & -> & _). lia.
  - intros s s' B N. destruct (decrunch_iteration_ok s B) as [O St].
    specialize (St s' N). rewrite N in O.
    destruct O as ((_ & _ & _ & I & _) & _). auto.
Qed.

Lemma exod_decrunch_terminates_witness :
  (exists e s,
      exod_decrunch boot demo_crunched_data (replicate 256 0) 256
      = Finished e s
      /\ forall fuel, (8 * length demo_crunched_data < fuel)%nat ->
           decrunch_loop fuel
             (exod_decrunch_reset boot demo_crunched_data
                (replicate 256 0) 256)
           = Finished e s)
  /\ (forall s s', state_ok s -> decrunch_iteration s = Next s' ->
        ((decompressed_data_index s < decompressed_data_index s')%nat
         \/ (bits_left s' < bits_left s)%nat)
        /\ (bits_left s' < bits_left s)%nat
        /\ (decompressed_data_index s <= decompressed_data_index s')%nat).
Proof.
  apply (exod_decrunch_terminates boot demo_crunched_data
           (replicate 256 0) 256).
  rewrite length_replicate. lia.
Defined.

(** * Further properties of the sketch *)

(** ** Bits and numbers *)

Lemma bits_of_value_S (n : nat) (v : Z) :
  bits_of_value (S n) v = bits_of_value n (Z.shiftr v 1) ++ [Z.testbit v 0].
Proof.
  unfold bits_of_value. rewrite seq_S, map_app. cbn [map Nat.add].
  f_equal.
  - apply map_ext_in. intros i Hi. apply in_seq in Hi.
    rewrite Z.shiftr_spec by lia. f_equal. lia.
  - f_equal. f_equal. lia.
Qed.

Lemma bits_value_of_value (n : nat) (v : Z) :
  bits_value (bits_of_value n v) = v mod 2 ^ Z.of_nat n.
Proof.
  revert v. induction n as [|n IH]; intros v.
  - cbn. now rewrite Z.mod_1_r.
  - rewrite bits_of_value_S, bits_value_snoc, IH, Z.bit0_mod.
    rewrite Z.shiftr_div_pow2 by lia. change (2 ^ 1) with 2.
    rewrite Nat2Z.inj_succ, Z.pow_succ_r by lia.
    assert (0 < 2 ^ Z.of_nat n) by (apply Z.pow_pos_nonneg; lia).
    rewrite (Z.rem_mul_r v 2 (2 ^ Z.of_nat n)) by lia. lia.
Qed.

Lemma bits_of_value_length (n : nat) (v : Z) : length (bits_of_value n v) = n.
Proof. unfold bits_of_value. now rewrite length_map, length_seq. Qed.

Lemma bits_value_msb_first (x : Z) : bits_value (msb_first x 8) = x mod 256.
Proof. exact (bits_value_of_value 8 x). Qed.

(** ** The bit reader, further *)

Lemma get_one_bit_buffered (s : state) :
  (1 <= exod_zp_bit_count s)%nat ->
  fst (get_one_bit s) <> -1
  /\ exod_zp_bit_count (snd (get_one_bit s)) = Nat.pred (exod_zp_bit_count s)
  /\ crunched_data_index (snd (get_one_bit s)) = crunched_data_index s.
Proof.
  intros H. unfold get_one_bit.
  destruct (exod_zp_bit_count s) as [|c] eqn:E; [lia|].
  cbn [fst snd]. rewrite E. destruct s. cbn.
  destruct (Z.land _ 128 =? 0); repeat split; discriminate.
Qed.

Lemma get_n_bits_loop_S (todo : nat) (value : Z) (s : state) :
  get_n_bits_loop (S todo) value s
  = (let '(bit, s1) := get_one_bit s in
     if bit =? -1 then (-1, s1)
     else get_n_bits_loop todo (u16 (Z.lor (Z.shiftl value 1) bit)) s1).
Proof. reflexivity. Qed.

Lemma get_one_bit_refill (s : state) (x : Z) :
  exod_zp_bit_count s = 0%nat ->
  crunched_data s !! crunched_data_index s = Some x ->
  fst (get_one_bit s) <> -1
  /\ exod_zp_bit_count (snd (get_one_bit s)) = 7%nat
  /\ crunched_data_index (snd (get_one_bit s)) = S (crunched_data_index s).
Proof.
  intros Hc Hx. unfold get_one_bit, exod_read_byte_from_stream.
  rewrite Hc, Hx. destruct s. cbn.
  destruct (Z.land _ 128 =? 0); repeat split; discriminate.
Qed.

Lemma get_n_bits_loop_buffered (todo : nat) (value : Z) (s : state) :
  (todo <= exod_zp_bit_count s)%nat ->
  exod_zp_bit_count (snd (get_n_bits_loop todo value s))
  = (exod_zp_bit_count s - todo)%nat
  /\ crunched_data_index (snd (get_n_bits_loop todo value s))
     = crunched_data_index s.
Proof.
  revert value s. induction todo as [|todo IH]; intros value s H.
  - cbn. split; [lia|reflexivity].
  - cbn [get_n_bits_loop].
    destruct (get_one_bit_buffered s) as (B1 & B2 & B3); [lia|].
    destruct (get_one_bit s) as [bit s1]. cbn [fst snd] in B1, B2, B3.
    destruct (Z.eqb_spec bit (-1)); [contradiction|].
    destruct (IH (u16 (Z.lor (Z.shiftl value 1) bit)) s1) as [I1 I2]; [lia|].
    rewrite I1, I2, B2, B3. split; [lia|reflexivity].
Qed.

Lemma get_n_bits_loop_state (todo : nat) (v v' : Z) (s : state) :
  snd (get_n_bits_loop todo v s) = snd (get_n_bits_loop todo v' s).
Proof.
  revert v v' s. induction todo as [|todo IH]; intros v v' s;
    cbn [get_n_bits_loop]; [reflexivity|].
  destruct (get_one_bit s) as [bit s1]. destruct (bit =? -1); [reflexivity|].
  apply IH.
Qed.

Lemma get_n_bits_loop_app (a b : nat) (v : Z) (s : state) :
  0 <= v ->
  get_n_bits_loop (a + b) v s
  = (let '(r, s1) := get_n_bits_loop a v s in
     if r =? -1 then (-1, s1) else get_n_bits_loop b r s1).
Proof.
  revert v s. induction a as [|a IH]; intros v s Hv.
  - cbn [Nat.add get_n_bits_loop].
    destruct (Z.eqb_spec v (-1)); [lia|reflexivity].
  - cbn [Nat.add get_n_bits_loop]. destruct (get_one_bit s) as [bit s1].
    destruct (bit =? -1); [reflexivity|].
    apply IH. apply u16_nonneg.
Qed.

(** X1.  [get_n_bits n] for [1 <= n <= 16]: when the stream holds [n] more
    bits it takes exactly these and returns the number they spell, first
    bit most significant, a value below [2 ^ n]; when the stream holds
    fewer it returns [-1] and every bit that was left is gone.  Nothing but
    the bit reader changes.  [get_n_bits 0] returns 0 and a request for more
    than 16 bits returns [-1], both without touching the stream. *)
Theorem get_n_bits_reads_msb_first (n : nat) (s : state) :
  (1 <= n <= 16)%nat ->
  (if (n <=? bits_left s)%nat
   then exists s',
       get_n_bits (Z.of_nat n) s = (bits_value (take n (pending_bits s)), s')
       /\ pending_bits s' = drop n (pending_bits s)
       /\ reader_moved s s'
       /\ 0 <= bits_value (take n (pending_bits s)) < 2 ^ Z.of_nat n
   else exists s',
       get_n_bits (Z.of_nat n) s = (-1, s')
       /\ pending_bits s' = [] /\ reader_moved s s')
  /\ get_n_bits 0 s = (0, s)
  /\ (forall m, 16 < m -> get_n_bits m s = (-1, s)).
Proof.
  intros Hn. split; [|split].
  - destruct (get_n_bits_ex n s Hn) as (s' & M & H). unfold bits_left.
    destruct (Nat.leb_spec n (length (pending_bits s))) as [L|L].
    + destruct H as [G P]. exists s'.
      split; [exact G|]. split; [exact P|]. split; [exact M|].
      pose proof (bits_value_range (take n (pending_bits s))) as R.
      rewrite length_take, Nat.min_l in R by exact L. exact R.
    + destruct H as [G P]. exists s'. auto.
  - reflexivity.
  - intros m Hm. unfold get_n_bits.
    destruct (Z.eqb_spec m 0); [lia|].
    destruct (Z.ltb_spec 16 m); [reflexivity|lia].
Qed.

Lemma get_n_bits_reads_msb_first_witness :
  (if (5 <=? bits_left (exod_decrunch_reset boot demo_crunched_data [] 0))%nat
   then exists s',
       get_n_bits (Z.of_nat 5)
         (exod_decrunch_reset boot demo_crunched_data [] 0)
       = (bits_value
            (take 5 (pending_bits
                       (exod_decrunch_reset boot demo_crunched_data [] 0))),
          s')
       /\ pending_bits s'
          = drop 5 (pending_bits
                      (exod_decrunch_reset boot demo_crunched_data [] 0))
       /\ reader_moved (exod_decrunch_reset boot demo_crunched_data [] 0) s'
       /\ 0 <= bits_value
                 (take 5 (pending_bits
                            (exod_decrunch_reset boot demo_crunched_data
                               [] 0)))
          < 2 ^ Z.of_nat 5
   else exists s',
       get_n_bits (Z.of_nat 5)
         (exod_decrunch_reset boot demo_crunched_data [] 0) = (-1, s')
       /\ pending_bits s' = []
       /\ reader_moved (exod_decrunch_reset boot demo_crunched_data [] 0) s')
  /\ get_n_bits 0 (exod_decrunch_reset boot demo_crunched_data [] 0)
     = (0, exod_decrunch_reset boot demo_crunched_data [] 0)
  /\ (forall m, 16 < m ->
        get_n_bits m (exod_decrunch_reset boot demo_crunched_data [] 0)
        = (-1, exod_decrunch_reset boot demo_crunched_data [] 0)).
Proof.
  apply (get_n_bits_reads_msb_first 5
           (exod_decrunch_reset boot demo_crunched_data [] 0)).
  lia.
Defined.

(** X2.  At a byte boundary (no bit buffered) [get_n_bits 8] returns the
    next byte of the input and leaves the reader at the next byte
    boundary. *)
Theorem get_n_bits_8_reads_next_byte (s : state) (x : Z) :
  exod_zp_bit_count s = 0%nat ->
  crunched_data s !! crunched_data_index s = Some x ->
  exists s',
    get_n_bits 8 s = (x mod 256, s')
    /\ exod_zp_bit_count s' = 0%nat
    /\ crunched_data_index s' = S (crunched_data_index s)
    /\ reader_moved s s'.
Proof.
  intros Hc Hx.
  assert (P : pending_bits s
              = msb_first x 8
                ++ flat_map (fun y => msb_first y 8)
                     (drop (S (crunched_data_index s)) (crunched_data s))).
  { unfold pending_bits. rewrite Hc, (drop_S _ _ _ Hx). reflexivity. }
  destruct (get_n_bits_stream 8 s) as [V R]; [lia| |].
  { rewrite P, length_app, msb_first_length. lia. }
  rewrite P in V.
  rewrite (proj1 (take_app_exact (msb_first x 8) _ 8 (msb_first_length x 8)))
    in V.
  rewrite bits_value_msb_first in V.
  exists (snd (get_n_bits 8 s)).
  split; [rewrite <- V; apply surjective_pairing|].
  split; [|split; [|apply get_n_bits_moved]].
  - change (get_n_bits 8 s) with (get_n_bits_loop 8 0 s).
    rewrite (get_n_bits_loop_S 7).
    destruct (get_one_bit_refill s x Hc Hx) as (B1 & B2 & B3).
    destruct (get_one_bit s) as [bit s1]. cbn [fst snd] in B1, B2, B3.
    destruct (Z.eqb_spec bit (-1)); [contradiction|].
    destruct (get_n_bits_loop_buffered 7
                (u16 (Z.lor (Z.shiftl 0 1) bit)) s1) as [I1 _]; [lia|].
    rewrite I1, B2. reflexivity.
  - change (get_n_bits 8 s) with (get_n_bits_loop 8 0 s).
    rewrite (get_n_bits_loop_S 7).
    destruct (get_one_bit_refill s x Hc Hx) as (B1 & B2 & B3).
    destruct (get_one_bit s) as [bit s1]. cbn [fst snd] in B1, B2, B3.
    destruct (Z.eqb_spec bit (-1)); [contradiction|].
    destruct (get_n_bits_loop_buffered 7
                (u16 (Z.lor (Z.shiftl 0 1) bit)) s1) as [_ I2]; [lia|].
    rewrite I2, B3. reflexivity.
Qed.

Lemma get_n_bits_8_reads_next_byte_witness :
  exists s',
    get_n_bits 8 (exod_decrunch_reset boot demo_crunched_data [] 0)
    = (17 mod 256, s')
    /\ exod_zp_bit_count s' = 0%nat
    /\ crunched_data_index s'
       = S (crunched_data_index
              (exod_decrunch_reset boot demo_crunched_data [] 0))
    /\ reader_moved (exod_decrunch_reset boot demo_crunched_data [] 0) s'.
Proof.
  apply (get_n_bits_8_reads_next_byte
           (exod_decrunch_reset boot demo_crunched_data [] 0) 17);
    reflexivity.
Defined.

(** ** The table, further *)

Lemma canonical_table_entries :
  forallb (fun j =>
    forallb (fun i =>
      match canonical_table !! (36 * j + i)%nat with
      | Some v => v =? Z.shiftl (Z.of_nat i) 2
      | None => false
      end) (seq 0 32)) (seq 0 4) = true.
Proof. vm_compute. reflexivity. Qed.

(** X3.  [init_decrunch_table] assigns all 145 entries, whatever the array
    held: in each of the four blocks of 36 the entry [36 j + i] for
    [i < 32] is the literal command [(i << 2) | 0], the four entries after
    them are [(10 << 2) | 1] twice and [(10 << 2) | 2] twice, and entry 144
    is the gamma command [3].  No entry is [COMMAND_EOS_MARKER]. *)
Theorem init_decrunch_table_layout (s : state) :
  length (exod_decrunch_table_data s) = 145%nat ->
  let t := exod_decrunch_table_data (init_decrunch_table s) in
  length t = 145%nat
  /\ (forall j i : nat, (j < 4)%nat -> (i < 32)%nat ->
        t !! (36 * j + i)%nat = Some (Z.lor (Z.shiftl (Z.of_nat i) 2) 0))
  /\ (forall j : nat, (j < 4)%nat ->
        t !! (36 * j + 32)%nat = Some (Z.lor (Z.shiftl 10 2) 1)
        /\ t !! (36 * j + 33)%nat = Some (Z.lor (Z.shiftl 10 2) 1)
        /\ t !! (36 * j + 34)%nat = Some (Z.lor (Z.shiftl 10 2) 2)
        /\ t !! (36 * j + 35)%nat = Some (Z.lor (Z.shiftl 10 2) 2))
  /\ t !! 144%nat = Some 3
  /\ (forall k v, t !! k = Some v -> v <> COMMAND_EOS_MARKER).
Proof.
  intros H. cbn zeta. rewrite (init_decrunch_table_canonical s H).
  replace (exod_decrunch_table_data (set_table canonical_table s))
    with canonical_table by (destruct s; reflexivity).
  split; [reflexivity|]. split; [|split; [|split]].
  - intros j i Hj Hi. rewrite Z.lor_0_r.
    pose proof canonical_table_entries as F.
    rewrite forallb_forall in F.
    specialize (F j ltac:(apply in_seq; lia)).
    rewrite forallb_forall in F.
    specialize (F i ltac:(apply in_seq; lia)).
    destruct (canonical_table !! (36 * j + i)%nat) as [v|]; [|discriminate].
    apply Z.eqb_eq in F. now subst v.
  - intros j Hj.
    destruct j as [|[|[|[|j]]]]; [..|lia]; repeat split; reflexivity.
  - reflexivity.
  - intros k v Hk.
    assert (In v canonical_table)
      by (apply list_elem_of_In, list_elem_of_lookup; eauto).
    assert (F : forallb (fun v => negb (v =? COMMAND_EOS_MARKER))
                  canonical_table = true) by (vm_compute; reflexivity).
    rewrite forallb_forall in F. specialize (F v H0).
    apply negb_true_iff, Z.eqb_neq in F. exact F.
Qed.

Lemma init_decrunch_table_layout_witness :
  let t := exod_decrunch_table_data (init_decrunch_table boot) in
  length t = 145%nat
  /\ (forall j i : nat, (j < 4)%nat -> (i < 32)%nat ->
        t !! (36 * j + i)%nat = Some (Z.lor (Z.shiftl (Z.of_nat i) 2) 0))
  /\ (forall j : nat, (j < 4)%nat ->
        t !! (36 * j + 32)%nat = Some (Z.lor (Z.shiftl 10 2) 1)
        /\ t !! (36 * j + 33)%nat = Some (Z.lor (Z.shiftl 10 2) 1)
        /\ t !! (36 * j + 34)%nat = Some (Z.lor (Z.shiftl 10 2) 2)
        /\ t !! (36 * j + 35)%nat = Some (Z.lor (Z.shiftl 10 2) 2))
  /\ t !! 144%nat = Some 3
  /\ (forall k v, t !! k = Some v -> v <> COMMAND_EOS_MARKER).
Proof. apply (init_decrunch_table_layout boot). reflexivity. Defined.

(** ** The commands the prefix tree can reach *)

Lemma get_coded_command_val_tree (s : state) :
  reader_moved s (snd (get_coded_command_val s)) /\
  match spec_table_index (pending_bits s) with
  | Some (i, r) =>
      fst (get_coded_command_val s) = table_at i s
      /\ pending_bits (snd (get_coded_command_val s)) = r
  | None => fst (get_coded_command_val s) = COMMAND_EOS_MARKER
  end.
Proof.
  unfold get_coded_command_val, spec_table_index.
  next_bit s; [now split| |exact (command_leaf 108 5 s s0 ltac:(lia) M)].
  next_bit s0; [now split; [eapply reader_moved_trans; eassumption|]|
                |exact (command_leaf 36 4 s s1 ltac:(lia)
                          (reader_moved_trans _ _ _ M M0))].
  pose proof (reader_moved_trans _ _ _ M M0) as M01.
  next_bit s1; [now split; [eapply reader_moved_trans; eassumption|]|
                |exact (command_leaf 72 3 s s2 ltac:(lia)
                          (reader_moved_trans _ _ _ M01 M1))].
  pose proof (reader_moved_trans _ _ _ M01 M1) as M012.
  next_bit s2; [now split; [eapply reader_moved_trans; eassumption|]|
                |exact (command_leaf 0 2 s s3 ltac:(lia)
                          (reader_moved_trans _ _ _ M012 M2))].
  pose proof (reader_moved_trans _ _ _ M012 M2) as M0123.
  cbn [fst snd]. split; [exact M0123|].
  split; [now apply table_at_moved|reflexivity].
Qed.

Lemma spec_leaf_range (base : Z) (n : nat) (bs : list bool) i r :
  spec_leaf base n bs = Some (i, r) -> base <= i < base + 2 ^ Z.of_nat n.
Proof.
  unfold spec_leaf. destruct (Nat.leb_spec n (length bs)) as [L|L];
    [|discriminate].
  intros [= <- <-]. pose proof (bits_value_range (take n bs)) as R.
  rewrite length_take, Nat.min_l in R by exact L. lia.
Qed.

(** The indices the tree can form. *)
Lemma spec_table_index_range (bs : list bool) i r :
  spec_table_index bs = Some (i, r) ->
  0 <= i < 4 \/ 36 <= i < 52 \/ 72 <= i < 80 \/ 108 <= i < 140 \/ i = 144.
Proof.
  unfold spec_table_index.
  destruct bs as [|[|] [|[|] [|[|] [|[|] bs]]]]; try discriminate;
    intros H; try (apply spec_leaf_range in H; cbn in H; lia).
  injection H as <- <-. lia.
Qed.

Lemma canonical_table_reachable :
  forallb (fun k =>
    if ((k <? 4) || ((36 <=? k) && (k <? 52)) || ((72 <=? k) && (k <? 80))
        || ((108 <=? k) && (k <? 140)))%nat
    then match canonical_table !! k with
         | Some v =>
             (v =? Z.shiftl (Z.of_nat k mod 36) 2)
             && (Z.of_nat k mod 36 <=? 31)
             && (Z.land v 3 =? 0) && (Z.shiftr v 2 =? Z.of_nat k mod 36)
             && negb (v =? COMMAND_EOS_MARKER)
         | None => false
         end
    else true) (seq 0 145) = true.
Proof. vm_compute. reflexivity. Qed.

Lemma canonical_literal_entry (s : state) (i : Z) :
  exod_decrunch_table_data s = canonical_table ->
  0 <= i < 4 \/ 36 <= i < 52 \/ 72 <= i < 80 \/ 108 <= i < 140 ->
  table_at i s = Z.shiftl (i mod 36) 2
  /\ 0 <= i mod 36 <= 31
  /\ Z.land (table_at i s) 3 = 0
  /\ Z.shiftr (table_at i s) 2 = i mod 36
  /\ table_at i s <> COMMAND_EOS_MARKER.
Proof.
  intros T R. unfold table_at. rewrite T.
  pose proof canonical_table_reachable as F. rewrite forallb_forall in F.
  specialize (F (Z.to_nat i) ltac:(apply in_seq; lia)).
  replace (Z.of_nat (Z.to_nat i)) with i in F by lia.
  assert (G : ((Z.to_nat i <? 4)
               || ((36 <=? Z.to_nat i) && (Z.to_nat i <? 52))
               || ((72 <=? Z.to_nat i) && (Z.to_nat i <? 80))
               || ((108 <=? Z.to_nat i) && (Z.to_nat i <? 140)))%nat = true).
  { destruct (Nat.ltb_spec (Z.to_nat i) 4), (Nat.leb_spec 36 (Z.to_nat i)),
      (Nat.ltb_spec (Z.to_nat i) 52), (Nat.leb_spec 72 (Z.to_nat i)),
      (Nat.ltb_spec (Z.to_nat i) 80), (Nat.leb_spec 108 (Z.to_nat i)),
      (Nat.ltb_spec (Z.to_nat i) 140); cbn; try reflexivity; lia. }
  rewrite G in F.
  destruct (canonical_table !! Z.to_nat i) as [v|]; [|discriminate].
  cbn [default]. rewrite !andb_true_iff in F.
  destruct F as ((((F1 & F2) & F3) & F4) & F5).
  apply Z.eqb_eq in F1, F3, F4. apply Z.leb_le in F2.
  apply negb_true_iff, Z.eqb_neq in F5.
  pose proof (Z.mod_pos_bound i 36 ltac:(lia)).
  repeat split; try assumption; lia.
Qed.

(** X4.  With the table of [init_decrunch_table], [get_coded_command_val]
    returns [COMMAND_EOS_MARKER] exactly when the input runs out on the
    path of the tree; the path 1111 gives the gamma command 3; and after
    0, 10, 110 and 1110 it gives a literal command whose run-length field
    is the index read from the stream (5, 4, 3 or 2 bits), so the run is of
    1 to 32, 16, 8 or 4 bytes.  A short-sequence command (type 1 or 2) is
    never returned. *)
Theorem commands_are_literal_or_gamma (s : state) :
  exod_decrunch_table_data s = canonical_table ->
  let cmd := fst (get_coded_command_val s) in
  match spec_table_index (pending_bits s) with
  | None => cmd = COMMAND_EOS_MARKER
  | Some (i, r) =>
      cmd <> COMMAND_EOS_MARKER
      /\ pending_bits (snd (get_coded_command_val s)) = r
      /\ if i =? 144 then cmd = 3
         else cmd = Z.shiftl (i mod 36) 2
              /\ Z.land cmd 3 = 0 /\ Z.shiftr cmd 2 = i mod 36
              /\ 0 <= i mod 36 <= 31
  end
  /\ Z.land cmd 3 <> 1 /\ Z.land cmd 3 <> 2.
Proof.
  intros T. cbn zeta.
  destruct (get_coded_command_val_tree s) as [_ H].
  destruct (spec_table_index (pending_bits s)) as [[i r]|] eqn:E.
  - destruct H as [C P]. rewrite C.
    destruct (spec_table_index_range _ _ _ E) as [R|[R|[R|[R|R]]]];
      try (destruct (canonical_literal_entry s i T ltac:(lia))
             as (L1 & L2 & L3 & L4 & L5);
           destruct (Z.eqb_spec i 144); [lia|];
           rewrite L3; repeat split; auto; lia).
    subst i. unfold table_at. rewrite T. cbn.
    repeat split; auto; discriminate.
  - rewrite H. cbn. repeat split; discriminate.
Qed.

Lemma commands_are_literal_or_gamma_witness :
  let s := exod_decrunch_reset boot demo_crunched_data [] 0 in
  let cmd := fst (get_coded_command_val s) in
  match spec_table_index (pending_bits s) with
  | None => cmd = COMMAND_EOS_MARKER
  | Some (i, r) =>
      cmd <> COMMAND_EOS_MARKER
      /\ pending_bits (snd (get_coded_command_val s)) = r
      /\ if i =? 144 then cmd = 3
         else cmd = Z.shiftl (i mod 36) 2
              /\ Z.land cmd 3 = 0 /\ Z.shiftr cmd 2 = i mod 36
              /\ 0 <= i mod 36 <= 31
  end
  /\ Z.land cmd 3 <> 1 /\ Z.land cmd 3 <> 2.
Proof.
  intros s.
  apply (commands_are_literal_or_gamma s). vm_compute. reflexivity.
Defined.

(** ** The exits of a run *)

Lemma literal_run_exit (todo : nat) (s : state) (e : exit) (s' : state) :
  literal_run todo s = Return e s' -> e = ExitLiteralEOS.
Proof.
  revert s. induction todo as [|todo IH]; intros s; cbn [literal_run];
    [discriminate|].
  destruct (decompressed_buffer_size s <=? decompressed_data_index s)%nat;
    [discriminate|].
  destruct (get_n_bits 8 s) as [b s1].
  destruct (b =? -1); [now intros [= <- _]|].
  destruct (store_output (u8 b) s1) as [s2|]; [apply IH|discriminate].
Qed.

Lemma copy_run_no_return (todo : nat) (offset : Z) (s : state) e s' :
  copy_run todo offset s <> Return e s'.
Proof.
  revert s. induction todo as [|todo IH]; intros s; cbn [copy_run];
    [discriminate|].
  destruct (decompressed_buffer_size s <=? decompressed_data_index s)%nat;
    [discriminate|].
  destruct (copy_byte offset s) as [s1|]; [apply IH|discriminate].
Qed.

Lemma copy_sequence_exit (length offset : Z) (s : state) e s' :
  copy_sequence length offset s = Return e s' -> e = ExitInvalidOffset.
Proof.
  unfold copy_sequence.
  destruct ((offset =? 0) || (Z.of_nat (decompressed_data_index s) <? offset)).
  - now intros [= <- _].
  - intros H. now apply copy_run_no_return in H.
Qed.

Lemma read_sequence_gamma_exit (type v : Z) (s : state) e s' :
  type <> 1 -> type <> 2 ->
  read_sequence type v s = inl (e, s') ->
  e = ExitGammaLength \/ e = ExitReuseBitEOS \/ e = ExitGammaOffset.
Proof.
  intros T1 T2. unfold read_sequence.
  destruct (Z.eqb_spec type 1); [contradiction|].
  destruct (Z.eqb_spec type 2); [contradiction|].
  destruct (get_gamma_coded_value s) as [l s1].
  destruct (l =? 0); [intros [= <- _]; auto|].
  destruct (get_one_bit s1) as [b s2].
  destruct (b =? -1); [intros [= <- _]; auto|].
  destruct (b =? 1); [discriminate|].
  destruct (get_gamma_coded_value s2) as [o s3].
  destruct (o =? 0); [intros [= <- _]; auto|discriminate].
Qed.

Lemma decrunch_iteration_exit (s : state) (e : exit) (s' : state) :
  exod_decrunch_table_data s = canonical_table ->
  decrunch_iteration s = Return e s' ->
  e <> ExitOffsetBitsEOS /\ e <> ExitBufferFull.
Proof.
  intros T. unfold decrunch_iteration.
  pose proof (get_coded_command_val_tree s) as [_ C].
  pose proof (spec_table_index_range (pending_bits s)) as R.
  destruct (get_coded_command_val s) as [cmd s1]. cbn [fst snd] in C.
  destruct (Z.eqb_spec cmd COMMAND_EOS_MARKER) as [->|N].
  { intros [= <- _]. split; discriminate. }
  destruct (spec_table_index (pending_bits s)) as [[i r]|];
    [|contradiction].
  destruct C as [C _]. specialize (R i r eq_refl).
  assert (K : Z.land cmd 3 = 0 \/ Z.land cmd 3 = 3).
  { destruct R as [R|[R|[R|[R|R]]]];
      try (destruct (canonical_literal_entry s i T ltac:(lia))
             as (_ & _ & L & _); rewrite C; now left).
    subst i. rewrite C. unfold table_at. rewrite T. now right. }
  destruct K as [K|K]; rewrite K; cbn [Z.eqb].
  - intros H%literal_run_exit. subst e. split; discriminate.
  - destruct (read_sequence 3 (Z.shiftr cmd 2) s1) as [[e1 s2]|[[l o] s2]] eqn:Q.
    + intros [= <- _].
      apply read_sequence_gamma_exit in Q; [|discriminate..].
      destruct Q as [->|[->| ->]]; split; discriminate.
    + intros H%copy_sequence_exit. subst e. split; discriminate.
Qed.

Lemma decrunch_loop_exit (fuel : nat) (s : state) (e : exit) (s' : state) :
  exod_decrunch_table_data s = canonical_table -> state_ok s ->
  decrunch_loop fuel s = Finished e s' -> e <> ExitOffsetBitsEOS.
Proof.
  revert s. induction fuel as [|fuel IH]; intros s T Hs; cbn [decrunch_loop];
    destruct (decompressed_buffer_size s <=? decompressed_data_index s)%nat;
    try (intros [= <- _]; discriminate); try discriminate.
  pose proof (decrunch_iteration_ok s Hs) as [O _].
  pose proof (decrunch_iteration_exit s) as X.
  destruct (decrunch_iteration s) as [s1|e1 s1|]; [| |discriminate].
  - destruct O as [E Hs1]. apply IH; [|exact Hs1].
    destruct E as [E _]. now rewrite E.
  - intros [= <- _]. now apply (X e1 s1 T eq_refl).
Qed.

(** X5.  The two short-sequence branches of [exod_decrunch] (type 1 and
    type 2, with their return on a failed read of the offset bits) are
    never taken: whatever the input, a call ends, and not at that
    return. *)
Theorem short_sequence_branches_never_taken
    (g : state) (in_data out_buffer : list Z) (cap : nat) :
  length (exod_decrunch_table_data g) = 145%nat ->
  (cap <= length out_buffer)%nat ->
  (exists e s, exod_decrunch g in_data out_buffer cap = Finished e s
               /\ e <> ExitOffsetBitsEOS)
  /\ forall s e s',
       exod_decrunch_table_data s = exod_decrunch_table_data
                  (exod_decrunch_reset g in_data out_buffer cap) ->
       decrunch_iteration s = Return e s' -> e <> ExitOffsetBitsEOS.
Proof.
  intros T L.
  pose proof (exod_decrunch_reset_canonical g in_data out_buffer cap T) as C.
  assert (TC : exod_decrunch_table_data
                 (exod_decrunch_reset g in_data out_buffer cap)
               = canonical_table) by now rewrite C.
  split.
  - pose proof (exod_decrunch_ok g in_data out_buffer cap L) as V.
    destruct (exod_decrunch g in_data out_buffer cap) as [e s| |] eqn:E;
      [|contradiction..].
    exists e, s. split; [reflexivity|].
    unfold exod_decrunch in E.
    eapply decrunch_loop_exit; [exact TC| |exact E].
    now apply exod_decrunch_reset_ok.
  - intros s e s' Ts R. rewrite TC in Ts.
    now apply (decrunch_iteration_exit s e s' Ts R).
Qed.

Lemma short_sequence_branches_never_taken_witness :
  (exists e s,
      exod_decrunch boot demo_crunched_data (replicate 8 0) 8 = Finished e s
      /\ e <> ExitOffsetBitsEOS)
  /\ forall s e s',
       exod_decrunch_table_data s
       = exod_decrunch_table_data
           (exod_decrunch_reset boot demo_crunched_data (replicate 8 0) 8) ->
       decrunch_iteration s = Return e s' -> e <> ExitOffsetBitsEOS.
Proof.
  apply (short_sequence_branches_never_taken boot demo_crunched_data
           (replicate 8 0) 8); [reflexivity|cbn; lia].
Defined.

(** ** The lines on Serial *)

Lemma reader_moved_serial s s' : reader_moved s s' -> serial s' = serial s.
Proof. intros M. apply M. Qed.

Lemma literal_run_serial (todo : nat) (s : state) :
  match literal_run todo s with
  | Next s' | Return _ s' => serial s' = serial s
  | Fault => True
  end.
Proof.
  revert s. induction todo as [|todo IH]; intros s; cbn [literal_run];
    [reflexivity|].
  destruct (decompressed_buffer_size s <=? decompressed_data_index s)%nat;
    [reflexivity|].
  pose proof (get_n_bits_moved 8 s) as M.
  destruct (get_n_bits 8 s) as [b s1]. cbn [snd] in M.
  apply reader_moved_serial in M.
  destruct (b =? -1); [exact M|].
  destruct (store_output (u8 b) s1) as [s2|] eqn:W; [|exact Logic.I].
  apply store_output_spec in W. destruct W as (_ & _ & _ & _ & _ & W).
  specialize (IH s2).
  destruct (literal_run todo s2); try exact Logic.I; congruence.
Qed.

Lemma copy_run_serial (todo : nat) (offset : Z) (s : state) :
  match copy_run todo offset s with
  | Next s' | Return _ s' => serial s' = serial s
  | Fault => True
  end.
Proof.
  revert s. induction todo as [|todo IH]; intros s; cbn [copy_run];
    [reflexivity|].
  destruct (decompressed_buffer_size s <=? decompressed_data_index s)%nat;
    [reflexivity|].
  unfold copy_byte.
  destruct (load_output _ s) as [v|]; [|exact Logic.I].
  destruct (store_output v s) as [s1|] eqn:W; [|exact Logic.I].
  apply store_output_spec in W. destruct W as (_ & _ & _ & _ & _ & W).
  specialize (IH s1).
  destruct (copy_run todo offset s1); try exact Logic.I; congruence.
Qed.

Lemma read_sequence_serial (type v : Z) (s : state) :
  match read_sequence type v s with
  | inl (_, s') | inr (_, _, s') => serial s' = serial s
  end.
Proof.
  unfold read_sequence.
  pose proof (reader_moved_serial _ _ (get_n_bits_moved v s)) as M.
  destruct (get_n_bits v s) as [raw s1]. cbn [snd] in M.
  destruct (type =? 1); [now destruct (raw =? -1)|].
  destruct (type =? 2); [now destruct (raw =? -1)|].
  pose proof (get_gamma_coded_value_advanced s) as [G%reader_moved_serial _].
  destruct (get_gamma_coded_value s) as [l s2]. cbn [snd] in G.
  destruct (l =? 0); [exact G|].
  pose proof (get_one_bit_stream s2) as (_ & _ & B%reader_moved_serial).
  destruct (get_one_bit s2) as [b s3]. cbn [snd] in B.
  destruct (b =? -1); [congruence|]. destruct (b =? 1); [congruence|].
  pose proof (get_gamma_coded_value_advanced s3) as [H%reader_moved_serial _].
  destruct (get_gamma_coded_value s3) as [o s4]. cbn [snd] in H.
  destruct (o =? 0); [congruence|]. cbn. congruence.
Qed.

Lemma decrunch_iteration_serial (s : state) :
  match decrunch_iteration s with
  | Next s' => serial s' = serial s
  | Return e s' => serial s' = serial s ++ lines_of_exit e
  | Fault => True
  end.
Proof.
  unfold decrunch_iteration.
  pose proof (get_coded_command_val_advanced s) as [C%reader_moved_serial _].
  destruct (get_coded_command_val s) as [cmd s1]. cbn [snd] in C.
  destruct (cmd =? COMMAND_EOS_MARKER).
  { cbn. now rewrite app_nil_r. }
  destruct (Z.land cmd 3 =? 0).
  { pose proof (literal_run_serial (Z.to_nat (u16 (Z.shiftr cmd 2 + 1))) s1)
      as L.
    destruct (literal_run _ s1) as [s2|e s2|] eqn:Q; [congruence| |exact Logic.I].
    apply literal_run_exit in Q. subst e. cbn. rewrite app_nil_r. congruence. }
  pose proof (read_sequence_serial (Z.land cmd 3) (Z.shiftr cmd 2) s1) as Q.
  destruct (read_sequence _ _ s1) as [[e s2]|[[l o] s2]] eqn:E.
  - assert (lines_of_exit e = []) as ->; [|rewrite app_nil_r; congruence].
    revert E. unfold read_sequence.
    repeat match goal with
           | |- context [let '(_, _) := ?p in _] => destruct p
           | |- context [if ?c then _ else _] => destruct c
           end; intros [= <- _] || discriminate; reflexivity.
  - unfold copy_sequence.
    destruct ((o =? 0) || (Z.of_nat (decompressed_data_index s2) <? o)).
    + cbn. congruence.
    + pose proof (copy_run_serial (Z.to_nat l) o s2) as R.
      pose proof (copy_run_no_return (Z.to_nat l) o s2) as N.
      destruct (copy_run _ o s2) as [s3|e s3|]; [congruence| |exact Logic.I].
      now destruct (N e s3).
Qed.

Lemma decrunch_loop_serial (fuel : nat) (s : state) (e : exit) (s' : state) :
  decrunch_loop fuel s = Finished e s' ->
  serial s' = serial s ++ lines_of_exit e.
Proof.
  revert s. induction fuel as [|fuel IH]; intros s; cbn [decrunch_loop];
    destruct (decompressed_buffer_size s <=? decompressed_data_index s)%nat;
    try (intros [= <- <-]; cbn; now rewrite app_nil_r); try discriminate.
  pose proof (decrunch_iteration_serial s) as I.
  destruct (decrunch_iteration s) as [s1|e1 s1|]; [| |discriminate].
  - intros H%IH. congruence.
  - intros [= <- <-]. exact I.
Qed.

(** X6.  A call of [exod_decrunch] prints nothing, except that it prints
    the one line "Error: Invalid offset" when it returns at the offset
    check; lines printed before the call stay. *)
Theorem exod_decrunch_prints_only_invalid_offset
    (g : state) (in_data out_buffer : list Z) (cap : nat)
    (e : exit) (s : state) :
  exod_decrunch g in_data out_buffer cap = Finished e s ->
  serial s = serial g ++ lines_of_exit e
  /\ (serial s = serial g <-> e <> ExitInvalidOffset).
Proof.
  intros H. unfold exod_decrunch in H. apply decrunch_loop_serial in H.
  destruct (exod_decrunch_reset_spec g in_data out_buffer cap)
    as (_ & _ & _ & _ & _ & _ & G).
  rewrite G in H. split; [exact H|]. rewrite H.
  destruct e; cbn; rewrite ?app_nil_r; split; try discriminate; auto;
    try congruence.
  intros K. apply (f_equal length) in K. rewrite length_app in K.
  cbn in K. lia.
Qed.

Lemma exod_decrunch_prints_only_invalid_offset_witness :
  let s := State 0 2 reuse_first 1 (replicate 16 0) 16 0 0 canonical_table
                 ["Error: Invalid offset"] in
  exod_decrunch boot reuse_first (replicate 16 0) 16
  = Finished ExitInvalidOffset s
  /\ serial s = serial boot ++ lines_of_exit ExitInvalidOffset
  /\ (serial s = serial boot <-> ExitInvalidOffset <> ExitInvalidOffset).
Proof.
  intros s.
  assert (H : exod_decrunch boot reuse_first (replicate 16 0) 16
              = Finished ExitInvalidOffset s) by (vm_compute; reflexivity).
  split; [exact H|].
  exact (exod_decrunch_prints_only_invalid_offset
           boot reuse_first (replicate 16 0) 16 ExitInvalidOffset s H).
Defined.

(** ** Calls with nothing to do *)

(** X7.  A call with capacity 0 ends at once at the loop condition, without
    reading the input; a call on an empty input with room in the output
    ends at the end-of-stream command.  Either way nothing is written to
    the output array and nothing is printed.  This holds for any array,
    also one shorter than the capacity given. *)
Theorem exod_decrunch_nothing_to_do
    (g : state) (in_data out_buffer : list Z) (cap : nat) :
  cap = 0%nat \/ in_data = [] ->
  exists s,
    exod_decrunch g in_data out_buffer cap
    = Finished (if (cap =? 0)%nat then ExitBufferFull else ExitEOS) s
    /\ decompressed_data s = out_buffer
    /\ decompressed_data_index s = 0%nat
    /\ crunched_data_index s = 0%nat
    /\ serial s = serial g.
Proof.
  intros H. exists (exod_decrunch_reset g in_data out_buffer cap).
  split; [|now unfold exod_decrunch_reset, init_decrunch_table].
  unfold exod_decrunch.
  replace (8 * length in_data + 1)%nat with (S (8 * length in_data))
    by lia.
  cbn [decrunch_loop].
  replace (decompressed_buffer_size
             (exod_decrunch_reset g in_data out_buffer cap)) with cap
    by reflexivity.
  replace (decompressed_data_index
             (exod_decrunch_reset g in_data out_buffer cap)) with 0%nat
    by reflexivity.
  destruct cap as [|cap]; [reflexivity|].
  destruct H as [H|H]; [discriminate|]. subst in_data.
  reflexivity.
Qed.

Lemma exod_decrunch_nothing_to_do_witness :
  exists s,
    exod_decrunch boot demo_crunched_data [] 0
    = Finished (if (0 =? 0)%nat then ExitBufferFull else ExitEOS) s
    /\ decompressed_data s = []
    /\ decompressed_data_index s = 0%nat
    /\ crunched_data_index s = 0%nat
    /\ serial s = serial boot.
Proof.
  apply (exod_decrunch_nothing_to_do boot demo_crunched_data [] 0).
  left. reflexivity.
Defined.

(** ** The array passed in *)

Lemma exit_buffer_full_or_not (e : exit) :
  e = ExitBufferFull \/ e <> ExitBufferFull.
Proof. destruct e; (left; reflexivity) || (right; discriminate). Qed.

(** X8.  What a call of [exod_decrunch] decodes does not depend on what the
    output array held before: two calls on the same input with the same
    capacity, on arrays of any contents, take the same exit, write the
    same number of bytes and the same bytes, and print the same; above
    the bytes written each array is as it was. *)
Theorem exod_decrunch_ignores_old_contents
    (g : state) (in_data out1 out2 : list Z) (cap : nat) :
  (cap <= length out1)%nat -> (cap <= length out2)%nat ->
  exists e s1 s2,
    exod_decrunch g in_data out1 cap = Finished e s1
    /\ exod_decrunch g in_data out2 cap = Finished e s2
    /\ decompressed_data_index s1 = decompressed_data_index s2
    /\ take (decompressed_data_index s1) (decompressed_data s1)
       = take (decompressed_data_index s2) (decompressed_data s2)
    /\ drop (decompressed_data_index s1) (decompressed_data s1)
       = drop (decompressed_data_index s1) out1
    /\ drop (decompressed_data_index s2) (decompressed_data s2)
       = drop (decompressed_data_index s2) out2
    /\ serial s1 = serial s2.
Proof.
  intros L1 L2.
  pose proof (exod_decrunch_ok g in_data out1 cap L1) as V1.
  pose proof (exod_decrunch_ok g in_data out2 cap L2) as V2.
  set (r1 := exod_decrunch_reset g in_data out1 cap) in *.
  set (r2 := exod_decrunch_reset g in_data out2 cap) in *.
  assert (S12 : sim r1 r2) by (apply exod_decrunch_reset_sim; lia).
  assert (S21 : sim r2 r1) by (apply exod_decrunch_reset_sim; lia).
  assert (O1 : state_ok r1) by now apply exod_decrunch_reset_ok.
  assert (O2 : state_ok r2) by now apply exod_decrunch_reset_ok.
  assert (B1 : bits_left r1 = (8 * length in_data)%nat)
    by apply exod_decrunch_reset_spec.
  assert (B2 : bits_left r2 = (8 * length in_data)%nat)
    by apply exod_decrunch_reset_spec.
  assert (D1 : decompressed_data r1 = out1) by reflexivity.
  assert (D2 : decompressed_data r2 = out2) by reflexivity.
  assert (I1 : decompressed_data_index r1 = 0%nat) by reflexivity.
  assert (I2 : decompressed_data_index r2 = 0%nat) by reflexivity.
  assert (G : serial r1 = serial r2) by reflexivity.
  unfold exod_decrunch in *. fold r1 r2 in V1, V2 |- *.
  destruct (decrunch_loop _ r1) as [e1 s1| |] eqn:E1; [|contradiction..].
  destruct (decrunch_loop _ r2) as [e2 s2| |] eqn:E2; [|contradiction..].
  destruct V1 as (V1 & K1 & F1), V2 as (V2 & K2 & F2).
  assert (Q : e1 = e2 /\ decompressed_data_index s1 = decompressed_data_index s2
              /\ forall j, (j < decompressed_data_index s1)%nat ->
                   decompressed_data s1 !! j = decompressed_data s2 !! j).
  { destruct (exit_buffer_full_or_not e1) as [X1|X1].
    - destruct (exit_buffer_full_or_not e2) as [X2|X2].
      + assert (P : prefix_of s1 s2).
        { eapply (decrunch_loop_prefix (8 * length in_data + 1) r1 r2);
            [exact S12|exact O2|lia|exact E1|exact E2]. }
        destruct P as [_ P].
        destruct V1 as (_ & C1 & _), V2 as (_ & C2 & _).
        rewrite (F1 X1), (F2 X2), C1, C2. split; [congruence|].
        split; [reflexivity|].
        intros j Hj. apply P. rewrite (F1 X1), C1. exact Hj.
      + destruct (decrunch_loop_sim _ r2 r1 e2 s2 S21 O1 E2 X2)
          as (t & Et & _).
        rewrite E1 in Et. congruence.
    - destruct (decrunch_loop_sim _ r1 r2 e1 s1 S12 O2 E1 X1)
        as (t & Et & St).
      rewrite E2 in Et. injection Et as <- <-.
      destruct St as (_ & _ & _ & _ & St & Sd & _). auto. }
  destruct Q as (<- & QI & QD).
  exists e1, s1, s2.
  repeat match goal with |- _ /\ _ => split end; try reflexivity;
    try exact QI.
  - apply list_eq. intros j. rewrite <- QI.
    destruct (Nat.lt_ge_cases j (decompressed_data_index s1)) as [Hj|Hj].
    + rewrite !lookup_take_lt by exact Hj. now apply QD.
    + rewrite !lookup_take_ge by exact Hj. reflexivity.
  - apply list_eq. intros j. rewrite !lookup_drop.
    destruct V1 as (_ & _ & _ & _ & V1 & _).
    rewrite V1, D1 by lia. reflexivity.
  - apply list_eq. intros j. rewrite !lookup_drop.
    destruct V2 as (_ & _ & _ & _ & V2 & _).
    rewrite V2, D2 by lia. reflexivity.
  - rewrite (decrunch_loop_serial _ _ _ _ E1),
      (decrunch_loop_serial _ _ _ _ E2). now rewrite G.
Qed.

Lemma exod_decrunch_ignores_old_contents_witness :
  exists e s1 s2,
    exod_decrunch boot demo_crunched_data (replicate 8 0) 8 = Finished e s1
    /\ exod_decrunch boot demo_crunched_data (replicate 9 255) 8
       = Finished e s2
    /\ decompressed_data_index s1 = decompressed_data_index s2
    /\ take (decompressed_data_index s1) (decompressed_data s1)
       = take (decompressed_data_index s2) (decompressed_data s2)
    /\ drop (decompressed_data_index s1) (decompressed_data s1)
       = drop (decompressed_data_index s1) (replicate 8 0)
    /\ drop (decompressed_data_index s2) (decompressed_data s2)
       = drop (decompressed_data_index s2) (replicate 9 255)
    /\ serial s1 = serial s2.
Proof.
  apply (exod_decrunch_ignores_old_contents boot demo_crunched_data
           (replicate 8 0) (replicate 9 255) 8); cbn; lia.
Defined.

(** ** Literal runs *)

Lemma octet_S (k : nat) (bs : list bool) :
  octet (S k) bs = octet k (drop 8 bs).
Proof.
  unfold octet. rewrite drop_drop. f_equal. f_equal. f_equal. lia.
Qed.

Lemma literal_run_bytes (n : nat) (s : state) :
  state_ok s ->
  let m := Nat.min n (decompressed_buffer_size s - decompressed_data_index s) in
  exists (w : nat) (s' : state),
    (w <= m)%nat /\ (8 * w <= bits_left s)%nat
    /\ literal_run n s
       = (if (w =? m)%nat then Next s' else Return ExitLiteralEOS s')
    /\ (if (w =? m)%nat then pending_bits s' = drop (8 * w) (pending_bits s)
        else (bits_left s < 8 * (w + 1))%nat /\ pending_bits s' = [])
    /\ decompressed_data_index s' = (decompressed_data_index s + w)%nat
    /\ (forall k : nat, (k < w)%nat ->
          decompressed_data s' !! (decompressed_data_index s + k)%nat
          = Some (octet k (pending_bits s)))
    /\ evolves s s'
    /\ last_offset_val s' = last_offset_val s.
Proof.
  revert s. induction n as [|n IH]; intros s Hs; cbn zeta.
  { exists 0%nat, s. cbn. repeat split; try lia; auto using evolves_refl. }
  cbn [literal_run].
  destruct (Nat.leb_spec (decompressed_buffer_size s)
              (decompressed_data_index s)) as [F|F].
  { exists 0%nat, s.
    replace (Nat.min (S n) _) with 0%nat by lia. cbn.
    repeat split; try lia; auto using evolves_refl. }
  destruct (get_n_bits_ex 8 s ltac:(lia)) as (s1 & M & G).
  assert (A1 : advanced s s1).
  { pose proof (get_n_bits_advanced 8 s) as A.
    destruct (8 <=? length (pending_bits s))%nat;
      destruct G as [G _]; change (Z.of_nat 8) with 8 in G;
      rewrite G in A; exact A. }
  pose proof (advanced_state_ok _ _ A1 Hs) as Hs1.
  pose proof (advanced_evolves _ _ A1) as E1.
  destruct M as (_ & MD & MZ & MI & ML & _).
  change (Z.of_nat 8) with 8 in G.
  destruct (Nat.leb_spec 8 (length (pending_bits s))) as [B|B];
    destruct G as [G P1]; rewrite G.
  - rewrite bits_value_not_eos.
    pose proof (bits_value_range (take 8 (pending_bits s))) as R.
    rewrite length_take, Nat.min_l in R by exact B.
    change (2 ^ Z.of_nat 8) with 256 in R.
    unfold u8. rewrite Z.mod_small by exact R.
    destruct (store_output_ok (bits_value (take 8 (pending_bits s))) s1 Hs1
                ltac:(lia)) as (s2 & W & Hs2).
    rewrite W.
    destruct (store_output_spec _ _ _ W) as (E2 & I2 & V2 & P2 & L2 & _).
    destruct (IH s2 Hs2) as (w & s' & Lw & Lb & R' & Pw & Iw & Bw & Ew & Lo).
    destruct E2 as (_ & Z2 & _).
    rewrite Z2, MZ, I2, MI in Lw, R', Pw.
    assert (BL : bits_left s2 = (bits_left s - 8)%nat).
    { unfold bits_left. rewrite P2, P1, length_drop. reflexivity. }
    assert (K : Nat.min (S n) (decompressed_buffer_size s
                               - decompressed_data_index s)
                = S (Nat.min n (decompressed_buffer_size s
                                - S (decompressed_data_index s))))
      by lia.
    rewrite K. exists (S w), s'.
    change (S w =? S ?x)%nat with (w =? x)%nat.
    unfold bits_left in *.
    repeat match goal with |- _ /\ _ => split end.
    + lia.
    + lia.
    + exact R'.
    + destruct (w =? _)%nat.
      * rewrite Pw, P2, P1, drop_drop. f_equal. lia.
      * destruct Pw as [Pw1 Pw2]. split; [lia|exact Pw2].
    + rewrite Iw, I2, MI. lia.
    + intros [|k] Hk.
      * rewrite Nat.add_0_r.
        destruct Ew as (_ & _ & _ & _ & Ew & _).
        rewrite Ew by (left; lia). rewrite <- MI. exact V2.
      * rewrite octet_S, <- P1, <- P2.
        replace (decompressed_data_index s + S k)%nat
          with (decompressed_data_index s2 + k)%nat by lia.
        apply Bw. lia.
    + eapply evolves_trans; [exact E1|].
      eapply evolves_trans; [|exact Ew].
      now apply store_output_spec in W.
    + congruence.
  - cbn [Z.eqb]. exists 0%nat, s1.
    replace (0 =? Nat.min (S n) _)%nat with false
      by (symmetry; apply Nat.eqb_neq; lia).
    unfold bits_left.
    repeat match goal with |- _ /\ _ => split end;
      try reflexivity; try lia; try assumption.
Qed.

(** X9.  A literal run of [n] bytes writes the next groups of eight bits of
    the input, in order, as bytes at the write position.  It writes
    [w] bytes, where [w] is as many as the run has, the room left in the
    output allows and the input holds whole; when the input holds fewer
    than the run and the room ask for, the run returns from the function
    with what is left of the input discarded; when the room is less than
    the run, the bytes of the run not written stay in the input. *)
Theorem literal_run_writes_input_bytes (n : nat) (s : state) :
  state_ok s ->
  let m := Nat.min n (decompressed_buffer_size s - decompressed_data_index s) in
  exists (w : nat) (s' : state),
    (w <= m)%nat /\ (8 * w <= bits_left s)%nat
    /\ literal_run n s
       = (if (w =? m)%nat then Next s' else Return ExitLiteralEOS s')
    /\ (if (w =? m)%nat then pending_bits s' = drop (8 * w) (pending_bits s)
        else (bits_left s < 8 * (w + 1))%nat /\ pending_bits s' = [])
    /\ decompressed_data_index s' = (decompressed_data_index s + w)%nat
    /\ (forall k : nat, (k < w)%nat ->
          decompressed_data s' !! (decompressed_data_index s + k)%nat
          = Some (octet k (pending_bits s)))
    /\ (forall j : nat,
          (j < decompressed_data_index s)%nat
          \/ (decompressed_data_index s + w <= j)%nat ->
          decompressed_data s' !! j = decompressed_data s !! j)
    /\ last_offset_val s' = last_offset_val s.
Proof.
  intros Hs m.
  destruct (literal_run_bytes n s Hs)
    as (w & s' & H1 & H2 & H3 & H4 & H5 & H6 & H7 & H8).
  exists w, s'. fold m in H1, H3, H4.
  repeat match goal with |- _ /\ _ => split end; try assumption.
  - intros j Hj. destruct H7 as (_ & _ & _ & _ & H7 & _).
    apply H7. lia.
Qed.

Lemma literal_run_writes_input_bytes_witness :
  let s := exod_decrunch_reset boot hello (replicate 8 0) 8 in
  let m := Nat.min 3 (decompressed_buffer_size s - decompressed_data_index s) in
  exists (w : nat) (s' : state),
    (w <= m)%nat /\ (8 * w <= bits_left s)%nat
    /\ literal_run 3 s
       = (if (w =? m)%nat then Next s' else Return ExitLiteralEOS s')
    /\ (if (w =? m)%nat then pending_bits s' = drop (8 * w) (pending_bits s)
        else (bits_left s < 8 * (w + 1))%nat /\ pending_bits s' = [])
    /\ decompressed_data_index s' = (decompressed_data_index s + w)%nat
    /\ (forall k : nat, (k < w)%nat ->
          decompressed_data s' !! (decompressed_data_index s + k)%nat
          = Some (octet k (pending_bits s)))
    /\ (forall j : nat,
          (j < decompressed_data_index s)%nat
          \/ (decompressed_data_index s + w <= j)%nat ->
          decompressed_data s' !! j = decompressed_data s !! j)
    /\ last_offset_val s' = last_offset_val s.
Proof.
  intros s. apply (literal_run_writes_input_bytes 3 s).
  apply exod_decrunch_reset_ok. cbn. lia.
Defined.

(** ** The gamma decoder, further *)

(** X10.  A gamma code of [k] zero bits, a one bit and [k] payload bits,
    for [k] up to 15, decodes to 2^k plus the payload read most significant
    bit first: a value from 2^k to 2^(k+1) - 1, never 0.  The decoder takes
    the 2k+1 bits of the code from the input and nothing more. *)
Theorem get_gamma_coded_value_of_code
    (k : nat) (payload r : list bool) (s : state) :
  pending_bits s = replicate k false ++ true :: payload ++ r ->
  length payload = k -> (k <= 15)%nat ->
  exists s',
    get_gamma_coded_value s = (2 ^ Z.of_nat k + bits_value payload, s')
    /\ 2 ^ Z.of_nat k <= 2 ^ Z.of_nat k + bits_value payload
       < 2 ^ (Z.of_nat k + 1)
    /\ pending_bits s' = r
    /\ (bits_left s' + (2 * k + 1) = bits_left s)%nat
    /\ reader_moved s s'.
Proof.
  intros P L K.
  destruct (get_gamma_coded_value_stream k payload r s P L K)
    as (s' & G & R & M).
  pose proof (bits_value_range payload) as B. rewrite L in B.
  rewrite lor_pow2_small in G by lia.
  exists s'. repeat match goal with |- _ /\ _ => split end;
    try assumption; try lia.
  - rewrite Z.pow_add_r by lia. lia.
  - unfold bits_left. rewrite P, R.
    rewrite length_app, length_replicate. cbn [length].
    rewrite length_app. lia.
Qed.

Lemma get_gamma_coded_value_of_code_witness :
  let s := State 0 0 [46] 0 [] 0 0 0 canonical_table [] in
  exists s',
    get_gamma_coded_value s
    = (2 ^ Z.of_nat 2 + bits_value [false; true], s')
    /\ 2 ^ Z.of_nat 2 <= 2 ^ Z.of_nat 2 + bits_value [false; true]
       < 2 ^ (Z.of_nat 2 + 1)
    /\ pending_bits s' = [true; true; false]
    /\ (bits_left s' + (2 * 2 + 1) = bits_left s)%nat
    /\ reader_moved s s'.
Proof.
  intros s.
  apply (get_gamma_coded_value_of_code 2 [false; true] [true; true; false] s);
    [reflexivity|reflexivity|lia].
Defined.

Lemma gamma_code_shape (v : Z) :
  1 <= v ->
  let k := Z.to_nat (Z.log2 v) in
  gamma_code v = replicate k false ++ true :: bits_of_value k v
  /\ length (bits_of_value k v) = k
  /\ 2 ^ Z.of_nat k + bits_value (bits_of_value k v) = v
  /\ (v < 65536 -> (k <= 15)%nat).
Proof.
  intros V k. split; [reflexivity|]. split; [apply bits_of_value_length|].
  pose proof (Z.log2_nonneg v) as N.
  destruct (Z.log2_spec v ltac:(lia)) as [Lo Hi].
  assert (Ek : Z.of_nat k = Z.log2 v) by (unfold k; lia).
  split.
  - rewrite bits_value_of_value, Ek.
    replace v with ((v - 2 ^ Z.log2 v) + 1 * 2 ^ Z.log2 v) at 2 by lia.
    rewrite Z.mod_add by lia. rewrite Z.mod_small; [lia|].
    rewrite Z.pow_succ_r in Hi by lia. lia.
  - intros W. assert (Z.log2 v < 16); [|lia].
    apply Z.log2_lt_pow2; lia.
Qed.

(** X11.  Every value from 1 to 65535 has a code that
    [get_gamma_coded_value] decodes to it, whatever follows the code in
    the input; the decoder stops right after the code. *)
Theorem get_gamma_coded_value_round_trip (v : Z) (r : list bool) (s : state) :
  1 <= v <= 65535 ->
  pending_bits s = gamma_code v ++ r ->
  exists s', get_gamma_coded_value s = (v, s')
             /\ pending_bits s' = r /\ reader_moved s s'.
Proof.
  intros V P.
  destruct (gamma_code_shape v ltac:(lia)) as (C & L & E & K).
  rewrite C, <- app_assoc in P. cbn [app] in P.
  destruct (get_gamma_coded_value_stream _ _ r s P L ltac:(lia))
    as (s' & G & R & M).
  pose proof (bits_value_range (bits_of_value (Z.to_nat (Z.log2 v)) v)) as B.
  rewrite L in B. rewrite lor_pow2_small in G by lia.
  rewrite E in G. eauto.
Qed.

Lemma get_gamma_coded_value_round_trip_witness :
  let s := State 0 0 [46] 0 [] 0 0 0 canonical_table [] in
  exists s', get_gamma_coded_value s = (5, s')
             /\ pending_bits s' = [true; true; false] /\ reader_moved s s'.
Proof.
  intros s.
  apply (get_gamma_coded_value_round_trip 5 [true; true; false] s);
    [lia|reflexivity].
Defined.

Lemma leading_zeros (bs : list bool) :
  exists (k : nat) (r : list bool),
    bs = replicate k false ++ r /\ (r = [] \/ exists r', r = true :: r').
Proof.
  induction bs as [|[|] bs IH].
  - exists 0%nat, []. auto.
  - exists 0%nat, (true :: bs). eauto.
  - destruct IH as (k & r & -> & H). exists (S k), r. auto.
Qed.

Lemma replicate_17_more (k : nat) (r : list bool) :
  (17 <= k)%nat ->
  replicate k false ++ r
  = replicate 17 false ++ (replicate (k - 17) false ++ r).
Proof.
  intros H. rewrite app_assoc, <- replicate_add. f_equal. f_equal. lia.
Qed.

(** X12.  [get_gamma_coded_value] returns 0, which its callers take for a
    failure, in exactly these cases: the input ends within the run of zero
    bits; the run of zero bits reaches 17; the input ends within the
    payload; or the code has 16 zero bits and a payload that is all zeros
    or all ones.  In the last case a well-formed code is lost. *)
Theorem get_gamma_coded_value_zero (s : state) :
  fst (get_gamma_coded_value s) = 0 <->
  (exists k : nat, (k <= 16)%nat /\ pending_bits s = replicate k false)
  \/ (exists r, pending_bits s = replicate 17 false ++ r)
  \/ (exists (k : nat) payload,
        (length payload < k <= 16)%nat
        /\ pending_bits s = replicate k false ++ true :: payload)
  \/ (exists payload r,
        length payload = 16%nat
        /\ pending_bits s = replicate 16 false ++ true :: payload ++ r
        /\ (bits_value payload = 0 \/ bits_value payload = 65535)).
Proof.
  split.
  - intros Hz.
    destruct (leading_zeros (pending_bits s)) as (k & r & P & [->|[r' ->]]).
    + destruct (Nat.le_gt_cases k 16) as [K|K].
      * left. exists k. rewrite app_nil_r in P. auto.
      * right; left. rewrite replicate_17_more in P by lia. eauto.
    + destruct (Nat.le_gt_cases k 16) as [K|K];
        [|right; left; rewrite replicate_17_more in P by lia; eauto].
      destruct (Nat.le_gt_cases k (length r')) as [L|L];
        [|right; right; left; exists k, r'; split; [lia|exact P]].
      rewrite <- (take_drop k r') in P.
      assert (LT : length (take k r') = k)
        by (rewrite length_take; lia).
      pose proof (bits_value_range (take k r')) as B. rewrite LT in B.
      destruct (Nat.eq_dec k 16%nat) as [->|N].
      * destruct (get_gamma_coded_value_16 _ _ s P LT) as (s' & G & _).
        rewrite G in Hz. cbn [fst] in Hz.
        right; right; right. exists (take 16 r'), (drop 16 r').
        split; [exact LT|]. split; [exact P|].
        destruct (Z.eqb_spec (bits_value (take 16 r')) 65535); auto.
      * destruct (get_gamma_coded_value_stream k _ _ s P LT ltac:(lia))
          as (s' & G & _).
        rewrite lor_pow2_small in G by lia.
        rewrite G in Hz. cbn [fst] in Hz.
        assert (0 < 2 ^ Z.of_nat k) by (apply Z.pow_pos_nonneg; lia). lia.
  - intros [(k & K & P)|[(r & P)|[(k & payload & K & P)
                                 |(payload & r & L & P & V)]]].
    + destruct (get_gamma_coded_value_eos_unary k s P K) as (s' & G & _).
      now rewrite G.
    + destruct (get_gamma_coded_value_overflow r s P) as (s' & G & _).
      now rewrite G.
    + destruct (get_gamma_coded_value_eos_payload k payload s P K)
        as (s' & G & _).
      now rewrite G.
    + destruct (get_gamma_coded_value_16 payload r s P L) as (s' & G & _).
      rewrite G. cbn [fst]. destruct V as [-> | ->]; reflexivity.
Qed.

(** * Properties of the raw-table sketch *)

Module RawProperties.
Import Raw.

(** ** The bit reader *)

Lemma raw_reader_moved_refl s : reader_moved s s.
Proof. repeat split. Qed.

Lemma raw_reader_moved_trans s1 s2 s3 :
  reader_moved s1 s2 -> reader_moved s2 s3 -> reader_moved s1 s3.
Proof.
  unfold reader_moved. intros (A1 & A2 & A3 & A4 & A5 & A6 & A7)
    (B1 & B2 & B3 & B4 & B5 & B6 & B7).
  repeat split; congruence.
Qed.

Lemma raw_bit_of (c : Z) (p : nat) :
  Z.land (Z.shiftr c (Z.of_nat p)) 1 = Z.b2z (Z.testbit c (Z.of_nat p)).
Proof.
  change 1 with (Z.ones 1). rewrite Z.land_ones by lia.
  change (2 ^ 1) with 2. rewrite <- Z.bit0_mod.
  rewrite Z.shiftr_spec by lia. reflexivity.
Qed.

Lemma raw_lsb_from_ge (b : Z) (p : nat) : (8 <= p)%nat -> lsb_from b p = [].
Proof.
  intros H. unfold lsb_from. replace (8 - p)%nat with 0%nat by lia.
  reflexivity.
Qed.

Lemma raw_lsb_from_lt (b : Z) (p : nat) :
  (p < 8)%nat ->
  lsb_from b p = Z.testbit b (Z.of_nat p) :: lsb_from b (S p).
Proof.
  intros H. unfold lsb_from.
  replace (8 - p)%nat with (S (8 - S p)) by lia. reflexivity.
Qed.

Lemma raw_lsb_from_u8 (x : Z) (p : nat) : lsb_from (u8 x) p = lsb_from x p.
Proof.
  unfold lsb_from. apply map_ext_in. intros i Hi%in_seq.
  unfold u8. change 256 with (2 ^ 8).
  apply Z.mod_pow2_bits_low. lia.
Qed.

Lemma raw_lsb_from_length (b : Z) (p : nat) :
  length (lsb_from b p) = (8 - p)%nat.
Proof. unfold lsb_from. now rewrite length_map, length_seq. Qed.

Lemma raw_get_one_bit_stream (s : state) :
  fst (get_one_bit s)
  = match pending_bits s with [] => -1 | b :: _ => Z.b2z b end
  /\ pending_bits (snd (get_one_bit s)) = tail (pending_bits s)
  /\ reader_moved s (snd (get_one_bit s)).
Proof.
  unfold get_one_bit, pending_bits.
  destruct (Nat.leb_spec 8 (exod_bit_pos s)) as [P|P].
  - rewrite raw_lsb_from_ge by exact P. cbn [app].
    unfold exod_read_byte.
    destruct (crunched_data s !! crunched_data_index s) as [x|] eqn:E.
    + rewrite (drop_S _ _ _ E). cbn [flat_map fst snd].
      rewrite (raw_lsb_from_lt x 0) by lia. cbn [app tail].
      cbn [set_bit_pos set_cur_byte set_crunched_data_index exod_cur_byte
           exod_bit_pos crunched_data crunched_data_index].
      rewrite raw_bit_of, raw_lsb_from_u8.
      unfold u8. change 256 with (2 ^ 8).
      rewrite Z.mod_pow2_bits_low by (cbn; lia).
      repeat split.
    + apply lookup_ge_None_1 in E. cbn [fst snd].
      rewrite ?raw_lsb_from_ge by exact P.
      rewrite !drop_ge by exact E. repeat split.
  - rewrite (raw_lsb_from_lt _ _ P). cbn [app tail fst snd].
    cbn [set_bit_pos exod_cur_byte exod_bit_pos crunched_data
         crunched_data_index].
    rewrite raw_bit_of. repeat split.
Qed.

Lemma raw_b2z_not_eos (b : bool) : (Z.b2z b =? -1) = false.
Proof. now destruct b. Qed.

Lemma raw_get_one_bit_cases (s : state) :
  match pending_bits s with
  | [] => exists s', get_one_bit s = (-1, s') /\ pending_bits s' = []
                     /\ reader_moved s s'
  | b :: r => exists s', get_one_bit s = (Z.b2z b, s') /\ pending_bits s' = r
                         /\ reader_moved s s'
  end.
Proof.
  destruct (raw_get_one_bit_stream s) as (V & P & M).
  destruct (get_one_bit s) as [v s']. cbn [fst snd] in *.
  destruct (pending_bits s) as [|b r]; exists s'; subst v; auto.
Qed.

Lemma raw_get_one_bit_advanced (s : state) : advanced s (snd (get_one_bit s)).
Proof.
  destruct (raw_get_one_bit_stream s) as (_ & P & M).
  split; [exact M|]. unfold bits_left. rewrite P.
  destruct (pending_bits s); cbn; lia.
Qed.

Lemma raw_lor_bit (v : Z) (b : bool) (i : Z) :
  0 <= i < 32 -> 0 <= v < 2 ^ i ->
  Z.lor v (u32 (Z.shiftl (Z.b2z b) i)) = v + Z.b2z b * 2 ^ i.
Proof.
  intros I V. destruct b; cbn [Z.b2z].
  - assert (E : u32 (Z.shiftl 1 i) = Z.shiftl 1 i).
    { unfold u32. rewrite Z.shiftl_1_l. apply Z.mod_small.
      split; [apply Z.pow_nonneg; lia|].
      change 4294967296 with (2 ^ 32). apply Z.pow_lt_mono_r; lia. }
    rewrite E, Z.lor_comm, lor_pow2_small by lia. lia.
  - rewrite Z.shiftl_0_l. unfold u32. rewrite Z.mod_0_l by lia.
    rewrite Z.lor_0_r. lia.
Qed.

Lemma raw_lsb_value_range (bs : list bool) :
  0 <= lsb_value bs < 2 ^ Z.of_nat (length bs).
Proof.
  induction bs as [|b bs IH]; [cbn; lia|].
  cbn [lsb_value fold_right length]. fold (lsb_value bs).
  rewrite Nat2Z.inj_succ, Z.pow_succ_r by lia.
  destruct b; cbn [Z.b2z]; lia.
Qed.

Lemma raw_get_n_bits_u32_loop_stream (todo : nat) (i v : Z) (s : state) :
  (todo <= length (pending_bits s))%nat ->
  0 <= i -> i + Z.of_nat todo <= 32 -> 0 <= v < 2 ^ i ->
  exists s',
    get_n_bits_u32_loop todo i v s
    = (Some (v + 2 ^ i * lsb_value (take todo (pending_bits s))), s')
    /\ pending_bits s' = drop todo (pending_bits s)
    /\ reader_moved s s'.
Proof.
  revert i v s. induction todo as [|todo IH]; intros i v s L I T V.
  - exists s. cbn [get_n_bits_u32_loop]. rewrite take_0, drop_0. cbn.
    split; [do 2 f_equal; lia|split; [reflexivity|apply raw_reader_moved_refl]].
  - cbn [get_n_bits_u32_loop].
    pose proof (raw_get_one_bit_cases s) as C.
    destruct (pending_bits s) as [|b r] eqn:E; [cbn in L; lia|].
    destruct C as (s1 & G & P1 & M1). rewrite G, raw_b2z_not_eos.
    rewrite raw_lor_bit by lia.
    destruct (IH (i + 1) (v + Z.b2z b * 2 ^ i) s1) as (s' & G' & P' & M').
    + rewrite P1. cbn in L. lia.
    + lia.
    + lia.
    + rewrite Z.pow_add_r by lia. destruct b; cbn [Z.b2z]; lia.
    + exists s'. rewrite G', P', P1. cbn [take drop firstn skipn].
      cbn [lsb_value fold_right]. fold (lsb_value (take todo r)).
      split; [|split; [reflexivity|eapply raw_reader_moved_trans; eassumption]].
      do 2 f_equal. rewrite Z.pow_add_r by lia. lia.
Qed.

Lemma raw_get_n_bits_u32_loop_short (todo : nat) (i v : Z) (s : state) :
  (length (pending_bits s) < todo)%nat ->
  exists s',
    get_n_bits_u32_loop todo i v s = (None, s')
    /\ pending_bits s' = [] /\ reader_moved s s'.
Proof.
  revert i v s. induction todo as [|todo IH]; intros i v s L; [lia|].
  cbn [get_n_bits_u32_loop].
  pose proof (raw_get_one_bit_cases s) as C.
  destruct (pending_bits s) as [|b r] eqn:E.
  - destruct C as (s1 & G & P1 & M1). rewrite G. cbn. eauto.
  - destruct C as (s1 & G & P1 & M1). rewrite G, raw_b2z_not_eos.
    destruct (IH (i + 1) (Z.lor v (u32 (Z.shiftl (Z.b2z b) i))) s1)
      as (s' & G' & P' & M').
    { rewrite P1. cbn in L. lia. }
    exists s'. split; [exact G'|].
    split; [exact P'|eapply raw_reader_moved_trans; eassumption].
Qed.

Lemma raw_get_n_bits_u32_cases (n : nat) (s : state) :
  (1 <= n <= 32)%nat ->
  exists s', reader_moved s s' /\
    if (n <=? length (pending_bits s))%nat
    then get_n_bits_u32 (Z.of_nat n) s
         = (Some (lsb_value (take n (pending_bits s))), s')
         /\ pending_bits s' = drop n (pending_bits s)
    else get_n_bits_u32 (Z.of_nat n) s = (None, s') /\ pending_bits s' = [].
Proof.
  intros N. unfold get_n_bits_u32.
  destruct (Z.eqb_spec (Z.of_nat n) 0); [lia|].
  destruct (Z.ltb_spec 32 (Z.of_nat n)); [lia|].
  rewrite Nat2Z.id.
  destruct (Nat.leb_spec n (length (pending_bits s))) as [L|L].
  - destruct (raw_get_n_bits_u32_loop_stream n 0 0 s L) as (s' & G & P & M);
      try lia.
    exists s'. rewrite G. split; [exact M|]. split; [|exact P].
    do 2 f_equal. lia.
  - destruct (raw_get_n_bits_u32_loop_short n 0 0 s L) as (s' & G & P & M).
    exists s'. auto.
Qed.

(** X13.  [get_n_bits_u32] of the raw-table sketch reads [n] bits, for [n]
    from 1 to 32, and the first bit read is the lowest bit of the value;
    the bits of a byte are taken from the lowest up.  When fewer than [n]
    bits are left, it fails and has taken them all.  For [n] = 0 it gives 0,
    for [n] above 32 it fails, both without reading. *)
Theorem get_n_bits_u32_reads_lsb_first (n : nat) (s : state) :
  (1 <= n <= 32)%nat ->
  (exists s', reader_moved s s' /\
     if (n <=? bits_left s)%nat
     then get_n_bits_u32 (Z.of_nat n) s
          = (Some (lsb_value (take n (pending_bits s))), s')
          /\ pending_bits s' = drop n (pending_bits s)
          /\ 0 <= lsb_value (take n (pending_bits s)) < 2 ^ Z.of_nat n
     else get_n_bits_u32 (Z.of_nat n) s = (None, s') /\ pending_bits s' = [])
  /\ get_n_bits_u32 0 s = (Some 0, s)
  /\ (forall m, 32 < m -> get_n_bits_u32 m s = (None, s)).
Proof.
  intros N. split; [|split].
  - destruct (raw_get_n_bits_u32_cases n s N) as (s' & M & H).
    exists s'. split; [exact M|]. unfold bits_left.
    destruct (Nat.leb_spec n (length (pending_bits s))) as [L|L];
      [|exact H].
    destruct H as [G P]. split; [exact G|]. split; [exact P|].
    pose proof (raw_lsb_value_range (take n (pending_bits s))) as R.
    rewrite length_take, Nat.min_l in R by exact L. exact R.
  - reflexivity.
  - intros m Hm. unfold get_n_bits_u32.
    destruct (Z.eqb_spec m 0); [lia|].
    destruct (Z.ltb_spec 32 m); [reflexivity|lia].
Qed.

Lemma get_n_bits_u32_reads_lsb_first_witness :
  let s := exod_decrunch_reset boot demo_data [] 0 true in
  (exists s', reader_moved s s' /\
     if (5 <=? bits_left s)%nat
     then get_n_bits_u32 (Z.of_nat 5) s
          = (Some (lsb_value (take 5 (pending_bits s))), s')
          /\ pending_bits s' = drop 5 (pending_bits s)
          /\ 0 <= lsb_value (take 5 (pending_bits s)) < 2 ^ Z.of_nat 5
     else get_n_bits_u32 (Z.of_nat 5) s = (None, s') /\ pending_bits s' = [])
  /\ get_n_bits_u32 0 s = (Some 0, s)
  /\ (forall m, 32 < m -> get_n_bits_u32 m s = (None, s)).
Proof.
  intros s. apply (get_n_bits_u32_reads_lsb_first 5 s). lia.
Defined.


(** ** The tables *)

Lemma raw_get_n_bits_int_4 (s : state) :
  exists s', reader_moved s s' /\
    if (4 <=? length (pending_bits s))%nat
    then get_n_bits_int 4 s = (lsb_value (take 4 (pending_bits s)), s')
         /\ pending_bits s' = drop 4 (pending_bits s)
         /\ 0 <= lsb_value (take 4 (pending_bits s)) < 16
    else get_n_bits_int 4 s = (-1, s') /\ pending_bits s' = [].
Proof.
  destruct (raw_get_n_bits_u32_cases 4 s ltac:(lia)) as (s' & M & H).
  exists s'. split; [exact M|]. unfold get_n_bits_int.
  change (Z.of_nat 4) with 4 in H.
  destruct (Nat.leb_spec 4 (length (pending_bits s))) as [L|L];
    destruct H as [G P]; rewrite G; [|auto].
  pose proof (raw_lsb_value_range (take 4 (pending_bits s))) as R.
  rewrite length_take, Nat.min_l in R by exact L.
  change (2 ^ Z.of_nat 4) with 16 in R.
  split; [|auto]. f_equal. unfold s32.
  destruct (Z.ltb_spec (lsb_value (take 4 (pending_bits s))) 2147483648);
    [reflexivity|lia].
Qed.

Lemma raw_generate_table_loop_reader (todo i : nat) (rb : Z)
    (bits_out base_out : list Z) (s : state) :
  exists ok bits' base' s',
    generate_table_loop todo i rb bits_out base_out s = (ok, bits', base', s')
    /\ reader_moved s s'
    /\ ok = (4 * todo <=? bits_left s)%nat
    /\ pending_bits s' = (if ok then drop (4 * todo) (pending_bits s) else [])
    /\ length bits' = length bits_out /\ length base' = length base_out.
Proof.
  revert i rb bits_out base_out s.
  induction todo as [|todo IH]; intros i rb bits_out base_out s.
  - exists true, bits_out, base_out, s. cbn.
    repeat split.
  - cbn [generate_table_loop].
    destruct (raw_get_n_bits_int_4 s) as (s1 & M1 & H). unfold bits_left.
    destruct (Nat.leb_spec 4 (length (pending_bits s))) as [L|L].
    + destruct H as (G & P & R). rewrite G.
      assert (U : u8 (lsb_value (take 4 (pending_bits s)))
                  = lsb_value (take 4 (pending_bits s)))
        by (apply Z.mod_small; lia).
      rewrite !U.
      destruct (Z.ltb_spec (lsb_value (take 4 (pending_bits s))) 0); [lia|].
      destruct (Z.leb_spec 32 (lsb_value (take 4 (pending_bits s)))); [lia|].
      match goal with
      | |- context [generate_table_loop todo ?i' ?rb' ?bo ?ba s1] =>
          destruct (IH i' rb' bo ba s1)
            as (ok & bits' & base' & s' & G' & M' & O & P' & L1 & L2)
      end.
      exists ok, bits', base', s'. rewrite G'.
      rewrite !length_insert in L1, L2. unfold bits_left in O.
      rewrite P, length_drop in O.
      repeat match goal with |- _ /\ _ => split end; try assumption.
      * reflexivity.
      * eapply raw_reader_moved_trans; eassumption.
      * rewrite O.
        destruct (Nat.leb_spec (4 * todo) (length (pending_bits s) - 4)),
          (Nat.leb_spec (4 * S todo) (length (pending_bits s)));
          try reflexivity; lia.
      * rewrite P'. destruct ok; [|reflexivity].
        rewrite P, drop_drop. f_equal. lia.
    + destruct H as (G & P). rewrite G. cbn [Z.ltb Z.compare].
      exists false, bits_out, base_out, s1.
      repeat match goal with |- _ /\ _ => split end;
        try reflexivity; try assumption.
      symmetry. apply Nat.leb_gt. lia.
Qed.

Lemma raw_running_base_step (rb v : Z) :
  0 <= v < 16 -> 0 <= rb -> rb + 32768 < 4294967296 ->
  (if v =? 0 then u32 (rb + 1) else u32 (rb + Z.shiftl 1 v)) = rb + 2 ^ v
  /\ rb + 2 ^ v <= rb + 32768.
Proof.
  intros V R B.
  assert (P : 1 <= 2 ^ v <= 32768).
  { split; [apply (Z.pow_le_mono_r 2 0 v); lia|].
    change 32768 with (2 ^ 15). apply Z.pow_le_mono_r; lia. }
  rewrite Z.shiftl_1_l. unfold u32.
  destruct (Z.eqb_spec v 0) as [->|N]; rewrite Z.mod_small; cbn; lia.
Qed.

Lemma raw_generate_table_loop_contents (todo i : nat) (rb : Z)
    (bits_out base_out : list Z) (s : state) ok bits' base' s' :
  generate_table_loop todo i rb bits_out base_out s = (ok, bits', base', s') ->
  (4 * todo <= bits_left s)%nat ->
  (i + todo <= length bits_out)%nat -> (i + todo <= length base_out)%nat ->
  0 <= rb -> rb + Z.of_nat todo * 32768 < 4294967296 ->
  bits' = take i bits_out ++ nibbles todo (pending_bits s)
          ++ drop (i + todo) bits_out
  /\ base' = take i base_out
             ++ running_bases rb (nibbles todo (pending_bits s))
             ++ drop (i + todo) base_out.
Proof.
  revert i rb bits_out base_out s ok bits' base' s'.
  induction todo as [|todo IH];
    intros i rb bits_out base_out s ok bits' base' s' G B L1 L2 R W.
  - cbn in G. injection G as _ <- <- _. cbn [nibbles running_bases app].
    rewrite Nat.add_0_r, !take_drop. auto.
  - cbn [generate_table_loop] in G.
    destruct (raw_get_n_bits_int_4 s) as (s1 & M1 & H).
    unfold bits_left in B.
    destruct (Nat.leb_spec 4 (length (pending_bits s))) as [L|L]; [|lia].
    destruct H as (G1 & P & V). rewrite G1 in G.
    assert (U : u8 (lsb_value (take 4 (pending_bits s)))
                = lsb_value (take 4 (pending_bits s)))
      by (apply Z.mod_small; lia).
    rewrite !U in G.
    destruct (Z.ltb_spec (lsb_value (take 4 (pending_bits s))) 0); [lia|].
    destruct (Z.leb_spec 32 (lsb_value (take 4 (pending_bits s)))); [lia|].
    destruct (raw_running_base_step rb _ V R ltac:(lia)) as [E E'].
    rewrite E in G.
    apply IH in G; [|unfold bits_left; rewrite P, length_drop; lia
                    |rewrite length_insert; lia..|lia|lia].
    destruct G as [-> ->]. rewrite P. cbn [nibbles running_bases].
    rewrite (take_S_r (<[i:=_]> bits_out) i _
               (list_lookup_insert_eq bits_out i _ ltac:(lia))).
    rewrite (take_S_r (<[i:=_]> base_out) i _
               (list_lookup_insert_eq base_out i _ ltac:(lia))).
    rewrite !take_insert_ge by lia.
    rewrite !drop_insert_lt by lia.
    rewrite <- !app_assoc. cbn [app].
    replace (S i + todo)%nat with (i + S todo)%nat by lia. auto.
Qed.

Lemma raw_nibbles_range (n : nat) (bs : list bool) :
  Forall (fun b => 0 <= b < 16) (nibbles n bs).
Proof.
  revert bs. induction n as [|n IH]; intros bs; cbn [nibbles]; constructor;
    [|apply IH].
  pose proof (raw_lsb_value_range (take 4 bs)) as R.
  assert (2 ^ Z.of_nat (length (take 4 bs)) <= 2 ^ 4); [|lia].
  apply Z.pow_le_mono_r; [lia|]. rewrite length_take. lia.
Qed.

Lemma raw_nibbles_length (n : nat) (bs : list bool) :
  length (nibbles n bs) = n.
Proof.
  revert bs. induction n as [|n IH]; intros bs; cbn [nibbles length];
    [reflexivity|now rewrite IH].
Qed.

Lemma raw_running_bases_length (start : Z) (bits : list Z) :
  length (running_bases start bits) = length bits.
Proof.
  revert start. induction bits as [|b r IH]; intros start;
    cbn [running_bases length]; [reflexivity|now rewrite IH].
Qed.

Lemma raw_generate_table_generic_cases
    (bits_out base_out : list Z) (entries : nat) (s : state) :
  length bits_out = entries -> length base_out = entries ->
  (entries <= 16)%nat ->
  exists ok bits' base' s',
    generate_table_generic bits_out base_out entries s
    = (ok, bits', base', s')
    /\ reader_moved s s'
    /\ ok = (4 * entries <=? bits_left s)%nat
    /\ length bits' = entries /\ length base' = entries
    /\ if ok
       then bits' = nibbles entries (pending_bits s)
            /\ base' = running_bases 0 bits'
            /\ pending_bits s' = drop (4 * entries) (pending_bits s)
       else pending_bits s' = [].
Proof.
  intros L1 L2 E. unfold generate_table_generic.
  destruct (raw_generate_table_loop_reader entries 0 0 bits_out base_out s)
    as (ok & bits' & base' & s' & G & M & O & P & K1 & K2).
  exists ok, bits', base', s'.
  repeat match goal with |- _ /\ _ => split end;
    try assumption; try congruence.
  destruct ok; [|exact P].
  symmetry in O. apply Nat.leb_le in O.
  destruct (raw_generate_table_loop_contents _ _ _ _ _ _ _ _ _ _ G O)
    as [B1 B2]; try lia.
  rewrite take_0, drop_ge, app_nil_r in B1, B2 by lia. cbn [app] in B1, B2.
  subst bits' base'. auto.
Qed.

(** X14.  [generate_table_generic] reads one group of four bits for each
    entry.  When the input holds them all, it succeeds with the groups as
    the bit counts, each from 0 to 15, and as the base of an entry the sum
    of [1 << bits] over the entries before it, 0 for the first; it never
    returns at its check for a count of 32 or more.  When the input holds
    fewer, it fails and has taken the input to its end. *)
Theorem generate_table_generic_reads_nibbles
    (bits_out base_out : list Z) (entries : nat) (s : state) :
  length bits_out = entries -> length base_out = entries ->
  (entries <= 16)%nat ->
  exists ok bits' base' s',
    generate_table_generic bits_out base_out entries s
    = (ok, bits', base', s')
    /\ reader_moved s s'
    /\ ok = (4 * entries <=? bits_left s)%nat
    /\ length bits' = entries /\ length base' = entries
    /\ if ok
       then bits' = nibbles entries (pending_bits s)
            /\ Forall (fun b => 0 <= b < 16) bits'
            /\ base' = running_bases 0 bits'
            /\ pending_bits s' = drop (4 * entries) (pending_bits s)
       else pending_bits s' = [].
Proof.
  intros L1 L2 E.
  destruct (raw_generate_table_generic_cases bits_out base_out entries s
              L1 L2 E) as (ok & bits' & base' & s' & G & M & O & K1 & K2 & H).
  exists ok, bits', base', s'.
  repeat match goal with |- _ /\ _ => split end; try assumption.
  destruct ok; [|exact H]. destruct H as (B & V & P).
  repeat match goal with |- _ /\ _ => split end; try assumption.
  rewrite B. apply raw_nibbles_range.
Qed.

Lemma generate_table_generic_reads_nibbles_witness :
  let s := exod_decrunch_reset boot demo_data [] 0 true in
  exists ok bits' base' s',
    generate_table_generic (replicate 4 0) (replicate 4 0) 4 s
    = (ok, bits', base', s')
    /\ reader_moved s s'
    /\ ok = (4 * 4 <=? bits_left s)%nat
    /\ length bits' = 4%nat /\ length base' = 4%nat
    /\ if ok
       then bits' = nibbles 4 (pending_bits s)
            /\ Forall (fun b => 0 <= b < 16) bits'
            /\ base' = running_bases 0 bits'
            /\ pending_bits s' = drop (4 * 4) (pending_bits s)
       else pending_bits s' = [].
Proof.
  intros s.
  apply (generate_table_generic_reads_nibbles
           (replicate 4 0) (replicate 4 0) 4 s); [reflexivity|reflexivity|lia].
Defined.

Lemma raw_fill_entries (todo i first : nat) (index : Z -> Z)
    (src dst : list Z) :
  (forall k : nat, (k < i + todo)%nat -> index (Z.of_nat k) = Z.of_nat k) ->
  (i + todo <= length src)%nat -> (first + i + todo <= length dst)%nat ->
  fill_entries todo i first index src dst
  = take (first + i) dst ++ take todo (drop i src)
    ++ drop (first + i + todo) dst.
Proof.
  revert i dst. induction todo as [|todo IH]; intros i dst X L1 L2.
  - cbn [fill_entries]. rewrite take_0, Nat.add_0_r. cbn [app].
    now rewrite take_drop.
  - cbn [fill_entries]. rewrite X by lia.
    destruct (lookup_lt_is_Some_2 src i ltac:(lia)) as [x Hx].
    unfold at_index. rewrite Nat2Z.id, Hx. cbn [default]. unfold id.
    rewrite IH; [|intros k Hk; apply X; lia|lia|rewrite length_insert; lia].
    replace (first + S i)%nat with (S (first + i)) by lia.
    rewrite (take_S_r (<[(first + i)%nat:=x]> dst) (first + i)%nat x
               (list_lookup_insert_eq dst (first + i)%nat x ltac:(lia))).
    rewrite take_insert_ge by lia. rewrite drop_insert_lt by lia.
    rewrite (drop_S _ _ _ Hx). cbn [take firstn].
    rewrite <- app_assoc. cbn [app].
    replace (S (first + i) + todo)%nat with (first + i + S todo)%nat by lia.
    reflexivity.
Qed.

Lemma raw_fill_whole (n first : nat) (index : Z -> Z) (src dst : list Z) :
  (forall k : nat, (k < n)%nat -> index (Z.of_nat k) = Z.of_nat k) ->
  length src = n -> (first + n <= length dst)%nat ->
  fill_entries n 0 first index src dst
  = take first dst ++ src ++ drop (first + n) dst.
Proof.
  intros X L1 L2.
  rewrite raw_fill_entries; [|intros k Hk; apply X; lia|lia|lia].
  rewrite !Nat.add_0_r, drop_0. rewrite (take_ge src) by lia. reflexivity.
Qed.

Lemma raw_stream_length (l : list Z) :
  length (flat_map (fun x => lsb_from x 0) l) = (8 * length l)%nat.
Proof.
  induction l as [|x l IH]; [reflexivity|].
  cbn [flat_map]. rewrite length_app, IH, raw_lsb_from_length.
  cbn [length]. lia.
Qed.

Lemma raw_bits_left_formula (s : state) :
  bits_left s
  = ((8 - exod_bit_pos s)
     + 8 * (length (crunched_data s) - crunched_data_index s))%nat.
Proof.
  unfold bits_left, pending_bits.
  now rewrite length_app, raw_lsb_from_length, raw_stream_length, length_drop.
Qed.

Lemma raw_get_one_bit_reader_ok (s : state) :
  reader_ok s -> reader_ok (snd (get_one_bit s)).
Proof.
  intros [P I]. unfold get_one_bit.
  destruct (Nat.leb_spec 8 (exod_bit_pos s)) as [Q|Q].
  - unfold exod_read_byte.
    destruct (crunched_data s !! crunched_data_index s) as [x|] eqn:E;
      [|split; assumption].
    apply lookup_lt_Some in E. split; cbn; lia.
  - split; cbn; lia.
Qed.

Lemma raw_get_n_bits_u32_loop_reader_ok (todo : nat) (i v : Z) (s : state) :
  reader_ok s -> reader_ok (snd (get_n_bits_u32_loop todo i v s)).
Proof.
  revert i v s. induction todo as [|todo IH]; intros i v s R; [exact R|].
  cbn [get_n_bits_u32_loop].
  pose proof (raw_get_one_bit_reader_ok s R) as R1.
  destruct (get_one_bit s) as [b s1]. cbn [snd] in R1.
  destruct (b =? -1); [exact R1|now apply IH].
Qed.

Lemma raw_get_n_bits_u32_reader_ok (n : Z) (s : state) :
  reader_ok s -> reader_ok (snd (get_n_bits_u32 n s)).
Proof.
  intros R. unfold get_n_bits_u32.
  destruct (n =? 0); [exact R|]. destruct (32 <? n); [exact R|].
  now apply raw_get_n_bits_u32_loop_reader_ok.
Qed.

Lemma raw_get_n_bits_int_reader_ok (n : Z) (s : state) :
  reader_ok s -> reader_ok (snd (get_n_bits_int n s)).
Proof.
  intros R. unfold get_n_bits_int.
  pose proof (raw_get_n_bits_u32_reader_ok n s R) as R1.
  now destruct (get_n_bits_u32 n s) as [[v|] s1].
Qed.

Lemma raw_generate_table_loop_reader_ok (todo i : nat) (rb : Z)
    (bits_out base_out : list Z) (s : state) :
  reader_ok s ->
  reader_ok (snd (generate_table_loop todo i rb bits_out base_out s)).
Proof.
  revert i rb bits_out base_out s.
  induction todo as [|todo IH]; intros i rb bits_out base_out s R;
    [exact R|].
  cbn [generate_table_loop].
  pose proof (raw_get_n_bits_int_reader_ok 4 s R) as R1.
  destruct (get_n_bits_int 4 s) as [v s1]. cbn [snd] in R1.
  destruct (v <? 0); [exact R1|]. destruct (32 <=? u8 v); [exact R1|].
  now apply IH.
Qed.


Tactic Notation "raw_list_of_length" ident(l) integer(n) :=
  do n (destruct l as [|? l]; [discriminate|]);
  destruct l; [|discriminate].

Lemma raw_fill_four (b3 b2 lb b1 tb0 : list Z) :
  length b3 = 16%nat -> length b2 = 16%nat -> length lb = 16%nat ->
  length b1 = 4%nat -> length tb0 = 52%nat ->
  fill_entries 4 0 48 id b1
    (fill_entries 16 0 32 (fun i => i mod 16) lb
       (fill_entries 16 0 16 id b2 (fill_entries 16 0 0 id b3 tb0)))
  = b3 ++ b2 ++ lb ++ b1.
Proof.
  intros L3 L2 L L1 L0.
  raw_list_of_length b3 16. raw_list_of_length b2 16.
  raw_list_of_length lb 16. raw_list_of_length b1 4.
  raw_list_of_length tb0 52.
  reflexivity.
Qed.

Lemma raw_table_stage (bits_out base_out : list Z) (entries : nat)
    (s : state) :
  length bits_out = entries -> length base_out = entries ->
  (entries <= 16)%nat ->
  exists ok bits' base' s',
    generate_table_generic bits_out base_out entries s
    = (ok, bits', base', s')
    /\ reader_moved s s'
    /\ ok = (4 * entries <=? bits_left s)%nat
    /\ length bits' = entries /\ length base' = entries
    /\ (reader_ok s -> reader_ok s')
    /\ if ok
       then bits' = nibbles entries (pending_bits s)
            /\ base' = running_bases 0 bits'
            /\ pending_bits s' = drop (4 * entries) (pending_bits s)
       else pending_bits s' = [].
Proof.
  intros L1 L2 E.
  destruct (raw_generate_table_generic_cases bits_out base_out entries s
              L1 L2 E) as (ok & bits' & base' & s' & G & M & O & K1 & K2 & H).
  exists ok, bits', base', s'.
  repeat match goal with |- _ /\ _ => split end; try assumption.
  intros R.
  pose proof (raw_generate_table_loop_reader_ok entries 0 0 bits_out base_out
                s R) as R'.
  unfold generate_table_generic in G. now rewrite G in R'.
Qed.

Lemma raw_parse_cases (s : state) :
  tables_ok (tabs s) ->
  exists ok s',
    parse_exomizer_raw_tables s = (ok, s')
    /\ ok = (208 <=? bits_left s)%nat
    /\ tables_parsed s s'
    /\ tables_ok (tabs s')
    /\ (reader_ok s -> reader_ok s')
    /\ if ok
       then tabs s' = parsed_tables (pending_bits s)
            /\ pending_bits s' = drop 208 (pending_bits s)
       else pending_bits s' = [].
Proof.
  intros (T1 & T2 & T3 & T4 & T5 & T6 & T7 & T8 & T9 & T10).
  unfold parse_exomizer_raw_tables.
  destruct (raw_table_stage (lengths_bits (tabs s)) (lengths_base (tabs s))
              16 s T3 T4 ltac:(lia))
    as (ok1 & lb & lv & s1 & G1 & M1 & O1 & K1 & K1' & R1 & H1).
  rewrite G1.
  cbn [tables_bits tables_base lengths_bits lengths_base offsets3_bits
       offsets3_base offsets2_bits offsets2_base offsets1_bits offsets1_base].
  unfold bits_left in *.
  destruct M1 as (A1 & A2 & A3 & A4 & A5 & A6 & A7).
  destruct ok1; cbn [negb].
  2:{ eexists false, _. split; [reflexivity|].
      symmetry in O1. apply Nat.leb_gt in O1.
      split; [symmetry; apply Nat.leb_gt; lia|].
      split; [repeat split; assumption|].
      split; [repeat split; assumption|].
      split; [exact R1|exact H1]. }
  destruct H1 as (B1 & V1 & P1).
  symmetry in O1. apply Nat.leb_le in O1.
  destruct (raw_table_stage (offsets3_bits (tabs s)) (offsets3_base (tabs s))
              16 s1 T5 T6 ltac:(lia))
    as (ok2 & b3 & v3 & s2 & G2 & M2 & O2 & K2 & K2' & R2 & H2).
  rewrite G2.
  unfold bits_left in *. rewrite P1, length_drop in O2.
  destruct M2 as (C1 & C2 & C3 & C4 & C5 & C6 & C7).
  destruct ok2; cbn [negb].
  2:{ eexists false, _. split; [reflexivity|].
      symmetry in O2. apply Nat.leb_gt in O2.
      split; [symmetry; apply Nat.leb_gt; lia|].
      split; [repeat split; cbn; congruence|].
      split; [repeat split; assumption|].
      split; [auto|exact H2]. }
  destruct H2 as (B2 & V2 & P2).
  symmetry in O2. apply Nat.leb_le in O2.
  destruct (raw_table_stage (offsets2_bits (tabs s)) (offsets2_base (tabs s))
              16 s2 T7 T8 ltac:(lia))
    as (ok3 & b2 & v2 & s3 & G3 & M3 & O3 & K3 & K3' & R3 & H3).
  rewrite G3.
  unfold bits_left in *. rewrite P2, P1, drop_drop, length_drop in O3.
  destruct M3 as (D1 & D2 & D3 & D4 & D5 & D6 & D7).
  destruct ok3; cbn [negb].
  2:{ eexists false, _. split; [reflexivity|].
      symmetry in O3. apply Nat.leb_gt in O3.
      split; [symmetry; apply Nat.leb_gt; lia|].
      split; [repeat split; cbn; congruence|].
      split; [repeat split; assumption|].
      split; [auto|exact H3]. }
  destruct H3 as (B3 & V3 & P3).
  symmetry in O3. apply Nat.leb_le in O3.
  destruct (raw_table_stage (offsets1_bits (tabs s)) (offsets1_base (tabs s))
              4 s3 T9 T10 ltac:(lia))
    as (ok4 & b1 & v1 & s4 & G4 & M4 & O4 & K4 & K4' & R4 & H4).
  rewrite G4.
  unfold bits_left in *. rewrite P3, P2, P1, !drop_drop, length_drop in O4.
  destruct M4 as (E1 & E2 & E3 & E4 & E5 & E6 & E7).
  destruct ok4; cbn [negb].
  2:{ eexists false, _. split; [reflexivity|].
      symmetry in O4. apply Nat.leb_gt in O4.
      split; [symmetry; apply Nat.leb_gt; lia|].
      split; [repeat split; cbn; congruence|].
      split; [repeat split; assumption|].
      split; [auto|exact H4]. }
  destruct H4 as (B4 & V4 & P4).
  symmetry in O4. apply Nat.leb_le in O4.
  eexists true, _. split; [reflexivity|].
  split; [symmetry; apply Nat.leb_le; lia|].
  split; [repeat split; cbn; congruence|].
  assert (LV1 : length v1 = 4%nat) by assumption.
  rewrite !raw_fill_four by assumption.
  split.
  { repeat split; cbn [tabs set_tabs tables_bits tables_base lengths_bits
                       lengths_base offsets3_bits offsets3_base offsets2_bits
                       offsets2_base offsets1_bits offsets1_base];
      rewrite ?length_app; try assumption; lia. }
  split; [auto|].
  split.
  - cbn [tabs set_tabs]. unfold parsed_tables.
    rewrite P3, P2, P1, !drop_drop in B4. rewrite P2, P1, !drop_drop in B3.
    rewrite P1 in B2. cbn [Nat.mul Nat.add] in B2, B3, B4.
    rewrite <- B1, <- B2, <- B3, <- B4, <- V1, <- V2, <- V3, <- V4.
    reflexivity.
  - change (pending_bits (set_tabs ?t s4)) with (pending_bits s4).
    rewrite P4, P3, P2, P1, !drop_drop. f_equal.
Qed.

(** X15.  [parse_exomizer_raw_tables], called at a byte boundary, succeeds
    exactly when 26 bytes of input are left.  It then has read just these
    26 bytes, and the tables hold what their 52 groups of four bits spell:
    16 lengths, 16 offsets for longer sequences, 16 offsets for sequences
    of 2 and 4 offsets for sequences of 1, in this order, with the
    combined arrays in the order offsets, offsets of 2, lengths, offsets
    of 1.  When fewer bytes are left it fails with the input at its end.
    Either way the output array and the last offset are as before. *)
Theorem parse_exomizer_raw_tables_header (s : state) :
  tables_ok (tabs s) -> exod_bit_pos s = 8%nat ->
  (crunched_data_index s <= length (crunched_data s))%nat ->
  exists ok s',
    parse_exomizer_raw_tables s = (ok, s')
    /\ ok = (26 <=? length (crunched_data s) - crunched_data_index s)%nat
    /\ tables_parsed s s'
    /\ tables_ok (tabs s')
    /\ if ok
       then tabs s' = parsed_tables (pending_bits s)
            /\ crunched_data_index s' = (crunched_data_index s + 26)%nat
            /\ exod_bit_pos s' = 8%nat
            /\ pending_bits s' = drop 208 (pending_bits s)
       else pending_bits s' = [].
Proof.
  intros T P I.
  destruct (raw_parse_cases s T) as (ok & s' & G & O & F & T' & R & H).
  exists ok, s'. split; [exact G|].
  pose proof (raw_bits_left_formula s) as B. rewrite P in B.
  split.
  { rewrite O, B.
    destruct (Nat.leb_spec 208
                (8 - 8 + 8 * (length (crunched_data s)
                              - crunched_data_index s))),
      (Nat.leb_spec 26 (length (crunched_data s) - crunched_data_index s));
      try reflexivity; lia. }
  split; [exact F|]. split; [exact T'|].
  destruct ok; [|exact H]. destruct H as [H1 H2].
  symmetry in O. apply Nat.leb_le in O.
  destruct (R ltac:(split; lia)) as [R1 R2].
  pose proof (raw_bits_left_formula s') as B'.
  unfold bits_left in B' at 1. rewrite H2, length_drop in B'.
  fold (bits_left s) in B'. destruct F as (F & _). rewrite F in B', R2.
  repeat match goal with |- _ /\ _ => split end; try assumption; lia.
Qed.

Lemma parse_exomizer_raw_tables_header_witness :
  let s := exod_decrunch_reset boot stale_copy_demo [] 0 false in
  exists ok s',
    parse_exomizer_raw_tables s = (ok, s')
    /\ ok = (26 <=? length (crunched_data s) - crunched_data_index s)%nat
    /\ tables_parsed s s'
    /\ tables_ok (tabs s')
    /\ if ok
       then tabs s' = parsed_tables (pending_bits s)
            /\ crunched_data_index s' = (crunched_data_index s + 26)%nat
            /\ exod_bit_pos s' = 8%nat
            /\ pending_bits s' = drop 208 (pending_bits s)
       else pending_bits s' = [].
Proof.
  intros s. apply (parse_exomizer_raw_tables_header s).
  - repeat split.
  - reflexivity.
  - cbn. lia.
Defined.

(** X16.  A call of the raw-table [exod_decrunch] on an input of fewer than
    26 bytes returns at the failed table parse: it writes nothing, and
    the output array is as it was.  The test data of the sketch, 13 bytes,
    is such an input. *)
Theorem exod_decrunch_short_input_decodes_nothing
    (g : state) (in_data out_buffer : list Z) (cap : nat) (pm : bool) :
  tables_ok (tabs g) -> (length in_data < 26)%nat ->
  exists s,
    exod_decrunch g in_data out_buffer cap pm = Finished ExitTableParse s
    /\ decompressed_data s = out_buffer
    /\ decompressed_data_index s = 0%nat
    /\ pending_bits s = []
    /\ tables_ok (tabs s).
Proof.
  intros T L. unfold exod_decrunch.
  destruct (raw_parse_cases
              (exod_decrunch_reset g in_data out_buffer cap pm) T)
    as (ok & s' & G & O & F & T' & _ & H).
  rewrite G.
  rewrite raw_bits_left_formula in O. unfold exod_decrunch_reset in O.
  cbn [exod_bit_pos crunched_data crunched_data_index] in O.
  replace (208 <=? _)%nat with false in O
    by (symmetry; apply Nat.leb_gt; lia).
  subst ok. exists s'.
  destruct F as (_ & _ & F3 & _ & F5 & _).
  repeat match goal with |- _ /\ _ => split end; auto.
Qed.

Lemma exod_decrunch_short_input_decodes_nothing_witness :
  exists s,
    exod_decrunch boot demo_data (replicate 256 0) 256 true
    = Finished ExitTableParse s
    /\ decompressed_data s = replicate 256 0
    /\ decompressed_data_index s = 0%nat
    /\ pending_bits s = []
    /\ tables_ok (tabs s).
Proof.
  apply (exod_decrunch_short_input_decodes_nothing
           boot demo_data (replicate 256 0) 256 true).
  - repeat split.
  - cbn. lia.
Defined.

(** ** Consumption of the input and writes to the output *)

Lemma raw_advanced_refl s : advanced s s.
Proof. split; [apply raw_reader_moved_refl|lia]. Qed.

Lemma raw_advanced_trans s1 s2 s3 :
  advanced s1 s2 -> advanced s2 s3 -> advanced s1 s3.
Proof.
  intros [M1 B1] [M2 B2].
  split; [eapply raw_reader_moved_trans; eassumption|lia].
Qed.

Lemma raw_get_one_bit_strict (s : state) :
  fst (get_one_bit s) <> -1 ->
  (bits_left (snd (get_one_bit s)) < bits_left s)%nat.
Proof.
  destruct (raw_get_one_bit_stream s) as (V & P & _).
  unfold bits_left. rewrite V, P.
  destruct (pending_bits s); [congruence|cbn; lia].
Qed.

Lemma raw_exod_read_byte_advanced (s : state) (b : Z) (s1 : state) :
  exod_read_byte s = Some (b, s1) ->
  advanced s s1 /\ 0 <= b < 256.
Proof.
  unfold exod_read_byte.
  destruct (crunched_data s !! crunched_data_index s) as [x|]; [|discriminate].
  intros [= <- <-]. split; [split; [repeat split|]|].
  - rewrite !raw_bits_left_formula. cbn. lia.
  - unfold u8. apply Z.mod_pos_bound. lia.
Qed.

Lemma raw_get_n_bits_u32_loop_advanced (todo : nat) (i v : Z) (s : state) :
  advanced s (snd (get_n_bits_u32_loop todo i v s)).
Proof.
  revert i v s. induction todo as [|todo IH]; intros i v s;
    [apply raw_advanced_refl|].
  cbn [get_n_bits_u32_loop].
  pose proof (raw_get_one_bit_advanced s) as A.
  destruct (get_one_bit s) as [b s1]. cbn [snd] in A.
  destruct (b =? -1); [exact A|].
  eapply raw_advanced_trans; [exact A|apply IH].
Qed.

Lemma raw_get_n_bits_u32_advanced (n : Z) (s : state) :
  advanced s (snd (get_n_bits_u32 n s)).
Proof.
  unfold get_n_bits_u32.
  destruct (n =? 0); [apply raw_advanced_refl|].
  destruct (32 <? n); [apply raw_advanced_refl|].
  apply raw_get_n_bits_u32_loop_advanced.
Qed.

Lemma raw_get_n_bits_int_advanced (n : Z) (s : state) :
  advanced s (snd (get_n_bits_int n s)).
Proof.
  unfold get_n_bits_int.
  pose proof (raw_get_n_bits_u32_advanced n s) as A.
  now destruct (get_n_bits_u32 n s) as [[v|] s1].
Qed.

Lemma raw_unary_scan_advanced (fuel : nat) (c : Z) (s : state) c' s' :
  unary_scan fuel c s = Some (c', s') -> advanced s s'.
Proof.
  revert c s. induction fuel as [|fuel IH]; intros c s; [discriminate|].
  cbn [unary_scan].
  pose proof (raw_get_one_bit_advanced s) as A.
  destruct (get_one_bit s) as [b s1]. cbn [snd] in A.
  destruct (b =? -1); [now intros [= _ <-]|].
  destruct (b =? 1); [now intros [= _ <-]|].
  destruct (31 <? u32 (c + 1)); [now intros [= _ <-]|].
  intros H. eapply raw_advanced_trans; [exact A|eapply IH; exact H].
Qed.

Lemma raw_unary_scan_total (fuel : nat) (c : Z) (s : state) :
  0 <= c <= 31 -> (32 - Z.to_nat c <= fuel)%nat ->
  exists c' s', unary_scan fuel c s = Some (c', s')
                /\ (c' = UINT32_MAX \/ c <= c' <= 31).
Proof.
  revert c s. induction fuel as [|fuel IH]; intros c s C F; [lia|].
  cbn [unary_scan]. destruct (get_one_bit s) as [b s1].
  destruct (b =? -1); [eauto|].
  destruct (b =? 1); [exists c, s1; split; [reflexivity|right; lia]|].
  assert (E : u32 (c + 1) = c + 1) by (apply Z.mod_small; lia).
  rewrite E.
  destruct (Z.ltb_spec 31 (c + 1)) as [Q|Q]; [eauto|].
  destruct (IH (c + 1) s1 ltac:(lia) ltac:(lia)) as (c' & s' & G & R).
  exists c', s'. split; [exact G|]. destruct R; [auto|right; lia].
Qed.

Lemma raw_evolves_refl s : evolves s s.
Proof. repeat split; auto. Qed.

Lemma raw_evolves_trans s1 s2 s3 :
  evolves s1 s2 -> evolves s2 s3 -> evolves s1 s3.
Proof.
  intros (T1 & Z1 & L1 & I1 & D1 & B1) (T2 & Z2 & L2 & I2 & D2 & B2).
  unfold evolves.
  repeat match goal with |- _ /\ _ => split end; try congruence; try lia.
  intros i Hi. rewrite D2, D1; [reflexivity|lia|lia].
Qed.

Lemma raw_advanced_evolves s s' : advanced s s' -> evolves s s'.
Proof.
  intros [(_ & _ & D & Z & I & _ & T) B]. unfold evolves.
  rewrite D, Z, I, T. repeat split; auto.
Qed.

Lemma raw_advanced_state_ok s s' : advanced s s' -> state_ok s -> state_ok s'.
Proof.
  intros [(_ & _ & D & Z & I & L & _) _]. unfold state_ok.
  now rewrite D, Z, I, L.
Qed.

Lemma raw_store_output_spec (v : Z) (s s' : state) :
  store_output v s = Some s' ->
  evolves s s'
  /\ decompressed_data_index s' = S (decompressed_data_index s)
  /\ decompressed_data s' !! decompressed_data_index s = Some v
  /\ pending_bits s' = pending_bits s
  /\ last_offset_val s' = last_offset_val s.
Proof.
  unfold store_output.
  destruct (Nat.ltb_spec (decompressed_data_index s)
              (length (decompressed_data s))) as [L|L]; [|discriminate].
  intros [= <-]. cbn.
  repeat match goal with |- _ /\ _ => split end; auto.
  - unfold evolves. cbn.
    repeat match goal with |- _ /\ _ => split end; auto.
    + apply length_insert.
    + intros i Hi. apply list_lookup_insert_ne. lia.
  - apply list_lookup_insert_eq. exact L.
Qed.

Lemma raw_store_output_ok (v : Z) (s : state) :
  state_ok s ->
  (decompressed_data_index s < decompressed_buffer_size s)%nat ->
  exists s', store_output v s = Some s' /\ state_ok s'.
Proof.
  intros (C & I & L) R. unfold store_output.
  destruct (Nat.ltb_spec (decompressed_data_index s)
              (length (decompressed_data s))) as [Q|Q]; [|lia].
  eexists. split; [reflexivity|]. unfold state_ok. cbn.
  rewrite length_insert. repeat split; auto; lia.
Qed.

Lemma raw_outcome_ok_trans s1 s2 o :
  evolves s1 s2 -> outcome_ok s2 o -> outcome_ok s1 o.
Proof.
  intros E. destruct o; cbn; [| |auto];
    intros [E2 B]; (split; [eapply raw_evolves_trans; eassumption|exact B]).
Qed.

Lemma raw_literal_block_ok (todo : nat) (s : state) :
  state_ok s -> outcome_ok s (literal_block todo s).
Proof.
  revert s. induction todo as [|todo IH]; intros s Hs; cbn [literal_block].
  { split; [apply raw_evolves_refl|exact Hs]. }
  destruct (exod_read_byte s) as [[b s1]|] eqn:E;
    [|split; [apply raw_evolves_refl|exact Hs]].
  apply raw_exod_read_byte_advanced in E. destruct E as [A _].
  pose proof (raw_advanced_state_ok _ _ A Hs) as Hs1.
  pose proof (raw_advanced_evolves _ _ A) as E1.
  destruct (Nat.ltb_spec (decompressed_data_index s1)
              (decompressed_buffer_size s1)) as [R|R].
  - destruct (raw_store_output_ok b s1 Hs1 R) as (s2 & W & Hs2). rewrite W.
    apply raw_store_output_spec in W. destruct W as (E2 & _).
    eapply raw_outcome_ok_trans; [exact E1|].
    eapply raw_outcome_ok_trans; [exact E2|]. now apply IH.
  - split; assumption.
Qed.

Lemma raw_copy_byte_ok (offset : Z) (s : state) :
  state_ok s ->
  (decompressed_data_index s < decompressed_buffer_size s)%nat ->
  0 <= offset <= Z.of_nat (decompressed_data_index s) ->
  exists s', copy_byte offset s = Some s' /\ state_ok s' /\ evolves s s'
             /\ decompressed_data_index s' = S (decompressed_data_index s)
             /\ decompressed_data s' !! decompressed_data_index s
                = decompressed_data s
                    !! (decompressed_data_index s - Z.to_nat offset)%nat
             /\ pending_bits s' = pending_bits s
             /\ last_offset_val s' = last_offset_val s.
Proof.
  intros Hs R O. unfold copy_byte, load_output.
  destruct (Z.ltb_spec (Z.of_nat (decompressed_data_index s) - offset) 0);
    [lia|].
  replace (Z.to_nat (Z.of_nat (decompressed_data_index s) - offset))
    with (decompressed_data_index s - Z.to_nat offset)%nat by lia.
  destruct Hs as (C & I & L).
  destruct (lookup_lt_is_Some_2 (decompressed_data s)
              (decompressed_data_index s - Z.to_nat offset)%nat ltac:(lia))
    as [v Hv].
  rewrite Hv.
  destruct (raw_store_output_ok v s ltac:(repeat split; assumption) R)
    as (s' & W & Hs').
  exists s'. split; [exact W|]. split; [exact Hs'|].
  destruct (raw_store_output_spec _ _ _ W) as (E & I' & V & P & L').
  auto 10.
Qed.

Lemma raw_copy_run_ok (todo : nat) (offset : Z) (s : state) :
  state_ok s ->
  0 <= offset <= Z.of_nat (decompressed_data_index s) ->
  outcome_ok s (copy_run todo offset s).
Proof.
  revert s. induction todo as [|todo IH]; intros s Hs O; cbn [copy_run].
  { split; [apply raw_evolves_refl|exact Hs]. }
  destruct (Nat.leb_spec (decompressed_buffer_size s)
              (decompressed_data_index s)) as [F|F].
  { split; [apply raw_evolves_refl|exact Hs]. }
  destruct (raw_copy_byte_ok offset s Hs F O)
    as (s1 & C & Hs1 & E1 & I1 & _).
  rewrite C. eapply raw_outcome_ok_trans; [exact E1|].
  apply IH; [exact Hs1|lia].
Qed.

Lemma raw_read_offset_advanced (bits base : list Z) (tab : Z) (s : state) :
  advanced s (snd (read_offset bits base tab s))
  /\ match fst (read_offset bits base tab s) with
     | Some o => 0 <= o < 4294967296
     | None => True
     end.
Proof.
  unfold read_offset.
  pose proof (raw_get_n_bits_u32_advanced (at_index bits tab) s) as A.
  destruct (at_index bits tab =? 0).
  - cbn [fst snd]. split; [apply raw_advanced_refl|].
    apply Z.mod_pos_bound. lia.
  - destruct (get_n_bits_u32 (at_index bits tab) s) as [[v|] s1];
      cbn [fst snd] in *; split; auto.
    apply Z.mod_pos_bound. lia.
Qed.

Lemma raw_read_length_advanced (len_idx : Z) (s : state) :
  advanced s (snd (read_length len_idx s)).
Proof.
  unfold read_length.
  destruct (at_index (lengths_bits (tabs s)) len_idx =? 0);
    [apply raw_advanced_refl|].
  pose proof (raw_get_n_bits_u32_advanced
                (at_index (lengths_bits (tabs s)) len_idx) s) as A.
  now destruct (get_n_bits_u32 _ s) as [[v|] s1].
Qed.

Lemma raw_select_offset_advanced (len_idx seq_len : Z) (s : state) :
  advanced s (snd (select_offset len_idx seq_len s))
  /\ match fst (select_offset len_idx seq_len s) with
     | Some o => 0 <= o < 4294967296
     | None => True
     end.
Proof.
  unfold select_offset.
  destruct (seq_len =? 1); [apply raw_read_offset_advanced|].
  destruct (seq_len =? 2); apply raw_read_offset_advanced.
Qed.

Lemma raw_copy_sequence_ok (len_idx : Z) (s : state) :
  state_ok s -> outcome_ok s (copy_sequence len_idx s).
Proof.
  intros Hs. unfold copy_sequence.
  pose proof (raw_read_length_advanced len_idx s) as A1.
  destruct (read_length len_idx s) as [[seq_len|] s1]; cbn [snd] in A1.
  2:{ split; [now apply raw_advanced_evolves|].
      split; [eapply raw_advanced_state_ok; eassumption|].
      repeat split; discriminate. }
  pose proof (raw_select_offset_advanced len_idx seq_len s1) as [A2 O2].
  destruct (select_offset len_idx seq_len s1) as [[raw_offset|] s2];
    cbn [fst snd] in A2, O2.
  2:{ pose proof (raw_advanced_trans _ _ _ A1 A2) as A.
      split; [now apply raw_advanced_evolves|].
      split; [eapply raw_advanced_state_ok; eassumption|].
      repeat split; discriminate. }
  pose proof (raw_advanced_trans _ _ _ A1 A2) as A.
  pose proof (raw_advanced_state_ok _ _ A Hs) as Hs2.
  pose proof (raw_advanced_evolves _ _ A) as E2.
  eapply raw_outcome_ok_trans; [exact E2|].
  destruct (Z.eqb_spec raw_offset 0) as [->|N].
  - destruct (Z.ltb_spec (Z.of_nat (decompressed_data_index s2))
                (last_offset_val s2)).
    + split; [apply raw_evolves_refl|].
      split; [exact Hs2|repeat split; discriminate].
    + apply raw_copy_run_ok; [exact Hs2|].
      destruct Hs2 as (_ & _ & L). lia.
  - assert (Hs3 : state_ok (set_last_offset_val raw_offset s2)).
    { destruct Hs2 as (C & I & L). repeat split; cbn; auto; lia. }
    assert (E3 : evolves s2 (set_last_offset_val raw_offset s2))
      by (repeat split; auto).
    eapply raw_outcome_ok_trans; [exact E3|].
    destruct (Z.ltb_spec
                (Z.of_nat (decompressed_data_index
                             (set_last_offset_val raw_offset s2)))
                raw_offset).
    + split; [apply raw_evolves_refl|].
      split; [exact Hs3|repeat split; discriminate].
    + apply raw_copy_run_ok; [exact Hs3|]. lia.
Qed.

Lemma raw_decrunch_iteration_ok (s : state) :
  state_ok s ->
  (decompressed_data_index s < decompressed_buffer_size s)%nat ->
  outcome_ok s (decrunch_iteration s)
  /\ (forall s', decrunch_iteration s = Next s' ->
                 (bits_left s' < bits_left s)%nat).
Proof.
  intros Hs R. unfold decrunch_iteration.
  pose proof (raw_get_one_bit_advanced s) as A0.
  pose proof (raw_get_one_bit_strict s) as S0.
  destruct (get_one_bit s) as [bit s0]. cbn [fst snd] in A0, S0.
  pose proof (raw_advanced_state_ok _ _ A0 Hs) as Hs0.
  pose proof (raw_advanced_evolves _ _ A0) as E0.
  destruct (Z.eqb_spec bit (-1)) as [->|N].
  { split; [|discriminate].
    split; [exact E0|split; [exact Hs0|repeat split; discriminate]]. }
  specialize (S0 N).
  assert (K : forall o, outcome_ok s0 o ->
              outcome_ok s o
              /\ (forall s', o = Next s' -> (bits_left s' < bits_left s)%nat)).
  { intros o Ho. split; [eapply raw_outcome_ok_trans; eassumption|].
    intros s' ->. destruct Ho as [(_ & _ & _ & _ & _ & B) _]. lia. }
  destruct (bit =? 1).
  { destruct (exod_read_byte s0) as [[b s1]|] eqn:Eb.
    - apply raw_exod_read_byte_advanced in Eb. destruct Eb as [A1 _].
      pose proof (raw_advanced_state_ok _ _ A1 Hs0) as Hs1.
      destruct A0 as [(_ & _ & _ & Z0 & I0 & _) _].
      pose proof A1 as [(_ & _ & _ & Z1 & I1 & _) _].
      destruct (Nat.ltb_spec (decompressed_data_index s1)
                  (decompressed_buffer_size s1)) as [Q|Q]; [|lia].
      destruct (raw_store_output_ok b s1 Hs1 Q) as (s2 & W & Hs2).
      rewrite W. apply K. apply raw_store_output_spec in W.
      split; [|exact Hs2].
      eapply raw_evolves_trans; [apply raw_advanced_evolves; exact A1|].
      apply W.
    - apply K. split; [apply raw_evolves_refl|].
      split; [exact Hs0|repeat split; discriminate]. }
  destruct (unary_scan 32 0 s0) as [[c s1]|] eqn:U.
  2:{ apply K. split; [apply raw_evolves_refl|].
      split; [exact Hs0|repeat split; discriminate]. }
  apply raw_unary_scan_advanced in U.
  pose proof (raw_advanced_state_ok _ _ U Hs0) as Hs1.
  pose proof (raw_advanced_evolves _ _ U) as E1.
  assert (K1 : forall o, outcome_ok s1 o ->
               outcome_ok s o
               /\ (forall s', o = Next s' ->
                              (bits_left s' < bits_left s)%nat)).
  { intros o Ho. apply K. eapply raw_outcome_ok_trans; eassumption. }
  assert (Stop1 : forall e, e <> ExitBufferFull -> e <> ExitTableParse ->
                  e <> BreakLiteralFull ->
                  outcome_ok s1 (Stop e s1)).
  { intros e X1 X2 X3. split; [apply raw_evolves_refl|auto]. }
  destruct (c =? UINT32_MAX); [apply K1, Stop1; discriminate|].
  destruct (16 <=? c); [|apply K1, raw_copy_sequence_ok, Hs1].
  destruct (c =? 16); [apply K1, Stop1; discriminate|].
  destruct (c =? 17); [|apply K1, Stop1; discriminate].
  pose proof (raw_get_n_bits_int_advanced 8 s1) as A2.
  destruct (get_n_bits_int 8 s1) as [hi s2]. cbn [snd] in A2.
  pose proof (raw_get_n_bits_int_advanced 8 s2) as A3.
  destruct (get_n_bits_int 8 s2) as [lo s3]. cbn [snd] in A3.
  pose proof (raw_advanced_trans _ _ _ A2 A3) as A23.
  pose proof (raw_advanced_state_ok _ _ A23 Hs1) as Hs3.
  apply K1. eapply raw_outcome_ok_trans;
    [apply raw_advanced_evolves; exact A23|].
  destruct ((hi <? 0) || (lo <? 0)).
  - split; [apply raw_evolves_refl|].
    split; [exact Hs3|repeat split; discriminate].
  - now apply raw_literal_block_ok.
Qed.

Lemma raw_decrunch_loop_ok (fuel : nat) (s : state) :
  state_ok s -> (bits_left s < fuel)%nat ->
  exists e s',
    decrunch_loop fuel s = Finished e s'
    /\ evolves s s' /\ state_ok s'
    /\ e <> ExitTableParse /\ e <> BreakLiteralFull
    /\ (e = ExitBufferFull ->
        decompressed_data_index s' = decompressed_buffer_size s').
Proof.
  revert s. induction fuel as [|fuel IH]; intros s Hs B; [lia|].
  cbn [decrunch_loop].
  destruct (Nat.ltb_spec (decompressed_data_index s)
              (decompressed_buffer_size s)) as [R|R].
  - destruct (raw_decrunch_iteration_ok s Hs R) as [O D].
    destruct (decrunch_iteration s) as [s1|e s1|]; [| |contradiction].
    + destruct O as [E1 Hs1]. specialize (D s1 eq_refl).
      destruct (IH s1 Hs1 ltac:(lia)) as (e & s' & G & E & Hs' & X).
      exists e, s'. split; [exact G|].
      split; [eapply raw_evolves_trans; eassumption|auto].
    + destruct O as (E1 & Hs1 & X1 & X2 & X3).
      exists e, s1. split; [reflexivity|]. split; [exact E1|].
      split; [exact Hs1|]. split; [exact X2|]. split; [exact X3|].
      intros H. contradiction.
  - exists ExitBufferFull, s.
    split; [reflexivity|]. split; [apply raw_evolves_refl|].
    split; [exact Hs|]. repeat split; try discriminate.
    destruct Hs as (_ & I & _). lia.
Qed.

(** ** A call of the raw-table decruncher *)

(** X17.  A call of the raw-table [exod_decrunch] with a capacity within
    the output array ends, whatever the input: it accesses the output
    array within its bounds only, writes at most [out_max_len] bytes, and
    leaves the array above the bytes written as it was.  It ends at the
    table parse exactly when the input has fewer than 26 bytes.  The
    [break] in the [else] of the literal store is never taken. *)
Theorem raw_exod_decrunch_terminates_within_capacity
    (g : state) (in_data out_buffer : list Z) (cap : nat) (pm : bool) :
  tables_ok (tabs g) -> (cap <= length out_buffer)%nat ->
  exists e s,
    exod_decrunch g in_data out_buffer cap pm = Finished e s
    /\ (decompressed_data_index s <= cap)%nat
    /\ length (decompressed_data s) = length out_buffer
    /\ (forall i : nat, (decompressed_data_index s <= i)%nat ->
          decompressed_data s !! i = out_buffer !! i)
    /\ e <> BreakLiteralFull
    /\ (e = ExitBufferFull -> decompressed_data_index s = cap)
    /\ (e = ExitTableParse <-> (length in_data < 26)%nat)
    /\ tables_ok (tabs s).
Proof.
  intros T L. unfold exod_decrunch.
  destruct (raw_parse_cases
              (exod_decrunch_reset g in_data out_buffer cap pm) T)
    as (ok & s0 & G & O & F & T' & _ & H).
  rewrite G.
  rewrite raw_bits_left_formula in O. unfold exod_decrunch_reset in O.
  cbn [exod_bit_pos crunched_data crunched_data_index] in O.
  destruct F as (_ & _ & F3 & F4 & F5 & F6).
  unfold exod_decrunch_reset in F3, F4, F5, F6.
  cbn [decompressed_data decompressed_buffer_size decompressed_data_index
       last_offset_val] in F3, F4, F5, F6.
  destruct ok.
  - symmetry in O. apply Nat.leb_le in O.
    destruct H as [_ P].
    assert (Hs : state_ok s0)
      by (unfold state_ok; rewrite F3, F4, F5, F6; repeat split; lia).
    assert (B : (bits_left s0 < 8 * length in_data + 1)%nat).
    { unfold bits_left. rewrite P, length_drop.
      fold (bits_left (exod_decrunch_reset g in_data out_buffer cap pm)).
      rewrite raw_bits_left_formula. cbn. lia. }
    destruct (raw_decrunch_loop_ok _ s0 Hs B)
      as (e & s & D & E & Hs' & X1 & X2 & X3).
    exists e, s. rewrite D.
    destruct E as (E1 & E2 & E3 & E4 & E5 & _).
    destruct Hs' as (_ & I & _).
    split; [reflexivity|]. split; [lia|]. split; [congruence|].
    split; [intros i Hi; rewrite E5 by lia; now rewrite F3|].
    split; [exact X2|].
    split; [intros K; rewrite (X3 K); congruence|].
    split; [|now rewrite E1].
    split; [intros K; contradiction|intros K; lia].
  - symmetry in O. apply Nat.leb_gt in O.
    exists ExitTableParse, s0.
    split; [reflexivity|]. split; [lia|]. split; [now rewrite F3|].
    split; [intros i _; now rewrite F3|]. split; [discriminate|].
    split; [discriminate|]. split; [|exact T'].
    split; [intros _; lia|reflexivity].
Qed.

Lemma raw_exod_decrunch_terminates_within_capacity_witness :
  exists e s,
    exod_decrunch boot stale_copy_demo (replicate 4 65) 4 false
    = Finished e s
    /\ (decompressed_data_index s <= 4)%nat
    /\ length (decompressed_data s) = length (replicate 4 65)
    /\ (forall i : nat, (decompressed_data_index s <= i)%nat ->
          decompressed_data s !! i = replicate 4 65 !! i)
    /\ e <> BreakLiteralFull
    /\ (e = ExitBufferFull -> decompressed_data_index s = 4%nat)
    /\ (e = ExitTableParse <-> (length stale_copy_demo < 26)%nat)
    /\ tables_ok (tabs s).
Proof.
  apply (raw_exod_decrunch_terminates_within_capacity
           boot stale_copy_demo (replicate 4 65) 4 false).
  - repeat split.
  - cbn. lia.
Defined.

(** ** Sequences with offset 0 *)

Lemma raw_copy_run_zero (todo : nat) (s : state) :
  state_ok s ->
  copy_run todo 0 s
  = Next (set_output (decompressed_data s)
            (Nat.min (decompressed_data_index s + todo)
                     (decompressed_buffer_size s)) s).
Proof.
  revert s. induction todo as [|todo IH]; intros s Hs; cbn [copy_run].
  - destruct Hs as (_ & I & _).
    replace (Nat.min _ _) with (decompressed_data_index s) by lia.
    now destruct s.
  - destruct (Nat.leb_spec (decompressed_buffer_size s)
                (decompressed_data_index s)) as [F|F].
    + destruct Hs as (_ & I & _).
      replace (Nat.min _ _) with (decompressed_data_index s) by lia.
      now destruct s.
    + unfold copy_byte, load_output.
      rewrite Z.sub_0_r, Nat2Z.id.
      destruct (Z.ltb_spec (Z.of_nat (decompressed_data_index s)) 0); [lia|].
      pose proof Hs as (C & I & L).
      destruct (lookup_lt_is_Some_2 (decompressed_data s)
                  (decompressed_data_index s) ltac:(lia)) as [v Hv].
      rewrite Hv. unfold store_output.
      destruct (Nat.ltb_spec (decompressed_data_index s)
                  (length (decompressed_data s))); [|lia].
      rewrite (list_insert_id _ _ _ Hv).
      rewrite IH by (unfold state_ok; cbn; repeat split; auto; lia).
      replace (decompressed_data_index s + S todo)%nat
        with (S (decompressed_data_index s) + todo)%nat by lia.
      reflexivity.
Qed.

(** X18.  The raw-table decruncher does not reject a sequence whose offset
    is 0.  When the offset read is 0 and no offset has been stored yet,
    the copy takes each byte from the position it writes it to: the
    array is left as it is, and the write position moves on by the
    length of the sequence, up to the capacity.  What the array held
    before the call becomes output. *)
Theorem copy_sequence_zero_offset_keeps_stale_bytes
    (len_idx seq_len : Z) (s s1 s2 : state) :
  state_ok s -> last_offset_val s = 0 ->
  read_length len_idx s = (Some seq_len, s1) ->
  select_offset len_idx seq_len s1 = (Some 0, s2) ->
  exists s',
    copy_sequence len_idx s = Next s'
    /\ decompressed_data s' = decompressed_data s
    /\ decompressed_data_index s'
       = Nat.min (decompressed_data_index s + Z.to_nat seq_len)
                 (decompressed_buffer_size s)
    /\ pending_bits s' = pending_bits s2
    /\ last_offset_val s' = 0.
Proof.
  intros Hs L0 R1 R2.
  pose proof (raw_read_length_advanced len_idx s) as A1.
  rewrite R1 in A1. cbn [snd] in A1.
  pose proof (raw_select_offset_advanced len_idx seq_len s1) as [A2 _].
  rewrite R2 in A2. cbn [snd] in A2.
  pose proof (raw_advanced_trans _ _ _ A1 A2) as A.
  pose proof (raw_advanced_state_ok _ _ A Hs) as Hs2.
  destruct A as [(_ & _ & D & Z & I & L & _) _].
  unfold copy_sequence. rewrite R1, R2. cbn [Z.eqb].
  rewrite L, L0.
  destruct (Z.ltb_spec (Z.of_nat (decompressed_data_index s2)) 0); [lia|].
  rewrite raw_copy_run_zero by exact Hs2.
  eexists. split; [reflexivity|]. cbn.
  rewrite D, Z, I, L, L0. auto.
Qed.

Lemma copy_sequence_zero_offset_keeps_stale_bytes_witness :
  let s := before_stale_copy in
  let s1 := snd (read_length 0 s) in
  let s2 := snd (select_offset 0 1 s1) in
  exists s',
    copy_sequence 0 s = Next s'
    /\ decompressed_data s' = decompressed_data s
    /\ decompressed_data_index s'
       = Nat.min (decompressed_data_index s + Z.to_nat 1)
                 (decompressed_buffer_size s)
    /\ pending_bits s' = pending_bits s2
    /\ last_offset_val s' = 0.
Proof.
  intros s s1 s2.
  apply (copy_sequence_zero_offset_keeps_stale_bytes 0 1 s s1 s2).
  - unfold state_ok. vm_compute. repeat split; try lia; discriminate.
  - vm_compute. reflexivity.
  - vm_compute. reflexivity.
  - vm_compute. reflexivity.
Defined.

(** ** Literals *)

(** X19.  After the bit 1 the raw-table decruncher takes the literal from
    the next whole byte of the input, not from the next eight bits: the
    bits left in the byte the bit came from stay where they are and are
    read after the literal. *)
Theorem literal_is_next_whole_byte (s s0 : state) (x : Z) :
  state_ok s ->
  (decompressed_data_index s < decompressed_buffer_size s)%nat ->
  get_one_bit s = (1, s0) ->
  crunched_data s0 !! crunched_data_index s0 = Some x ->
  exists s',
    decrunch_iteration s = Next s'
    /\ decompressed_data s'
       = <[decompressed_data_index s := x mod 256]> (decompressed_data s)
    /\ decompressed_data_index s' = S (decompressed_data_index s)
    /\ crunched_data_index s' = S (crunched_data_index s0)
    /\ exod_cur_byte s' = exod_cur_byte s0
    /\ exod_bit_pos s' = exod_bit_pos s0.
Proof.
  intros Hs R G X.
  pose proof (raw_get_one_bit_advanced s) as A. rewrite G in A.
  cbn [snd] in A. destruct A as [(_ & _ & D & Z & I & _) _].
  unfold decrunch_iteration. rewrite G. cbn [Z.eqb].
  unfold exod_read_byte. rewrite X.
  cbn [set_crunched_data_index decompressed_data_index
       decompressed_buffer_size].
  rewrite Z, I.
  destruct (Nat.ltb_spec (decompressed_data_index s)
              (decompressed_buffer_size s)); [|lia].
  unfold store_output.
  cbn [set_crunched_data_index decompressed_data_index decompressed_data].
  rewrite D, I. destruct Hs as (C & _).
  destruct (Nat.ltb_spec (decompressed_data_index s)
              (length (decompressed_data s))); [|lia].
  eexists. split; [reflexivity|]. cbn. auto.
Qed.

Lemma literal_is_next_whole_byte_witness :
  let s := before_literal in
  let s0 := snd (get_one_bit s) in
  exists s',
    decrunch_iteration s = Next s'
    /\ decompressed_data s'
       = <[decompressed_data_index s := 72 mod 256]> (decompressed_data s)
    /\ decompressed_data_index s' = S (decompressed_data_index s)
    /\ crunched_data_index s' = S (crunched_data_index s0)
    /\ exod_cur_byte s' = exod_cur_byte s0
    /\ exod_bit_pos s' = exod_bit_pos s0.
Proof.
  intros s s0.
  apply (literal_is_next_whole_byte s s0 72).
  - unfold state_ok. vm_compute. repeat split; try lia; discriminate.
  - vm_compute. lia.
  - vm_compute. reflexivity.
  - vm_compute. reflexivity.
Defined.

(** X20.  The loop of the long literal block copies whole bytes of the
    input to the output, in order: as many as the block has, the room
    left in the output allows and the input holds.  The bits left in the
    current byte are not touched.  When the room runs out before the block
    and the input do, one more byte of the input is taken and dropped. *)
Theorem literal_block_copies_bytes (n : nat) (s : state) :
  state_ok s ->
  let room := (decompressed_buffer_size s - decompressed_data_index s)%nat in
  let avail := (length (crunched_data s) - crunched_data_index s)%nat in
  let m := Nat.min n (Nat.min room avail) in
  exists s',
    literal_block n s = Next s'
    /\ decompressed_data_index s' = (decompressed_data_index s + m)%nat
    /\ (forall k : nat, (k < m)%nat ->
          exists x, crunched_data s !! (crunched_data_index s + k)%nat = Some x
                    /\ decompressed_data s'
                         !! (decompressed_data_index s + k)%nat
                       = Some (x mod 256))
    /\ (forall j : nat,
          (j < decompressed_data_index s)%nat
          \/ (decompressed_data_index s + m <= j)%nat ->
          decompressed_data s' !! j = decompressed_data s !! j)
    /\ crunched_data_index s'
       = (crunched_data_index s + m
          + (if (room <? n)%nat && (room <? avail)%nat then 1 else 0))%nat
    /\ crunched_data s' = crunched_data s
    /\ exod_cur_byte s' = exod_cur_byte s
    /\ exod_bit_pos s' = exod_bit_pos s
    /\ last_offset_val s' = last_offset_val s
    /\ state_ok s'.
Proof.
  revert s. induction n as [|n IH]; intros s Hs; cbn zeta.
  { exists s. cbn [literal_block Nat.min andb Nat.ltb Nat.leb].
    rewrite !Nat.add_0_r.
    repeat split; auto; try apply Hs; intros; lia. }
  cbn [literal_block]. unfold exod_read_byte.
  destruct (crunched_data s !! crunched_data_index s) as [x|] eqn:E.
  2:{ apply lookup_ge_None_1 in E. exists s.
      replace (length (crunched_data s) - crunched_data_index s)%nat
        with 0%nat by lia.
      rewrite Nat.min_0_r, Nat.min_0_r, !Nat.add_0_r.
      replace (_ <? 0)%nat with false by (symmetry; apply Nat.ltb_ge; lia).
      rewrite andb_false_r, Nat.add_0_r.
      repeat split; auto; try apply Hs; intros; lia. }
  pose proof (lookup_lt_Some _ _ _ E) as LE.
  cbn [set_crunched_data_index decompressed_data_index
       decompressed_buffer_size].
  destruct (Nat.ltb_spec (decompressed_data_index s)
              (decompressed_buffer_size s)) as [R|R].
  - set (s1 := set_crunched_data_index (S (crunched_data_index s)) s).
    assert (Hs1 : state_ok s1) by exact Hs.
    destruct (raw_store_output_ok (u8 x) s1 Hs1 R) as (s2 & W & Hs2).
    rewrite W.
    destruct (raw_store_output_spec _ _ _ W) as (E2 & I2 & V2 & _ & L2).
    assert (F2 : crunched_data s2 = crunched_data s
                 /\ crunched_data_index s2 = S (crunched_data_index s)
                 /\ exod_cur_byte s2 = exod_cur_byte s
                 /\ exod_bit_pos s2 = exod_bit_pos s
                 /\ decompressed_buffer_size s2 = decompressed_buffer_size s).
    { unfold store_output in W.
      destruct (_ <? _)%nat in W; [|discriminate].
      injection W as <-. repeat split. }
    destruct F2 as (F21 & F22 & F23 & F24 & F25).
    destruct (IH s2 Hs2)
      as (s' & G & I' & B' & K' & C' & D' & P1 & P2 & L' & Hs').
    rewrite F21, F22, F25, I2 in *.
    change (decompressed_data_index s1) with (decompressed_data_index s)
      in *.
    exists s'. split; [exact G|].
    assert (M : (Nat.min (S n)
                   (Nat.min (decompressed_buffer_size s
                             - decompressed_data_index s)
                            (length (crunched_data s)
                             - crunched_data_index s))
                 = S (Nat.min n
                        (Nat.min (decompressed_buffer_size s
                                  - S (decompressed_data_index s))
                                 (length (crunched_data s)
                                  - S (crunched_data_index s)))))%nat)
      by lia.
    rewrite M.
    split; [lia|]. split.
    { intros [|k] Hk.
      - exists x. rewrite !Nat.add_0_r. split; [exact E|].
        rewrite K' by (left; lia). exact V2.
      - destruct (B' k ltac:(lia)) as (y & Y1 & Y2). exists y.
        replace (crunched_data_index s + S k)%nat
          with (S (crunched_data_index s) + k)%nat by lia.
        replace (decompressed_data_index s + S k)%nat
          with (S (decompressed_data_index s) + k)%nat by lia.
        auto. }
    split.
    { intros j Hj. rewrite K' by lia.
      destruct E2 as (_ & _ & _ & _ & E2 & _). apply E2.
      change (decompressed_data_index s1) with (decompressed_data_index s).
      lia. }
    split.
    { rewrite C'.
      destruct (Nat.ltb_spec (decompressed_buffer_size s
                              - S (decompressed_data_index s)) n),
        (Nat.ltb_spec (decompressed_buffer_size s
                       - S (decompressed_data_index s))
                      (length (crunched_data s)
                       - S (crunched_data_index s))),
        (Nat.ltb_spec (decompressed_buffer_size s
                       - decompressed_data_index s) (S n)),
        (Nat.ltb_spec (decompressed_buffer_size s
                       - decompressed_data_index s)
                      (length (crunched_data s) - crunched_data_index s));
        cbn [andb]; lia. }
    change (last_offset_val s1) with (last_offset_val s) in L2.
    split; [exact D'|]. split; [congruence|]. split; [congruence|].
    split; [congruence|exact Hs'].
  - exists (set_crunched_data_index (S (crunched_data_index s)) s).
    pose proof Hs as (_ & I & _).
    replace (decompressed_buffer_size s - decompressed_data_index s)%nat
      with 0%nat by lia.
    rewrite ?Nat.min_0_l, ?Nat.min_0_r, !Nat.add_0_r.
    replace (0 <? length (crunched_data s) - crunched_data_index s)%nat
      with true by (symmetry; apply Nat.ltb_lt; lia).
    cbn. repeat split; auto; try apply Hs; intros; lia.
Qed.

Lemma literal_block_copies_bytes_witness :
  let s := before_literal in
  let room := (decompressed_buffer_size s - decompressed_data_index s)%nat in
  let avail := (length (crunched_data s) - crunched_data_index s)%nat in
  let m := Nat.min 5 (Nat.min room avail) in
  exists s',
    literal_block 5 s = Next s'
    /\ decompressed_data_index s' = (decompressed_data_index s + m)%nat
    /\ (forall k : nat, (k < m)%nat ->
          exists x, crunched_data s !! (crunched_data_index s + k)%nat = Some x
                    /\ decompressed_data s'
                         !! (decompressed_data_index s + k)%nat
                       = Some (x mod 256))
    /\ (forall j : nat,
          (j < decompressed_data_index s)%nat
          \/ (decompressed_data_index s + m <= j)%nat ->
          decompressed_data s' !! j = decompressed_data s !! j)
    /\ crunched_data_index s'
       = (crunched_data_index s + m
          + (if (room <? 5)%nat && (room <? avail)%nat then 1 else 0))%nat
    /\ crunched_data s' = crunched_data s
    /\ exod_cur_byte s' = exod_cur_byte s
    /\ exod_bit_pos s' = exod_bit_pos s
    /\ last_offset_val s' = last_offset_val s
    /\ state_ok s'.
Proof.
  intros s.
  apply (literal_block_copies_bytes 5 s).
  unfold state_ok. vm_compute. repeat split; try lia; discriminate.
Defined.

(** ** The gamma reader of the raw-table sketch *)

Lemma raw_gamma_scan_found (k fuel : nat) (c : Z) (s : state)
    (r : list bool) :
  pending_bits s = replicate k false ++ true :: r ->
  0 <= c -> c + Z.of_nat k <= 31 -> (k < fuel)%nat ->
  exists s', gamma_raw_scan fuel c s = Some (Some (c + Z.of_nat k), s')
             /\ pending_bits s' = r /\ reader_moved s s'.
Proof.
  revert fuel c s. induction k as [|k IH]; intros fuel c s P C K F;
    (destruct fuel as [|fuel]; [lia|]); cbn [gamma_raw_scan];
    pose proof (raw_get_one_bit_cases s) as G; rewrite P in G;
    cbn [replicate app] in G; destruct G as (s1 & G & P1 & M1); rewrite G.
  - cbn. exists s1. rewrite Z.add_0_r. auto.
  - cbn [Z.b2z Z.eqb].
    assert (E : u32 (c + 1) = c + 1) by (apply Z.mod_small; lia).
    rewrite E. destruct (Z.ltb_spec 31 (c + 1)); [lia|].
    destruct (IH fuel (c + 1) s1 P1 ltac:(lia) ltac:(lia) ltac:(lia))
      as (s' & G' & P' & M').
    exists s'. rewrite G'. split; [do 3 f_equal; lia|].
    split; [exact P'|eapply raw_reader_moved_trans; eassumption].
Qed.

(** X21.  [get_gamma_coded_value_raw] decodes [k] zero bits, a one bit and
    [k] payload bits, for [k] up to 31, to 2^k plus the payload read
    lowest bit first, and stops right after the code.  For [k] = 31 and a
    payload of ones only this value is 0xFFFFFFFF, the value the function
    returns for an error; no other code gives it. *)
Theorem get_gamma_coded_value_raw_of_code
    (k : nat) (payload r : list bool) (s : state) :
  pending_bits s = replicate k false ++ true :: payload ++ r ->
  length payload = k -> (k <= 31)%nat ->
  exists s',
    get_gamma_coded_value_raw s = (2 ^ Z.of_nat k + lsb_value payload, s')
    /\ pending_bits s' = r
    /\ reader_moved s s'
    /\ (2 ^ Z.of_nat k + lsb_value payload = UINT32_MAX
        <-> k = 31%nat /\ lsb_value payload = 2147483647).
Proof.
  intros P L K.
  destruct (raw_gamma_scan_found k 32 0 s (payload ++ r) P ltac:(lia)
              ltac:(lia) ltac:(lia)) as (s1 & G & P1 & M1).
  pose proof (raw_lsb_value_range payload) as R. rewrite L in R.
  assert (Pw : 0 < 2 ^ Z.of_nat k) by (apply Z.pow_pos_nonneg; lia).
  assert (Q : 2 ^ Z.of_nat k + lsb_value payload = UINT32_MAX
              <-> k = 31%nat /\ lsb_value payload = 2147483647).
  { unfold UINT32_MAX. split.
    - intros H. destruct (Nat.eq_dec k 31%nat) as [->|N].
      + change (2 ^ Z.of_nat 31) with 2147483648 in *. lia.
      + assert (2 ^ Z.of_nat k <= 2 ^ 30)
          by (apply Z.pow_le_mono_r; lia).
        change (2 ^ 30) with 1073741824 in *. lia.
    - intros [-> H]. change (2 ^ Z.of_nat 31) with 2147483648. lia. }
  unfold get_gamma_coded_value_raw. rewrite G. rewrite !Z.add_0_l.
  destruct k as [|k].
  - destruct payload; [|discriminate]. cbn [app] in P1.
    exists s1. cbn. auto.
  - replace (Z.of_nat (S k) =? 0) with false
      by (symmetry; apply Z.eqb_neq; lia).
    assert (U : u8 (Z.of_nat (S k)) = Z.of_nat (S k))
      by (apply Z.mod_small; lia).
    rewrite U.
    destruct (raw_get_n_bits_u32_cases (S k) s1 ltac:(lia))
      as (s2 & M2 & H).
    rewrite P1 in H. rewrite length_app, L in H.
    replace (S k <=? S k + length r)%nat with true in H
      by (symmetry; apply Nat.leb_le; lia).
    destruct H as [H1 H2].
    rewrite (take_app_length' payload r (S k) (eq_sym L)) in H1.
    rewrite (drop_app_length' payload r (S k) (eq_sym L)) in H2.
    rewrite H1.
    exists s2.
    assert (V : u32 (Z.shiftl 1 (Z.of_nat (S k))) = 2 ^ Z.of_nat (S k)).
    { rewrite Z.shiftl_1_l. apply Z.mod_small.
      split; [lia|]. change 4294967296 with (2 ^ 32).
      apply Z.pow_lt_mono_r; lia. }
    rewrite V, <- Z.shiftl_1_l, lor_pow2_small, Z.shiftl_1_l by lia.
    split; [reflexivity|]. split; [exact H2|].
    split; [eapply raw_reader_moved_trans; eassumption|exact Q].
Qed.

Lemma get_gamma_coded_value_raw_of_code_witness :
  let s := State [108] 0 false 0 8 [] 0 0 0 (tabs boot) in
  exists s',
    get_gamma_coded_value_raw s
    = (2 ^ Z.of_nat 2 + lsb_value [true; false], s')
    /\ pending_bits s' = [true; true; false]
    /\ reader_moved s s'
    /\ (2 ^ Z.of_nat 2 + lsb_value [true; false] = UINT32_MAX
        <-> 2%nat = 31%nat /\ lsb_value [true; false] = 2147483647).
Proof.
  intros s.
  apply (get_gamma_coded_value_raw_of_code 2 [true; false]
           [true; true; false] s); [reflexivity|reflexivity|lia].
Defined.

End RawProperties.
